(** * Lutris: system options and installer window

    A shallow embedding of two modules of the Lutris game launcher:

    - [lutris/sysoptions.py]: the choice-list helpers ([get_resolution_choices],
      [get_output_choices], [get_optirun_choices], [get_vk_icd_choices]) and
      [with_runner_overrides], which merges the module-level [system_options]
      list with the overrides of a runner;
    - [lutris/gui/installerwindow.py]: [InstallerWindow.validate_scripts],
      [InstallerWindow.choose_installer] and
      [InstallerWindow.on_files_confirmed].

    Python dictionaries are finite maps ([gmap]) from field names to values,
    so that equality of the model is Python's [==] on dictionaries; the
    [OrderedDict] of [with_runner_overrides] is an association list, because
    the order of its keys is what the function returns.  Exceptions are the
    [Raise] results of a small error monad. *)

From Stdlib Require Import Ascii String.
From stdpp Require Import gmap strings list fin_maps pretty.

Set Warnings "-register-all".
Open Scope string_scope.

(** ** Python values and exceptions *)

(** The values stored in option descriptors and install scripts. *)
Inductive pyval :=
| VNone
| VBool (b : bool)
| VInt (z : Z)
| VStr (s : string)
| VList (l : list pyval)
| VCallable (name : string).

(** Python's truth value of an object ([bool(v)]). *)
Definition truthy (v : pyval) : bool :=
  match v with
  | VNone => false
  | VBool b => b
  | VInt z => negb (Z.eqb z 0)
  | VStr s => match s with EmptyString => false | _ => true end
  | VList l => match l with [] => false | _ => true end
  | VCallable _ => true
  end.

(** The exceptions the modelled functions raise or let through. *)
Inductive exn :=
| KeyError (key : string)
| UnsupportedKey (field : string)
| InvalidRunner
| PermissionError (msg : string)
| ScriptingError (msg : string)
| OtherError (msg : string).

Inductive result (A : Type) :=
| Ok (a : A)
| Raise (e : exn).
Arguments Ok {A} a.
Arguments Raise {A} e.

#[global] Instance result_ret : MRet result := λ A a, Ok a.
#[global] Instance result_bind : MBind result := λ A B f m,
  match m with
  | Ok a => f a
  | Raise e => Raise e
  end.

(** A [for] loop whose body may raise: the state is threaded through the
    elements from left to right and the first exception ends the loop. *)
Fixpoint for_each {S A : Type} (body : S → A → result S) (l : list A) (s : S)
  : result S :=
  match l with
  | [] => Ok s
  | x :: l' => s' ← body s x; for_each body l' s'
  end.

(** ** Dictionaries *)

(** A Python [dict] with string keys: option descriptors, install scripts. *)
Abbreviation pydict := (gmap string pyval).

(** [bool(d)] for a dictionary: true unless it is empty. *)
Definition dict_truthy (d : pydict) : bool := bool_decide (d ≠ ∅).

(** [d.update(other)], as a value: the fields of [other] replace or extend
    those of [d]. *)
Definition dict_update (d other : pydict) : pydict := other ∪ d.

(** [d[field]] where the value is used as a key of the options dictionary.
    A missing field raises [KeyError].  The descriptor schema makes the
    field a string; other kinds of keys are outside the model and reported
    as [UnsupportedKey]. *)
Definition subscript_key (d : pydict) (field : string) : result string :=
  match d !! field with
  | Some (VStr k) => Ok k
  | Some _ => Raise (UnsupportedKey field)
  | None => Raise (KeyError field)
  end.

(** ** OrderedDict *)

Module OrderedDict.

(** Keys in insertion order, each with its value; keys are unique. *)
Definition t (V : Type) : Type := list (string * V).

Definition keys {V} (od : t V) : list string := od.*1.
Definition values {V} (od : t V) : list V := od.*2.

(** [od.get(key)] *)
Fixpoint get {V} (key : string) (od : t V) : option V :=
  match od with
  | [] => None
  | (k, v) :: od' => if decide (k = key) then Some v else get key od'
  end.

(** [od[key] = value]: an existing key keeps its position, a new key goes
    to the end. *)
Fixpoint set {V} (key : string) (value : V) (od : t V) : t V :=
  match od with
  | [] => [(key, value)]
  | (k, v) :: od' =>
      if decide (k = key) then (k, value) :: od'
      else (k, v) :: set key value od'
  end.

End OrderedDict.

(** ** [with_runner_overrides] *)

(** One item of the generator [(opt["option"], opt) for opt in options]
    entered in the dictionary under construction. *)
Definition index_step (od : OrderedDict.t pydict) (opt : pydict)
  : result (OrderedDict.t pydict) :=
  key ← subscript_key opt "option"; mret (OrderedDict.set key opt od).

(** [OrderedDict((opt["option"], opt) for opt in options)] *)
Definition opts_dict_of (options : list pydict) : result (OrderedDict.t pydict) :=
  for_each index_step options [].

(** The body of the loop over [runner.system_options_override]. *)
Definition override_step (opts_dict : OrderedDict.t pydict) (option : pydict)
  : result (OrderedDict.t pydict) :=
  key ← subscript_key option "option";
  match OrderedDict.get key opts_dict with
  | Some existing =>
      if dict_truthy existing then
        mret (OrderedDict.set key (dict_update existing option) opts_dict)
      else mret (OrderedDict.set key option opts_dict)
  | None => mret (OrderedDict.set key option opts_dict)
  end.

(** The statement [if runner.system_options_override: ...]: an empty list of
    overrides leaves [options] bound to the base list; otherwise the base is
    indexed by key, the overrides are applied in order, and the values of the
    dictionary are the new list. *)
Definition merge_options (options overrides : list pydict)
  : result (list pydict) :=
  match overrides with
  | [] => Ok options
  | _ =>
      opts_dict ← opts_dict_of options;
      opts_dict' ← for_each override_step overrides opts_dict;
      mret (OrderedDict.values opts_dict')
  end.

(** A runner class as [with_runner_overrides] sees it: the class attribute
    [system_options_override] and the value the attribute has on an
    instance of the class. *)
Record runner := {
  class_system_options_override : list pydict;
  instance_system_options_override : list pydict
}.

(** The overrides that are applied: if the class attribute is empty the
    class is instantiated and the instance's attribute is read. *)
Definition runner_overrides (r : runner) : list pydict :=
  match class_system_options_override r with
  | [] => instance_system_options_override r
  | ov => ov
  end.

(** [with_runner_overrides(runner_slug)].  [import_runner] stands for
    [runners.import_runner] and [system_options] for the module-level list;
    an [InvalidRunner] exception returns the base list. *)
Definition with_runner_overrides
    (import_runner : string → result runner)
    (system_options : list pydict) (runner_slug : string)
  : result (list pydict) :=
  match import_runner runner_slug with
  | Raise InvalidRunner => Ok system_options
  | Raise e => Raise e
  | Ok r => merge_options system_options (runner_overrides r)
  end.

(** ** The same function over the object store

    [with_runner_overrides] works on shared, mutable objects: the
    descriptors of [system_options] are entered in [opts_dict] by reference,
    and [update] changes a dictionary in place.  [Store] models that: lists and
    dictionaries are objects at addresses, a monad threads the store, and the
    store survives an exception.  Field values are never changed by the
    modelled code and are kept by value. *)

Module Store.

Abbreviation addr := positive.

Inductive obj :=
| DictObj (d : pydict)
| ListObj (items : list addr).

Abbreviation store := (gmap addr obj).

Definition M (A : Type) : Type := store → store * result A.

#[global] Instance M_ret : MRet M := λ A a σ, (σ, Ok a).
#[global] Instance M_bind : MBind M := λ A B f m σ,
  match m σ with
  | (σ', Ok a) => f a σ'
  | (σ', Raise e) => (σ', Raise e)
  end.

Definition raise {A} (e : exn) : M A := λ σ, (σ, Raise e).
Definition lift {A} (r : result A) : M A := λ σ, (σ, r).

(** A new object, at an address not in use. *)
Definition alloc (o : obj) : M addr :=
  λ σ, let a := fresh (dom σ) in (<[a := o]> σ, Ok a).

Definition read_dict (a : addr) : M pydict := λ σ,
  match σ !! a with
  | Some (DictObj d) => (σ, Ok d)
  | _ => (σ, Raise (OtherError "not a dict"))
  end.

Definition read_list (a : addr) : M (list addr) := λ σ,
  match σ !! a with
  | Some (ListObj l) => (σ, Ok l)
  | _ => (σ, Raise (OtherError "not a list"))
  end.

(** [target.update(other)]: the object at [target] is changed in place. *)
Definition update_in_place (target other : addr) : M unit := λ σ,
  match σ !! target, σ !! other with
  | Some (DictObj d), Some (DictObj o) =>
      (<[target := DictObj (dict_update d o)]> σ, Ok ())
  | _, _ => (σ, Raise (OtherError "not a dict"))
  end.

Fixpoint for_each {S A : Type} (body : S → A → M S) (l : list A) (s : S)
  : M S :=
  match l with
  | [] => mret s
  | x :: l' => s' ← body s x; for_each body l' s'
  end.

(** One item of the generator [(opt["option"], opt) for opt in options]. *)
Definition index_step (od : OrderedDict.t addr) (opt : addr)
  : M (OrderedDict.t addr) :=
  d ← read_dict opt;
  key ← lift (subscript_key d "option");
  mret (OrderedDict.set key opt od).

(** [OrderedDict((opt["option"], opt) for opt in options)] *)
Definition opts_dict_of (options : list addr) : M (OrderedDict.t addr) :=
  for_each index_step options [].

(** The body of the loop over the overrides.  An existing, non-empty
    descriptor is copied, the copy takes its place in [opts_dict], and the
    copy is updated; otherwise the override object itself is entered. *)
Definition override_step (opts_dict : OrderedDict.t addr) (option : addr)
  : M (OrderedDict.t addr) :=
  o ← read_dict option;
  key ← lift (subscript_key o "option");
  match OrderedDict.get key opts_dict with
  | Some a =>
      existing ← read_dict a;
      if dict_truthy existing then
        copy ← alloc (DictObj existing);
        let opts_dict' := OrderedDict.set key copy opts_dict in
        match OrderedDict.get key opts_dict' with
        | Some target =>
            _ ← update_in_place target option; mret opts_dict'
        | None => raise (KeyError key)
        end
      else mret (OrderedDict.set key option opts_dict)
  | None => mret (OrderedDict.set key option opts_dict)
  end.

(** [options] and [overrides] are the addresses of two list objects; the
    result is [options] itself when there is no override and a new list
    object otherwise. *)
Definition merge_options (options overrides : addr) : M addr :=
  ovs ← read_list overrides;
  match ovs with
  | [] => mret options
  | _ =>
      opts ← read_list options;
      opts_dict ← opts_dict_of opts;
      opts_dict' ← for_each override_step ovs opts_dict;
      alloc (ListObj (OrderedDict.values opts_dict'))
  end.

Record runner := {
  class_system_options_override : addr;
  instance_system_options_override : addr
}.

Definition with_runner_overrides
    (import_runner : string → result runner)
    (system_options : addr) (runner_slug : string) : M addr :=
  match import_runner runner_slug with
  | Raise InvalidRunner => mret system_options
  | Raise e => raise e
  | Ok r =>
      cls ← read_list (class_system_options_override r);
      merge_options system_options
        (match cls with
         | [] => instance_system_options_override r
         | _ => class_system_options_override r
         end)
  end.

(** The list of dictionaries a list object stands for in a store. *)
Definition dict_at (σ : store) (a : addr) : option pydict :=
  match σ !! a with
  | Some (DictObj d) => Some d
  | _ => None
  end.

Definition dicts_at (σ : store) (l : list addr) : option (list pydict) :=
  mapM (dict_at σ) l.

Definition view (σ : store) (a : addr) : option (list pydict) :=
  match σ !! a with
  | Some (ListObj l) => dicts_at σ l
  | _ => None
  end.

End Store.

(** ** Strings *)

(** [gettext] with no catalogue installed: a message id is its own
    translation.  Translations are not modelled. *)
Definition gettext (msgid : string) : string := msgid.

(** Python's [sub in s] on strings. *)
Fixpoint contains (sub s : string) : bool :=
  String.prefix sub s
  || match s with
     | EmptyString => false
     | String _ s' => contains sub s'
     end.

(** [bool(s)] for a string. *)
Definition str_truthy (s : string) : bool :=
  match s with
  | EmptyString => false
  | String _ _ => true
  end.

(** [template % arg] for a string argument and a template with one [%s]
    directive, which is the only way the modelled code uses the operator. *)
Fixpoint percent_s (template arg : string) : string :=
  match template with
  | EmptyString => EmptyString
  | String c rest =>
      match c, rest with
      | "%"%char, String "s"%char rest' => arg +:+ rest'
      | _, _ => String c (percent_s rest arg)
      end
  end.

(** The double quote character. *)
Definition dquote : string := String (Ascii.ascii_of_nat 34) EmptyString.

(** ** Bytes and text

    A [str] is modelled by its UTF-8 encoding, so that a [bytes] object and
    the [str] it decodes to are the same [string]; a substring test on text
    is then the substring test on the encodings. *)

(** Whether a byte lies between [lo] and [hi]. *)
Definition byte_in (lo hi : N) (c : ascii) : bool :=
  ((lo <=? N_of_ascii c) && (N_of_ascii c <=? hi))%N.

(** The second byte allowed after the first byte [c0] of a sequence of three
    or four bytes: no overlong form, no surrogate, nothing above U+10FFFF. *)
Definition second_byte (c0 c1 : ascii) : bool :=
  if byte_in 224 224 c0 then byte_in 160 191 c1
  else if byte_in 237 237 c0 then byte_in 128 159 c1
  else if byte_in 240 240 c0 then byte_in 144 191 c1
  else if byte_in 244 244 c0 then byte_in 128 143 c1
  else byte_in 128 191 c1.

(** Whether [b.decode("utf-8")] accepts the bytes (the strict decoder). *)
Fixpoint utf8_valid (b : string) : bool :=
  match b with
  | EmptyString => true
  | String c0 b1 =>
      if byte_in 0 127 c0 then utf8_valid b1
      else
        match b1 with
        | EmptyString => false
        | String c1 b2 =>
            if byte_in 194 223 c0 then byte_in 128 191 c1 && utf8_valid b2
            else
              match b2 with
              | EmptyString => false
              | String c2 b3 =>
                  if byte_in 224 239 c0 then
                    second_byte c0 c1 && byte_in 128 191 c2 && utf8_valid b3
                  else
                    match b3 with
                    | EmptyString => false
                    | String c3 b4 =>
                        byte_in 240 244 c0 && second_byte c0 c1
                        && byte_in 128 191 c2 && byte_in 128 191 c3
                        && utf8_valid b4
                    end
              end
        end
  end.

(** [b.decode("utf-8")] *)
Definition decode_utf8 (b : string) : result string :=
  if utf8_valid b then Ok b else Raise (OtherError "UnicodeDecodeError").

Fixpoint ends_with_sep (s : string) : bool :=
  match s with
  | EmptyString => false
  | String c EmptyString => bool_decide (c = "/"%char)
  | String _ s' => ends_with_sep s'
  end.

(** [os.path.join(a, *p)] of [posixpath]. *)
Definition os_path_join (a : string) (p : list string) : string :=
  fold_left
    (λ path b,
       if String.prefix "/" b then b
       else if negb (str_truthy path) || ends_with_sep path then path +:+ b
       else path +:+ "/" +:+ b)
    p a.

(** [list.insert(i, x)] for an index that is not negative. *)
Definition list_insert_at {A} (i : nat) (x : A) (l : list A) : list A :=
  (take i l ++ x :: drop i l)%list.

(** [l.append(x)], as a value. *)
Definition append {A} (l : list A) (x : A) : list A := (l ++ [x])%list.

(** ** The host, as the choice helpers probe it *)

Record host := {
  (** [DISPLAY_MANAGER.get_resolutions()] *)
  get_resolutions : list string;
  (** [DISPLAY_MANAGER.get_display_names()] *)
  get_display_names : list string;
  (** [system.find_executable(name)]: the path, or [None] when the
      executable is absent *)
  find_executable : string → option string;
  (** [lutris.util.display.USE_DRI_PRIME] *)
  USE_DRI_PRIME : bool;
  (** [glob.glob(pattern)]: the matching paths, none for an absent
      directory *)
  glob_glob : string → list string;
  (** The bytes a shell command writes to its output and error streams:
      [Popen(cmd, shell=True, stdout=PIPE, stderr=STDOUT).communicate()[0]].
      An absent executable shows as the shell's message, not as an exception *)
  shell_output : string → string
}.

(** The truth value of [system.find_executable(name)]. *)
Definition executable_found (h : host) (name : string) : bool :=
  match find_executable h name with
  | Some path => str_truthy path
  | None => false
  end.

Definition choice : Type := string * string.

Definition VULKAN_DATA_DIRS : list string :=
  [ "/usr/local/etc/vulkan";
    "/usr/local/share/vulkan";
    "/etc/vulkan";
    "/usr/share/vulkan";
    "/usr/lib/x86_64-linux-gnu/GL/vulkan";
    "/usr/lib/i386-linux-gnu/GL/vulkan";
    "/opt/amdgpu-pro/etc/vulkan" ].

Definition get_resolution_choices (h : host) : list choice :=
  let resolutions := get_resolutions h in
  let resolution_choices := zip resolutions resolutions in
  list_insert_at 0 (gettext "Keep current", "off") resolution_choices.

Definition get_output_choices (h : host) : list choice :=
  let displays := get_display_names h in
  let output_choices := zip displays displays in
  let output_choices := list_insert_at 0 (gettext "Off", "off") output_choices in
  list_insert_at 1 (gettext "Primary", "primary") output_choices.

Definition get_optirun_choices (h : host) : list choice :=
  let choices := [(gettext "Off", "off")] in
  let choices :=
    if executable_found h "primusrun"
    then append choices ("primusrun", "primusrun") else choices in
  let choices :=
    if executable_found h "optirun"
    then append choices ("optirun/virtualgl", "optirun") else choices in
  let choices :=
    if executable_found h "pvkrun"
    then append choices ("primus vk", "pvkrun") else choices in
  choices.

Definition get_gpu_vendor_cmd (h : host) (is_nvidia : bool) : string :=
  if is_nvidia then
    "__GLX_VENDOR_LIBRARY_NAME=nvidia glxinfo | grep -i opengl | grep -i vendor"
  else if USE_DRI_PRIME h then
    "DRI_PRIME=1 glxinfo | grep -i opengl | grep -i vendor"
  else "glxinfo | grep -i opengl | grep -i vendor".

(** The five lists [get_vk_icd_choices] sorts the loader files into. *)
Record loaders := {
  intel : list string;
  amdradv : list string;
  nvidia : list string;
  amdvlk : list string;
  amdvlkpro : list string
}.

(** The [if]/[elif] chain on one loader path. *)
Definition add_loader (acc : loaders) (loader : string) : loaders :=
  if contains "intel" loader then
    {| intel := append (intel acc) loader; amdradv := amdradv acc;
       nvidia := nvidia acc; amdvlk := amdvlk acc; amdvlkpro := amdvlkpro acc |}
  else if contains "radeon" loader then
    {| intel := intel acc; amdradv := append (amdradv acc) loader;
       nvidia := nvidia acc; amdvlk := amdvlk acc; amdvlkpro := amdvlkpro acc |}
  else if contains "nvidia" loader then
    {| intel := intel acc; amdradv := amdradv acc;
       nvidia := append (nvidia acc) loader; amdvlk := amdvlk acc;
       amdvlkpro := amdvlkpro acc |}
  else if contains "amd" loader then
    if contains "pro" loader then
      {| intel := intel acc; amdradv := amdradv acc; nvidia := nvidia acc;
         amdvlk := amdvlk acc; amdvlkpro := append (amdvlkpro acc) loader |}
    else
      {| intel := intel acc; amdradv := amdradv acc; nvidia := nvidia acc;
         amdvlk := append (amdvlk acc) loader; amdvlkpro := amdvlkpro acc |}
  else acc.

(** The loop over [VULKAN_DATA_DIRS].  ([icd_files] is filled by the source
    and never read; it is left out.) *)
Definition scan_loaders (h : host) : loaders :=
  fold_left
    (λ acc data_dir,
       let path := os_path_join data_dir ["icd.d"; "*.json"] in
       fold_left add_loader (glob_glob h path) acc)
    VULKAN_DATA_DIRS
    {| intel := []; amdradv := []; nvidia := []; amdvlk := []; amdvlkpro := [] |}.

(** [":".join(l)] *)
Definition join_colon (l : list string) : string := String.concat ":" l.

(** The bytes the vendor probe writes: [glxvendorget.communicate()[0]]. *)
Definition glxvendor_output (h : host) : string :=
  let nvidia_files := join_colon (nvidia (scan_loaders h)) in
  shell_output h (get_gpu_vendor_cmd h (str_truthy nvidia_files)).

(** The entry every list of [get_vk_icd_choices] starts from. *)
Definition vk_icd_sentinel : choice :=
  (gettext "Auto: WARNING -- No Vulkan Loader detected!", EmptyString).

Definition get_vk_icd_choices (h : host) : result (list choice) :=
  let choices := [vk_icd_sentinel] in
  let ls := scan_loaders h in
  let intel_files := join_colon (intel ls) in
  let amdradv_files := join_colon (amdradv ls) in
  let nvidia_files := join_colon (nvidia ls) in
  let amdvlk_files := join_colon (amdvlk ls) in
  let amdvlkpro_files := join_colon (amdvlkpro ls) in
  glxvendor ← decode_utf8 (glxvendor_output h);
  let default_gpu := glxvendor in
  let choices :=
    if contains "Intel" default_gpu then
      [(gettext "Auto: Intel Open Source (MESA: ANV)", intel_files)]
    else if contains "AMD" default_gpu then
      [(gettext "Auto: AMD RADV Open Source (MESA: RADV)", amdradv_files)]
    else if contains "NVIDIA" default_gpu then
      [(gettext "Auto: Nvidia Proprietary", nvidia_files)]
    else choices in
  let choices :=
    if str_truthy intel_files
    then append choices ("Intel Open Source (MESA: ANV)", intel_files)
    else choices in
  let choices :=
    if str_truthy amdradv_files
    then append choices ("AMD RADV Open Source (MESA: RADV)", amdradv_files)
    else choices in
  let choices :=
    if str_truthy nvidia_files
    then append choices ("Nvidia Proprietary", nvidia_files)
    else choices in
  let choices :=
    if str_truthy amdvlk_files then
      if negb (str_truthy amdvlkpro_files)
      then append choices ("AMDVLK/AMDGPU-PRO Proprietary", amdvlk_files)
      else append choices ("AMDVLK Open source", amdvlk_files)
    else choices in
  let choices :=
    if str_truthy amdvlkpro_files
    then append choices ("AMDGPU-PRO Proprietary", amdvlkpro_files)
    else choices in
  Ok choices.

(** ** [InstallerWindow] *)

Module InstallerWindow.

(** What the window packs in its [widget_box]. *)
Inductive widget :=
| InstallerPicker (scripts : list pydict)
| OtherWidget (name : string).

(** The part of the window's state the modelled methods read or write.
    The continue button is its sensitivity and the ids of the handlers
    connected to its [clicked] signal. *)
Record window := {
  installers : list pydict;
  title_markup : string;
  status_text : string;
  widget_box : list widget;
  continue_sensitive : bool;
  continue_connected : list nat;
  continue_handler : option nat;
  presented : bool
}.

Definition with_installers (w : window) (l : list pydict) : window :=
  {| installers := l; title_markup := title_markup w;
     status_text := status_text w; widget_box := widget_box w;
     continue_sensitive := continue_sensitive w;
     continue_connected := continue_connected w;
     continue_handler := continue_handler w; presented := presented w |}.

Definition set_title_markup (w : window) (m : string) : window :=
  {| installers := installers w; title_markup := m;
     status_text := status_text w; widget_box := widget_box w;
     continue_sensitive := continue_sensitive w;
     continue_connected := continue_connected w;
     continue_handler := continue_handler w; presented := presented w |}.

(** [self.set_status(text)] *)
Definition set_status (w : window) (text : string) : window :=
  {| installers := installers w; title_markup := title_markup w;
     status_text := text; widget_box := widget_box w;
     continue_sensitive := continue_sensitive w;
     continue_connected := continue_connected w;
     continue_handler := continue_handler w; presented := presented w |}.

(** [self.widget_box.pack_end(widget, ...)] *)
Definition pack_end (w : window) (x : widget) : window :=
  {| installers := installers w; title_markup := title_markup w;
     status_text := status_text w; widget_box := append (widget_box w) x;
     continue_sensitive := continue_sensitive w;
     continue_connected := continue_connected w;
     continue_handler := continue_handler w; presented := presented w |}.

(** [self.continue_button.set_sensitive(b)] *)
Definition set_sensitive (w : window) (b : bool) : window :=
  {| installers := installers w; title_markup := title_markup w;
     status_text := status_text w; widget_box := widget_box w;
     continue_sensitive := b;
     continue_connected := continue_connected w;
     continue_handler := continue_handler w; presented := presented w |}.

(** [self.continue_button.disconnect(handler_id)] *)
Definition disconnect (w : window) (handler_id : nat) : window :=
  {| installers := installers w; title_markup := title_markup w;
     status_text := status_text w; widget_box := widget_box w;
     continue_sensitive := continue_sensitive w;
     continue_connected :=
       filter (λ id, id ≠ handler_id) (continue_connected w);
     continue_handler := continue_handler w; presented := presented w |}.


(** [script.get(item) or ""] *)
Definition get_or_empty (script : pydict) (item : string) : pyval :=
  match script !! item with
  | Some v => if truthy v then v else VStr EmptyString
  | None => VStr EmptyString
  end.

(** The first inner loop of [validate_scripts], on one script. *)
Definition fix_script (script : pydict) : pydict :=
  fold_left (λ sc item, <[item := get_or_empty sc item]> sc)
    ["description"; "notes"] script.

Definition missing_field_message (item : string) : string :=
  percent_s
    (gettext ("Missing field " +:+ dquote +:+ "%s" +:+ dquote
              +:+ " in install script"))
    item.

(** The second inner loop: the first mandatory field that is not in the
    script raises.  (The source logs the script first.) *)
Definition check_script (script : pydict) : result unit :=
  for_each
    (λ _ item,
       match script !! item with
       | None => Raise (ScriptingError (missing_field_message item))
       | Some _ => Ok tt
       end)
    ["name"; "runner"; "version"] tt.

(** The loop over [self.installers]: scripts are changed in place, so the
    ones visited before an exception keep their new fields. *)
Fixpoint validate_loop (scripts : list pydict) : list pydict * result unit :=
  match scripts with
  | [] => ([], Ok tt)
  | script :: rest =>
      let script' := fix_script script in
      match check_script script' with
      | Raise e => (script' :: rest, Raise e)
      | Ok _ =>
          let '(rest', r) := validate_loop rest in (script' :: rest', r)
      end
  end.

Definition validate_scripts (w : window) : window * result unit :=
  match installers w with
  | [] => (w, Raise (ScriptingError "No installer available"))
  | scripts =>
      let '(scripts', r) := validate_loop scripts in
      (with_installers w scripts', r)
  end.

(** [choose_installer]; [gtk_safe] is [lutris.util.strings.gtk_safe]. *)
Definition choose_installer (gtk_safe : pyval → string) (w : window)
  : window * result unit :=
  match validate_scripts w with
  | (w, Raise e) => (w, Raise e)
  | (w, Ok _) =>
      match installers w with
      | [] => (w, Raise (OtherError "IndexError"))
      | base_script :: _ =>
          match base_script !! "name" with
          | None => (w, Raise (KeyError "name"))
          | Some name =>
              let w :=
                set_title_markup w
                  (percent_s (gettext "<b>Install %s</b>") (gtk_safe name)) in
              (pack_end w (InstallerPicker (installers w)), Ok tt)
          end
      end
  end.

(** The window as [__init__] has set it up before it chooses the
    installer: nothing in [widget_box], no handler on the continue button. *)
Definition new_window (scripts : list pydict) : window :=
  {| installers := scripts; title_markup := EmptyString;
     status_text := EmptyString; widget_box := [];
     continue_sensitive := true; continue_connected := [];
     continue_handler := None; presented := false |}.


(** [on_files_confirmed]; [start_all] is how [file_box.start_all()] ends.
    [file_box] is taken not to call back into the window before it
    returns or raises. *)
Definition on_files_confirmed (start_all : result unit) (w : window)
  : window * result unit :=
  let w := set_status w EmptyString in
  let w := set_sensitive w false in
  match start_all with
  | Ok _ =>
      match continue_handler w with
      | Some handler_id => (disconnect w handler_id, Ok tt)
      | None => (w, Raise (OtherError "TypeError"))
      end
  | Raise (PermissionError ex) =>
      let w := set_sensitive w true in
      (w, Raise (ScriptingError
                   (percent_s (gettext "Unable to get files: %s") ex)))
  | Raise e => (w, Raise e)
  end.

End InstallerWindow.

(** ** Notions used to state the properties *)

(** [has_keys l ks]: the descriptors of [l] carry, in order, the keys [ks]
    in their ["option"] field. *)
Definition has_keys (l : list pydict) (ks : list string) : Prop :=
  Forall2 (λ d k, d !! "option" = Some (VStr k)) l ks.

(** The elements of a list in the order of their first occurrence. *)
Fixpoint first_occurrences (l : list string) : list string :=
  match l with
  | [] => []
  | x :: l' => x :: filter (λ y, y ≠ x) (first_occurrences l')
  end.

(** The keys of an override list that are not keys of the base, each once,
    in the order in which the override list introduces them. *)
Definition new_keys (base_keys override_keys : list string) : list string :=
  first_occurrences (filter (λ k, k ∉ base_keys) override_keys).

(** Whether a descriptor carries a key. *)
Definition has_key (key : string) (d : pydict) : bool :=
  match d !! "option" with
  | Some (VStr k) => bool_decide (k = key)
  | _ => false
  end.

(** The descriptor a list holds for a key: the last one carrying it. *)
Definition descriptor_for (key : string) (l : list pydict) : option pydict :=
  last (filter (λ d, has_key key d) l).

(** What a descriptor slot holds after one override: an override for the
    key [key] updates what was there (or stands alone), any other leaves
    it. *)
Definition apply_override (key : string) (cur : option pydict) (o : pydict)
  : option pydict :=
  if has_key key o then Some (dict_update (default ∅ cur) o) else cur.

(** The slot of [key] after all the overrides of a list, in order. *)
Definition overrides_at (key : string) (overrides : list pydict)
    (cur : option pydict) : option pydict :=
  fold_left (apply_override key) overrides cur.

(** The value given to [field] by the last override for [key] that names
    it. *)
Fixpoint last_named (key field : string) (overrides : list pydict)
  : option pyval :=
  match overrides with
  | [] => None
  | o :: overrides' =>
      match last_named key field overrides' with
      | Some v => Some v
      | None => if has_key key o then o !! field else None
      end
  end.

(** [m] has the value of [o] at every field [o] names and the value of [b]
    at every other field. *)
Definition field_by_field (b o m : pydict) : Prop :=
  ∀ f, m !! f = match o !! f with Some v => Some v | None => b !! f end.

(** [script'] is [script] with its [description] and [notes] filled in:
    each of the two fields has the value it had in [script] if that value
    was true, and the empty string otherwise; every other field is as it
    was. *)
Definition filled_in (script script' : pydict) : Prop :=
  ∀ field,
    script' !! field =
    if bool_decide (field = "description" ∨ field = "notes") then
      match script !! field with
      | Some v => Some (if truthy v then v else VStr EmptyString)
      | None => Some (VStr EmptyString)
      end
    else script !! field.

(** A dictionary whose descriptors carry the key they are stored under. *)
Definition keyed (od : OrderedDict.t pydict) : Prop :=
  has_keys (OrderedDict.values od) (OrderedDict.keys od).

(** The ["option"] fields of the entries of [system_options], in the order
    of the source. *)
Definition system_options_keys : list string :=
  [ "game_path"; "disable_runtime"; "prefer_system_libs"; "reset_desktop";
    "gamescope"; "gamescope_output_res"; "gamescope_game_res";
    "single_cpu"; "limit_cpu_count"; "restore_gamma";
    "disable_compositor"; "disable_screen_saver"; "reset_pulse";
    "pulse_latency"; "use_us_layout"; "optimus"; "vk_icd"; "mangohud";
    "fps_limit"; "gamemode"; "prime"; "dri_prime"; "sdl_video_fullscreen";
    "display"; "resolution"; "terminal"; "terminal_app"; "env";
    "antimicro_config"; "prefix_command"; "manual_command";
    "prelaunch_command"; "prelaunch_wait"; "postexit_command";
    "include_processes"; "exclude_processes"; "killswitch";
    "sdl_gamecontrollerconfig"; "xephyr"; "xephyr_resolution";
    "xephyr_fullscreen" ].

(** A descriptor with a key and one more field, and a runner with a class
    level override list, for examples. *)
Definition descriptor (key : string) (v : Z) : pydict :=
  {[ "option" := VStr key; "v" := VInt v ]}.

Definition runner_with (overrides : list pydict) : runner :=
  {| class_system_options_override := overrides;
     instance_system_options_override := [] |}.

(** A host with no display, none of the probed executables and none of the
    Vulkan directories, whose vendor probe prints [probe]. *)
Definition bare_host (probe : string) : host :=
  {| get_resolutions := []; get_display_names := [];
     find_executable := λ _, None; USE_DRI_PRIME := false;
     glob_glob := λ _, []; shell_output := λ _, probe |}.

(** A host with an Intel GPU and the Mesa loader file in [/usr/share]. *)
Definition intel_host : host :=
  {| get_resolutions := ["1920x1080"; "1280x720"];
     get_display_names := ["eDP-1"];
     find_executable := λ _, None; USE_DRI_PRIME := false;
     glob_glob := λ pattern,
       if String.eqb pattern "/usr/share/vulkan/icd.d/*.json"
       then ["/usr/share/vulkan/icd.d/intel_icd.x86_64.json"] else [];
     shell_output := λ _, "OpenGL vendor string: Intel" |}.

(** A computation on the store that leaves every object it finds as it is:
    whatever is at an address before is there after, also when the
    computation raises.  It may add objects. *)
Definition preserves {A} (m : Store.M A) : Prop :=
  ∀ σ, σ ⊆ (m σ).1.

(** A store with the base list [a; b] at address 3 and a runner whose class
    attribute, at address 6, overrides [b] and adds [d]. *)
Definition example_store : Store.store :=
  list_to_map
    [ (1%positive, Store.DictObj (descriptor "a" 1));
      (2%positive, Store.DictObj (descriptor "b" 2));
      (3%positive, Store.ListObj [1%positive; 2%positive]);
      (4%positive, Store.DictObj (descriptor "b" 99));
      (5%positive, Store.DictObj (descriptor "d" 4));
      (6%positive, Store.ListObj [4%positive; 5%positive]);
      (7%positive, Store.ListObj []) ].

Definition example_runner : Store.runner :=
  {| Store.class_system_options_override := 6%positive;
     Store.instance_system_options_override := 7%positive |}.

(** A dictionary of addresses stands, in a store, for the dictionary of the
    descriptors found at these addresses. *)
Definition od_repr (σ : Store.store) (oda : OrderedDict.t Store.addr)
    (odp : OrderedDict.t pydict) : Prop :=
  Forall2 (λ x y, x.1 = y.1 ∧ Store.dict_at σ x.2 = Some y.2) oda odp.

(** The outcome [(σ', r)] of a computation on the store agrees with the
    outcome [p] of its counterpart on values: the same exception, or an
    address whose contents in [σ'] are related to the value by [R]. *)
Definition agrees {A B} (R : Store.store → A → B → Prop)
    (out : Store.store * result A) (p : result B) : Prop :=
  match p with
  | Ok b => ∃ a, out.2 = Ok a ∧ R out.1 a b
  | Raise e => out.2 = Raise e
  end.

(** ** More of [lutris/sysoptions.py] *)

(** [enumerate(l)] *)
Definition enumerate {A} (l : list A) : list (nat * A) := imap pair l.

(** [get_output_list]; [str(index)] is the decimal numeral. *)
Definition get_output_list (h : host) : list choice :=
  let choices := [(gettext "Off", "off")] in
  let displays := get_display_names h in
  fold_left (λ choices '(index, output), append choices (output, pretty index))
    (enumerate displays) choices.

(** The loader files in the order in which [get_vk_icd_choices] meets
    them: directory by directory, as [glob.glob] lists them. *)
Definition all_loaders (h : host) : list string :=
  mjoin ((λ data_dir, glob_glob h (os_path_join data_dir ["icd.d"; "*.json"]))
           <$> VULKAN_DATA_DIRS).

(** [get_vk_icd_choices()[0][1]], the [default] of the [vk_icd] option. *)
Definition vk_icd_default (h : host) : result string :=
  choices ← get_vk_icd_choices h;
  match choices with
  | [] => Raise (OtherError "IndexError")
  | c :: _ => Ok c.2
  end.

(** *** Notions used to state what [get_vk_icd_choices] returns *)

(** Whether the text of the vendor probe names one of the three vendors. *)
Definition vendor_named (h : host) : bool :=
  contains "Intel" (glxvendor_output h) || contains "AMD" (glxvendor_output h)
  || contains "NVIDIA" (glxvendor_output h).

(** The loader files of one driver: the files found, in the order in which
    they are found, whose path the test [is_driver] accepts, joined with
    colons. *)
Definition loader_files (h : host) (is_driver : string → bool) : string :=
  join_colon (filter (λ p, is_driver p) (all_loaders h)).

(** How a loader path is told to belong to a driver: by the first of the
    markers it contains. *)
Definition is_intel (p : string) : bool := contains "intel" p.
Definition is_radv (p : string) : bool :=
  negb (contains "intel" p) && contains "radeon" p.
Definition is_nvidia (p : string) : bool :=
  negb (contains "intel" p) && negb (contains "radeon" p)
  && contains "nvidia" p.
Definition is_amdvlk (p : string) : bool :=
  negb (contains "intel" p) && negb (contains "radeon" p)
  && negb (contains "nvidia" p) && contains "amd" p && negb (contains "pro" p).
Definition is_amdvlkpro (p : string) : bool :=
  negb (contains "intel" p) && negb (contains "radeon" p)
  && negb (contains "nvidia" p) && contains "amd" p && contains "pro" p.

(** The labels of the entries added for the loader files found. *)
Definition vk_icd_loader_labels : list string :=
  [ "Intel Open Source (MESA: ANV)"; "AMD RADV Open Source (MESA: RADV)";
    "Nvidia Proprietary"; "AMDVLK/AMDGPU-PRO Proprietary";
    "AMDVLK Open source"; "AMDGPU-PRO Proprietary" ].

(** The entry [get_vk_icd_choices] puts first: the [Auto] entry of the
    first vendor, of Intel, AMD and NVIDIA, that the probe names, with the
    loader files of its driver, and the sentinel when it names none. *)
Definition vk_icd_auto (h : host) : choice :=
  if contains "Intel" (glxvendor_output h) then
    (gettext "Auto: Intel Open Source (MESA: ANV)", loader_files h is_intel)
  else if contains "AMD" (glxvendor_output h) then
    (gettext "Auto: AMD RADV Open Source (MESA: RADV)",
     loader_files h is_radv)
  else if contains "NVIDIA" (glxvendor_output h) then
    (gettext "Auto: Nvidia Proprietary", loader_files h is_nvidia)
  else vk_icd_sentinel.

(** The entry of a driver: none when it has no loader file. *)
Definition loader_entry (label files : string) : list choice :=
  if str_truthy files then [(label, files)] else [].

(** The entries that follow it: one for each driver that has a loader
    file, in this order, with the files of the driver as its value.  The
    label of the AMDVLK entry depends on whether AMDGPU-PRO has files. *)
Definition vk_icd_loader_entries (h : host) : list choice :=
  (loader_entry "Intel Open Source (MESA: ANV)" (loader_files h is_intel)
   ++ loader_entry "AMD RADV Open Source (MESA: RADV)" (loader_files h is_radv)
   ++ loader_entry "Nvidia Proprietary" (loader_files h is_nvidia)
   ++ loader_entry
        (if str_truthy (loader_files h is_amdvlkpro)
         then "AMDVLK Open source" else "AMDVLK/AMDGPU-PRO Proprietary")
        (loader_files h is_amdvlk)
   ++ loader_entry "AMDGPU-PRO Proprietary" (loader_files h is_amdvlkpro))%list.

(** A host with nothing installed whose shell writes its messages in
    Portuguese and in Latin-1: the probe output, which is the message for
    the missing [glxinfo], holds the byte 227 of the letter a with tilde. *)
Definition latin1_host : host :=
  {| get_resolutions := []; get_display_names := [];
     find_executable := λ _, None; USE_DRI_PRIME := false;
     glob_glob := λ _, [];
     shell_output := λ _,
       "/bin/sh: linha 1: glxinfo: comando n"
       +:+ String (Ascii.ascii_of_nat 227) "o encontrado" |}.

(** ** More of [lutris/gui/installerwindow.py] *)

Module InstallerFlow.

(** [v == s] for a value [v] and a string [s]. *)
Definition eq_str (v : pyval) (s : string) : bool :=
  match v with
  | VStr s' => bool_decide (s' = s)
  | _ => false
  end.

(** The search at the start of [on_installer_selected]: [script] is [None]
    at first and every script whose version is the one asked for takes its
    place, so the last one stays. *)
Definition select_script (scripts : list pydict) (installer_version : string)
  : result (option pydict) :=
  for_each
    (λ script _script,
       match _script !! "version" with
       | None => Raise (KeyError "version")
       | Some v =>
           Ok (if eq_str v installer_version then Some _script else script)
       end)
    scripts None.

(** Whether a script has the version asked for. *)
Definition has_version (installer_version : string) (script : pydict) : bool :=
  match script !! "version" with
  | Some v => eq_str v installer_version
  | None => false
  end.

(** *** The extras picker

    [show_extras] builds a [Gtk.TreeStore] with the columns (selected,
    inconsistent, id, label), typed [bool], [bool], [str], [str]: one row
    per source, and under it one row per extra of that source.  The store is
    its top-level rows in order, each with its children. *)

Record row := {
  selected : bool;
  inconsistent : bool;
  row_id : option string;
  row_label : string
}.

Definition store : Type := list (row * list row).

(** A tree path: a top-level row, or a child of one. *)
Inductive path :=
| HeadingPath (i : nat)
| ExtraPath (i j : nat).

(** [row[0] = b] *)
Definition set_selected (b : bool) (r : row) : row :=
  {| selected := b; inconsistent := inconsistent r; row_id := row_id r;
     row_label := row_label r |}.

(** [toggled_row[0] = not toggled_row[0]; toggled_row[1] = False] *)
Definition toggle (r : row) : row :=
  {| selected := negb (selected r); inconsistent := false;
     row_id := row_id r; row_label := row_label r |}.

(** The body of [for heading_row in model]: the heading is selected when
    no child is unselected and inconsistent when some child is selected. *)
Definition refresh (h : row * list row) : row * list row :=
  ({| selected := forallb selected h.2; inconsistent := existsb selected h.2;
      row_id := row_id h.1; row_label := row_label h.1 |}, h.2).

(** [on_extra_toggled(_widget, path, model)] *)
Definition on_extra_toggled (p : path) (model : store) : result store :=
  match p with
  | HeadingPath i =>
      match model !! i with
      | None => Raise (OtherError "invalid tree path")
      | Some (heading, extras) =>
          let toggled_row := toggle heading in
          match extras with
          | _ :: _ =>
              Ok (<[i := (toggled_row,
                          set_selected (selected toggled_row) <$> extras)]>
                    model)
          | [] => Ok (refresh <$> <[i := (toggled_row, [])]> model)
          end
      end
  | ExtraPath i j =>
      match model !! i with
      | None => Raise (OtherError "invalid tree path")
      | Some (heading, extras) =>
          match extras !! j with
          | None => Raise (OtherError "invalid tree path")
          | Some extra =>
              Ok (refresh <$>
                    <[i := (heading, <[j := toggle extra]> extras)]> model)
          end
      end
  end.

(** [save_extra] of [on_extras_confirmed], on one row. *)
Definition save_extra (r : row) : list string :=
  match row_id r with
  | Some id_ => if selected r && str_truthy id_ then [id_] else []
  | None => []
  end.

(** [selected_extras] after [extra_store.foreach(save_extra)]: every row is
    visited, a parent before its children. *)
Definition selected_extras (model : store) : list string :=
  h ← model; (save_extra h.1 ++ (h.2 ≫= save_extra))%list.

(** *** Cancelling and closing *)

(** What [confirm_cancel] and [on_destroy] read of the interpreter. *)
Record interpreter := {
  target_path : option string;
  game_dir_created : bool
}.

Record session := {
  install_in_progress : bool;
  the_interpreter : option interpreter;
  cancel_files_func : bool
}.

(** The user before the question dialog: the answer, and the state in which
    the "Remove game files" box is left, given the state it is shown in. *)
Record user := {
  answers_yes : bool;
  leaves_checkbox : bool → bool
}.

(** The calls made on the collaborators and on the window. *)
Inductive effect :=
| CancelFiles
| Revert (remove_game_dir : bool)
| Cleanup
| Destroy.

(** Whether the check box is put in the dialog. *)
Definition checkbox_offered (is_removeable : string → bool) (s : session)
  : bool :=
  match the_interpreter s with
  | Some it =>
      match target_path it with
      | Some p => str_truthy p && is_removeable p
      | None => false
      end
  | None => false
  end.

(** [confirm_cancel]: the calls it makes, and whether it returns [True]
    (it returns [None] otherwise).  A check box that is not in the dialog
    stays inactive. *)
Definition confirm_cancel (is_removeable : string → bool) (u : user)
    (s : session) : list effect * bool :=
  let active :=
    match the_interpreter s with
    | Some it =>
        if checkbox_offered is_removeable s
        then leaves_checkbox u (game_dir_created it) else false
    | None => false
    end in
  if negb (answers_yes u) then ([], true)
  else
    ((if cancel_files_func s then [CancelFiles] else [])
     ++ match the_interpreter s with
        | Some _ => [Revert active; Cleanup]
        | None => []
        end
     ++ [Destroy], false)%list.

(** [on_destroy] *)
Definition on_destroy (is_removeable : string → bool) (u : user)
    (s : session) : list effect * bool :=
  if install_in_progress s then
    let '(effects, r) := confirm_cancel is_removeable u s in
    if r then (effects, true) else (effects, false)
  else
    ((match the_interpreter s with Some _ => [Cleanup] | None => [] end)
     ++ [Destroy], false)%list.

(** *** The end of the installation *)

Record finish := {
  config : pydict;
  in_progress : bool;
  widgets : list string;
  eject_visible : bool;
  cancel_visible : bool;
  continue_visible : bool;
  install_visible : bool;
  play_visible : bool;
  close_visible : bool;
  urgency_hint : bool
}.

(** The calls of [on_install_finished] on its collaborators. *)
Inductive finish_call :=
| CreateLauncher (desktop : bool)
| SteamShortcut
| GameSave.

(** [self.config.get(key)] as a condition. *)
Definition config_set (w : finish) (key : string) : bool :=
  match config w !! key with
  | Some v => truthy v
  | None => false
  end.

(** [on_install_finished(game_id)].  [game_has_id] is the truth value of
    [game and game.id] for [game = Game(game_id)], and [is_active] that of
    [self.is_active()].  The name [game] is bound only when [game_id] is
    true, and it is read after the buttons are hidden: with a false
    [game_id] that read raises [UnboundLocalError].  Keyboard focus is not
    modelled. *)
Definition on_install_finished (game_has_id is_active : bool)
    (game_id : pyval) (w : finish) : finish * list finish_call * result unit :=
  let calls :=
    ((if config_set w "create_desktop_shortcut"
      then [CreateLauncher true] else [])
     ++ (if config_set w "create_menu_shortcut"
         then [CreateLauncher false] else [])
     ++ (if truthy game_id
         then (if config_set w "create_steam_shortcut"
               then [SteamShortcut] else []) ++ [GameSave]
         else []))%list in
  let hidden :=
    {| config := config w; in_progress := false; widgets := [];
       eject_visible := false; cancel_visible := false;
       continue_visible := false; install_visible := false;
       play_visible := play_visible w; close_visible := close_visible w;
       urgency_hint := urgency_hint w |} in
  if truthy game_id then
    ({| config := config w; in_progress := false; widgets := [];
        eject_visible := false; cancel_visible := false;
        continue_visible := false; install_visible := false;
        play_visible := if game_has_id then true else play_visible w;
        close_visible := true;
        urgency_hint := if is_active then urgency_hint w else true |},
     calls, Ok tt)
  else (hidden, calls, Raise (OtherError "UnboundLocalError")).

(** *** The files screen and the continue button *)

(** [self.clean_widgets()]: the children of [widget_box] are destroyed. *)
Definition clean_widgets (w : InstallerWindow.window) : InstallerWindow.window :=
  {| InstallerWindow.installers := InstallerWindow.installers w;
     InstallerWindow.title_markup := InstallerWindow.title_markup w;
     InstallerWindow.status_text := InstallerWindow.status_text w;
     InstallerWindow.widget_box := [];
     InstallerWindow.continue_sensitive := InstallerWindow.continue_sensitive w;
     InstallerWindow.continue_connected := InstallerWindow.continue_connected w;
     InstallerWindow.continue_handler := InstallerWindow.continue_handler w;
     InstallerWindow.presented := InstallerWindow.presented w |}.

(** [if self.continue_handler: self.continue_button.disconnect(self.continue_handler)];
    a handler id is true when it is not zero. *)
Definition disconnect_stored (w : InstallerWindow.window)
  : InstallerWindow.window :=
  match InstallerWindow.continue_handler w with
  | Some handler_id =>
      if bool_decide (handler_id = 0) then w
      else InstallerWindow.disconnect w handler_id
  | None => w
  end.

(** [self.continue_handler = self.continue_button.connect("clicked", ...)],
    where the toolkit hands out [handler_id]. *)
Definition connect (w : InstallerWindow.window) (handler_id : nat)
  : InstallerWindow.window :=
  {| InstallerWindow.installers := InstallerWindow.installers w;
     InstallerWindow.title_markup := InstallerWindow.title_markup w;
     InstallerWindow.status_text := InstallerWindow.status_text w;
     InstallerWindow.widget_box := InstallerWindow.widget_box w;
     InstallerWindow.continue_sensitive := InstallerWindow.continue_sensitive w;
     InstallerWindow.continue_connected :=
       append (InstallerWindow.continue_connected w) handler_id;
     InstallerWindow.continue_handler := Some handler_id;
     InstallerWindow.presented := InstallerWindow.presented w |}.

(** The window with what the files screen adds to its state: whether the
    continue button is shown and whether [_cancel_files_func] is set. *)
Record screen := {
  window : InstallerWindow.window;
  continue_shown : bool;
  cancel_files_set : bool
}.

(** [show_installer_files_screen]; [is_ready] is
    [installer_files_box.is_ready] and [handler_id] the id of the new
    connection. *)
Definition show_installer_files_screen (is_ready : bool) (handler_id : nat)
    (s : screen) : screen :=
  let w := clean_widgets (window s) in
  let w :=
    InstallerWindow.set_status w
      (gettext "Please review the files needed for the installation then click 'Continue'") in
  let w := InstallerWindow.pack_end w (InstallerWindow.OtherWidget "InstallerFilesBox") in
  let w := InstallerWindow.set_sensitive w is_ready in
  let w := disconnect_stored w in
  let w := connect w handler_id in
  {| window := w; continue_shown := true; cancel_files_set := true |}.

(** [on_files_ready(_widget, files_ready)] *)
Definition on_files_ready (files_ready : bool) (s : screen) : screen :=
  {| window := InstallerWindow.set_sensitive (window s) files_ready;
     continue_shown := continue_shown s;
     cancel_files_set := cancel_files_set s |}.

(** The continue button has no handler but the one [continue_handler]
    names. *)
Definition one_handler (w : InstallerWindow.window) : Prop :=
  ∀ handler_id, handler_id ∈ InstallerWindow.continue_connected w →
                InstallerWindow.continue_handler w = Some handler_id ∧
                handler_id ≠ 0.

End InstallerFlow.


(** * Properties *)

(** ** The error monad *)

Lemma result_bind_ok {A B} (f : A → result B) (m : result A) (b : B) :
  m ≫= f = Ok b ↔ ∃ a, m = Ok a ∧ f a = Ok b.
Proof.
  destruct m as [a|e]; simpl.
  - split; [eauto | intros (a' & [= <-] & ?); done].
  - split; [done | intros (a' & ? & ?); done].
Qed.

Lemma for_each_app {S A} (body : S → A → result S) (l1 l2 : list A) (s : S) :
  for_each body (l1 ++ l2)%list s = for_each body l1 s ≫= for_each body l2.
Proof.
  revert s. induction l1 as [|x l1 IH]; intros s; simpl; [done|].
  destruct (body s x) as [s'|e]; simpl; [apply IH | done].
Qed.

(** ** OrderedDict *)

Section ordered_dict.
Context {V : Type}.
Implicit Types (od : OrderedDict.t V) (k : string) (v : V).

Lemma od_keys_set k v od :
  OrderedDict.keys (OrderedDict.set k v od) =
  if decide (k ∈ OrderedDict.keys od) then OrderedDict.keys od
  else (OrderedDict.keys od ++ [k])%list.
Proof.
  unfold OrderedDict.keys.
  induction od as [|[k' v'] od IH].
  - case_decide as Hin; [by apply elem_of_nil in Hin | done].
  - cbn [OrderedDict.set]. destruct (decide (k' = k)) as [->|Hne].
    + rewrite decide_True; [done | apply list_elem_of_here].
    + rewrite fmap_cons, IH. cbn [fst fmap list_fmap].
      destruct (decide (k ∈ od.*1)) as [Hin|Hnin].
      * rewrite decide_True; [done | by apply list_elem_of_further].
      * rewrite decide_False; [done|].
        intros [?|?]%elem_of_cons; congruence.
Qed.

Lemma od_get_set k k' v od :
  OrderedDict.get k' (OrderedDict.set k v od) =
  if decide (k = k') then Some v else OrderedDict.get k' od.
Proof.
  induction od as [|[k0 v0] od IH]; simpl.
  - destruct (decide (k = k')); done.
  - destruct (decide (k0 = k)) as [->|Hne]; simpl.
    + destruct (decide (k = k')); done.
    + destruct (decide (k0 = k')) as [->|Hne'].
      * rewrite decide_False; [done | congruence].
      * apply IH.
Qed.

Lemma od_get_None k od :
  OrderedDict.get k od = None ↔ k ∉ OrderedDict.keys od.
Proof.
  unfold OrderedDict.keys.
  induction od as [|[k0 v0] od IH]; simpl.
  - split; [intros _; apply not_elem_of_nil | done].
  - rewrite not_elem_of_cons. destruct (decide (k0 = k)) as [->|Hne].
    + split; [done | intros [? _]; done].
    + rewrite IH. split; [intros ?; split; [congruence|done] | intros [_ ?]; done].
Qed.

Lemma od_keys_set_NoDup k v od :
  NoDup (OrderedDict.keys od) → NoDup (OrderedDict.keys (OrderedDict.set k v od)).
Proof.
  intros Hnd. rewrite od_keys_set. case_decide; [done|].
  apply NoDup_app. split_and!; [done | | apply NoDup_singleton].
  intros x Hx ->%list_elem_of_singleton. done.
Qed.

(** Two dictionaries with the same keys in the same order and the same
    value at each key are the same. *)
Lemma od_ext od1 od2 :
  NoDup (OrderedDict.keys od1) →
  OrderedDict.keys od1 = OrderedDict.keys od2 →
  (∀ k, OrderedDict.get k od1 = OrderedDict.get k od2) →
  od1 = od2.
Proof.
  unfold OrderedDict.keys.
  revert od2. induction od1 as [|[k1 v1] od1 IH]; intros [|[k2 v2] od2]; simpl; try done.
  intros Hnd [= <- Hks] Hget. apply NoDup_cons in Hnd as [Hnin Hnd].
  pose proof (Hget k1) as H1. simpl in H1. rewrite !decide_True in H1 by done.
  injection H1 as <-. f_equal. apply IH; [done..|].
  intros k. specialize (Hget k). simpl in Hget.
  destruct (decide (k1 = k)) as [<-|Hne]; [|done].
  transitivity (@None V); [|symmetry];
    apply od_get_None; unfold OrderedDict.keys; [done | by rewrite Hks in Hnin].
Qed.

End ordered_dict.

(** ** Lists of keys *)

Lemma first_occurrences_filter (P : string → Prop) `{!∀ x, Decision (P x)} l :
  filter P (first_occurrences l) = first_occurrences (filter P l).
Proof.
  induction l as [|x l IH]; [done|]. cbn [first_occurrences].
  rewrite (filter_cons P x l). destruct (decide (P x)) as [HP|HP].
  - rewrite filter_cons_True by done. cbn [first_occurrences]. f_equal.
    rewrite <-IH, !list_filter_filter. apply list_filter_iff. tauto.
  - rewrite filter_cons_False by done. rewrite <-IH, list_filter_filter.
    apply list_filter_iff. intros y. split; [tauto|].
    intros Hy. split; [done | congruence].
Qed.

Lemma first_occurrences_elem_of x l : x ∈ first_occurrences l ↔ x ∈ l.
Proof.
  induction l as [|y l IH]; [done|]. cbn [first_occurrences].
  rewrite !elem_of_cons, list_elem_of_filter, IH.
  destruct (decide (x = y)); tauto.
Qed.

Lemma first_occurrences_NoDup l : NoDup (first_occurrences l).
Proof.
  induction l as [|y l IH]; [constructor|]. cbn [first_occurrences].
  apply NoDup_cons. split; [|by apply NoDup_filter].
  rewrite list_elem_of_filter. tauto.
Qed.

Lemma first_occurrences_id l : NoDup l → first_occurrences l = l.
Proof.
  induction 1 as [|x l Hx Hnd IH]; [done|]. cbn [first_occurrences].
  rewrite IH. f_equal. clear IH Hnd.
  induction l as [|y l IH]; [done|].
  apply not_elem_of_cons in Hx as [Hne Hx].
  rewrite filter_cons_True by congruence. f_equal. by apply IH.
Qed.

Lemma new_keys_nil ks : new_keys ks [] = [].
Proof. done. Qed.

Lemma new_keys_cons ks k oks :
  new_keys ks (k :: oks) =
  if decide (k ∈ ks) then new_keys ks oks
  else k :: new_keys (ks ++ [k])%list oks.
Proof.
  unfold new_keys. destruct (decide (k ∈ ks)) as [Hin|Hnin].
  - rewrite filter_cons_False; [done | tauto].
  - rewrite filter_cons_True by done. cbn [first_occurrences]. f_equal.
    rewrite first_occurrences_filter, list_filter_filter. f_equal.
    apply list_filter_iff. intros y. rewrite elem_of_app, list_elem_of_singleton.
    tauto.
Qed.

Lemma new_keys_subseteq ks oks : oks ⊆ ks → new_keys ks oks = [].
Proof.
  intros Hsub. unfold new_keys.
  replace (filter (λ k, k ∉ ks) oks) with (@nil string); [done|].
  symmetry. induction oks as [|k oks IH]; [done|].
  rewrite filter_cons_False.
  - apply IH. intros x Hx. apply Hsub. by apply list_elem_of_further.
  - intros Hk. apply Hk, Hsub, list_elem_of_here.
Qed.

(** Overrides with distinct keys, none of them a key of the base, introduce
    their keys as they come. *)
Lemma new_keys_distinct ks oks :
  NoDup oks → (∀ k, k ∈ oks → k ∉ ks) → new_keys ks oks = oks.
Proof.
  intros Hnd Hnew. unfold new_keys.
  replace (filter (λ k, k ∉ ks) oks) with oks; [by apply first_occurrences_id|].
  clear Hnd. induction oks as [|k oks IH]; [done|].
  rewrite filter_cons_True by apply Hnew, list_elem_of_here.
  f_equal. apply IH. intros k' Hk'. by apply Hnew, list_elem_of_further.
Qed.

Lemma new_keys_length ks oks :
  length (new_keys ks oks) =
  size (list_to_set oks ∖ list_to_set ks : gset string).
Proof.
  unfold new_keys.
  rewrite <-(size_list_to_set (C:=gset string)) by apply first_occurrences_NoDup.
  f_equal. apply set_eq. intros x.
  rewrite elem_of_list_to_set, first_occurrences_elem_of, list_elem_of_filter.
  rewrite elem_of_difference, !elem_of_list_to_set. tauto.
Qed.

(** ** Keys of descriptors *)

Lemma subscript_key_Ok d k :
  subscript_key d "option" = Ok k ↔ d !! "option" = Some (VStr k).
Proof.
  unfold subscript_key. destruct (d !! "option") as [[]|]; naive_solver.
Qed.

Lemma has_key_eq k k' d :
  d !! "option" = Some (VStr k') → has_key k d = bool_decide (k' = k).
Proof. unfold has_key. by intros ->. Qed.

Lemma dict_update_lookup d o f :
  dict_update d o !! f = match o !! f with Some v => Some v | None => d !! f end.
Proof.
  unfold dict_update. rewrite lookup_union. by destruct (o !! f), (d !! f).
Qed.

Lemma dict_update_empty o : dict_update ∅ o = o.
Proof. unfold dict_update. apply (right_id_L ∅ (∪)). Qed.

Lemma has_keys_length l ks : has_keys l ks → length l = length ks.
Proof. apply Forall2_length. Qed.

(** ** The loops of [with_runner_overrides] *)

Lemma override_step_ok od o k :
  o !! "option" = Some (VStr k) →
  override_step od o =
  Ok (OrderedDict.set k (dict_update (default ∅ (OrderedDict.get k od)) o) od).
Proof.
  intros Hk. unfold override_step.
  apply subscript_key_Ok in Hk as ->. simpl.
  destruct (OrderedDict.get k od) as [existing|]; simpl.
  - unfold dict_truthy. case_bool_decide as Hne; [done|].
    subst existing. by rewrite dict_update_empty.
  - by rewrite dict_update_empty.
Qed.

Lemma override_step_inv od o od' :
  override_step od o = Ok od' →
  ∃ k, o !! "option" = Some (VStr k) ∧
       od' = OrderedDict.set k
               (dict_update (default ∅ (OrderedDict.get k od)) o) od.
Proof.
  intros Hstep.
  destruct (subscript_key o "option") as [k|e] eqn:Hk.
  - apply subscript_key_Ok in Hk. exists k. split; [done|].
    rewrite (override_step_ok _ _ _ Hk) in Hstep. congruence.
  - unfold override_step in Hstep. by rewrite Hk in Hstep.
Qed.

Lemma override_loop_has_keys ovs od od' :
  for_each override_step ovs od = Ok od' → ∃ oks, has_keys ovs oks.
Proof.
  revert od. induction ovs as [|o ovs IH]; intros od Hloop.
  - exists []. constructor.
  - simpl in Hloop. apply result_bind_ok in Hloop as (od1 & Hstep & Hloop).
    apply override_step_inv in Hstep as (k & Hk & _).
    destruct (IH _ Hloop) as [oks Hoks]. exists (k :: oks). by constructor.
Qed.

Lemma override_loop_ok ovs oks od :
  has_keys ovs oks → ∃ od', for_each override_step ovs od = Ok od'.
Proof.
  intros Hks. revert od. induction Hks as [|o k ovs oks Hk _ IH]; intros od.
  - by exists od.
  - simpl. rewrite (override_step_ok _ _ _ Hk). simpl. apply IH.
Qed.

Lemma override_loop_keys ovs oks od od' :
  has_keys ovs oks →
  for_each override_step ovs od = Ok od' →
  OrderedDict.keys od' =
  (OrderedDict.keys od ++ new_keys (OrderedDict.keys od) oks)%list.
Proof.
  intros Hks. revert od. induction Hks as [|o k ovs oks Hk _ IH]; intros od Hloop.
  - simpl in Hloop. injection Hloop as <-. by rewrite new_keys_nil, app_nil_r.
  - simpl in Hloop. rewrite (override_step_ok _ _ _ Hk) in Hloop. simpl in Hloop.
    rewrite (IH _ Hloop), od_keys_set, new_keys_cons.
    destruct (decide (k ∈ OrderedDict.keys od)); [done|].
    by rewrite <-app_assoc.
Qed.

Lemma override_loop_get ovs od od' k :
  for_each override_step ovs od = Ok od' →
  OrderedDict.get k od' = overrides_at k ovs (OrderedDict.get k od).
Proof.
  revert od. induction ovs as [|o ovs IH]; intros od Hloop.
  - simpl in Hloop. by injection Hloop as <-.
  - simpl in Hloop. apply result_bind_ok in Hloop as (od1 & Hstep & Hloop).
    apply override_step_inv in Hstep as (k' & Hk' & ->).
    rewrite (IH _ Hloop), od_get_set. cbn [overrides_at fold_left].
    f_equal. unfold apply_override. rewrite (has_key_eq _ _ _ Hk').
    destruct (decide (k' = k)) as [->|Hne].
    + by rewrite bool_decide_true.
    + by rewrite bool_decide_false.
Qed.

Lemma override_loop_NoDup ovs od od' :
  for_each override_step ovs od = Ok od' →
  NoDup (OrderedDict.keys od) → NoDup (OrderedDict.keys od').
Proof.
  revert od. induction ovs as [|o ovs IH]; intros od Hloop Hnd.
  - simpl in Hloop. by injection Hloop as <-.
  - simpl in Hloop. apply result_bind_ok in Hloop as (od1 & Hstep & Hloop).
    apply override_step_inv in Hstep as (k' & Hk' & ->).
    apply (IH _ Hloop). by apply od_keys_set_NoDup.
Qed.

Lemma keyed_set od k v :
  keyed od → v !! "option" = Some (VStr k) → keyed (OrderedDict.set k v od).
Proof.
  unfold keyed, has_keys, OrderedDict.values, OrderedDict.keys.
  intros Hod Hv. induction od as [|[k0 v0] od IH].
  - cbn. by repeat constructor.
  - cbn [OrderedDict.set]. rewrite !fmap_cons in Hod.
    apply Forall2_cons in Hod as [Hv0 Hod].
    destruct (decide (k0 = k)) as [->|Hne]; rewrite !fmap_cons;
      apply Forall2_cons; auto.
Qed.

Lemma override_loop_keyed ovs od od' :
  for_each override_step ovs od = Ok od' → keyed od → keyed od'.
Proof.
  revert od. induction ovs as [|o ovs IH]; intros od Hloop Hod.
  - simpl in Hloop. by injection Hloop as <-.
  - simpl in Hloop. apply result_bind_ok in Hloop as (od1 & Hstep & Hloop).
    apply override_step_inv in Hstep as (k' & Hk' & ->).
    apply (IH _ Hloop). apply keyed_set; [done|].
    by rewrite dict_update_lookup, Hk'.
Qed.

Lemma index_step_ok od opt k :
  opt !! "option" = Some (VStr k) →
  index_step od opt = Ok (OrderedDict.set k opt od).
Proof. intros Hk. unfold index_step. by apply subscript_key_Ok in Hk as ->. Qed.

Lemma index_step_inv od opt od' :
  index_step od opt = Ok od' →
  ∃ k, opt !! "option" = Some (VStr k) ∧ od' = OrderedDict.set k opt od.
Proof.
  unfold index_step. intros (k & Hk & [= <-])%result_bind_ok.
  exists k. by apply subscript_key_Ok in Hk.
Qed.

Lemma index_loop_ok l ks od :
  has_keys l ks → ∃ od', for_each index_step l od = Ok od'.
Proof.
  intros Hks. revert od. induction Hks as [|d k l ks Hk _ IH]; intros od.
  - by exists od.
  - simpl. rewrite (index_step_ok _ _ _ Hk). simpl. apply IH.
Qed.

Lemma index_loop_invariant l od od' :
  for_each index_step l od = Ok od' →
  keyed od → NoDup (OrderedDict.keys od) →
  keyed od' ∧ NoDup (OrderedDict.keys od').
Proof.
  revert od. induction l as [|d l IH]; intros od Hloop Hod Hnd.
  - simpl in Hloop. by injection Hloop as <-.
  - simpl in Hloop. apply result_bind_ok in Hloop as (od1 & Hstep & Hloop).
    apply index_step_inv in Hstep as (k & Hk & ->).
    apply (IH _ Hloop); [by apply keyed_set | by apply od_keys_set_NoDup].
Qed.

Lemma od_set_fresh {V} k (v : V) od :
  k ∉ OrderedDict.keys od → OrderedDict.set k v od = (od ++ [(k, v)])%list.
Proof.
  unfold OrderedDict.keys. induction od as [|[k0 v0] od IH]; [done|].
  rewrite fmap_cons, not_elem_of_cons. intros [Hne Hnin].
  cbn [OrderedDict.set]. rewrite decide_False by done.
  by rewrite IH.
Qed.

(** With distinct keys the dictionary is the list itself, key by key. *)
Lemma index_loop_zip l ks od :
  has_keys l ks → NoDup ks → (∀ k, k ∈ ks → k ∉ OrderedDict.keys od) →
  for_each index_step l od = Ok (od ++ zip ks l)%list.
Proof.
  intros Hks. revert od.
  induction Hks as [|d k l ks Hk _ IH]; intros od Hnd Hfresh.
  - by rewrite app_nil_r.
  - apply NoDup_cons in Hnd as [Hk' Hnd].
    simpl. rewrite (index_step_ok _ _ _ Hk). simpl.
    rewrite od_set_fresh by (apply Hfresh, list_elem_of_here).
    rewrite IH; [by rewrite <-app_assoc | done |].
    intros k0 Hk0. unfold OrderedDict.keys.
    rewrite fmap_app. intros [Hin|Hin]%elem_of_app.
    + by apply (Hfresh k0); [apply list_elem_of_further|].
    + apply list_elem_of_singleton in Hin as ->. done.
Qed.

Lemma opts_dict_of_NoDup l ks :
  has_keys l ks → NoDup ks → opts_dict_of l = Ok (zip ks l).
Proof.
  intros Hks Hnd. unfold opts_dict_of.
  rewrite (index_loop_zip l ks []); [done..|].
  intros k _. apply not_elem_of_nil.
Qed.

Lemma opts_dict_of_values od :
  keyed od → NoDup (OrderedDict.keys od) →
  opts_dict_of (OrderedDict.values od) = Ok od.
Proof.
  intros Hod Hnd. rewrite (opts_dict_of_NoDup _ _ Hod Hnd).
  unfold OrderedDict.keys, OrderedDict.values. by rewrite zip_fst_snd.
Qed.

Lemma opts_dict_of_invariant l od :
  opts_dict_of l = Ok od → keyed od ∧ NoDup (OrderedDict.keys od).
Proof.
  intros Hl. apply (index_loop_invariant _ _ _ Hl); constructor.
Qed.

Lemma descriptor_for_snoc k l d :
  descriptor_for k (l ++ [d])%list =
  if has_key k d then Some d else descriptor_for k l.
Proof.
  unfold descriptor_for. rewrite filter_app.
  destruct (has_key k d) eqn:Hd.
  - rewrite filter_cons_True by (by rewrite Hd). apply last_snoc.
  - rewrite filter_cons_False by (rewrite Hd; exact id).
    by rewrite filter_nil, app_nil_r.
Qed.

Lemma index_loop_get l od od' k :
  for_each index_step l od = Ok od' →
  OrderedDict.get k od' =
  match descriptor_for k l with
  | Some d => Some d
  | None => OrderedDict.get k od
  end.
Proof.
  revert od'. induction l as [|d l IH] using rev_ind; intros od' Hloop.
  - simpl in Hloop. by injection Hloop as <-.
  - rewrite for_each_app in Hloop.
    apply result_bind_ok in Hloop as (od1 & Hl & Hstep).
    simpl in Hstep. apply result_bind_ok in Hstep as (od2 & Hstep & [= <-]).
    apply index_step_inv in Hstep as (k' & Hk' & ->).
    rewrite od_get_set, descriptor_for_snoc, (has_key_eq _ _ _ Hk').
    destruct (decide (k' = k)) as [->|Hne].
    + by rewrite bool_decide_true.
    + rewrite bool_decide_false by done. by apply IH.
Qed.

Lemma opts_dict_of_get l od k :
  opts_dict_of l = Ok od → OrderedDict.get k od = descriptor_for k l.
Proof.
  intros Hl. rewrite (index_loop_get _ _ _ k Hl).
  by destruct (descriptor_for k l).
Qed.

(** In a list with distinct keys the descriptor for a key is the one stored
    under it. *)
Lemma descriptor_for_values od k :
  keyed od → NoDup (OrderedDict.keys od) →
  descriptor_for k (OrderedDict.values od) = OrderedDict.get k od.
Proof.
  intros Hod Hnd. symmetry. apply opts_dict_of_get.
  by apply opts_dict_of_values.
Qed.

(** ** Overrides applied twice *)

Lemma overrides_at_cons k o ovs cur :
  overrides_at k (o :: ovs) cur = overrides_at k ovs (apply_override k cur o).
Proof. done. Qed.

Lemma overrides_at_lookup k f ovs cur :
  default ∅ (overrides_at k ovs cur) !! f =
  match last_named k f ovs with
  | Some v => Some v
  | None => default ∅ cur !! f
  end.
Proof.
  revert cur. induction ovs as [|o ovs IH]; intros cur; [done|].
  rewrite overrides_at_cons, IH. cbn [last_named].
  destruct (last_named k f ovs) as [v|]; [done|].
  unfold apply_override. destruct (has_key k o); [|done].
  apply dict_update_lookup.
Qed.

Lemma overrides_at_untouched k ovs cur :
  existsb (has_key k) ovs = false → overrides_at k ovs cur = cur.
Proof.
  revert cur. induction ovs as [|o ovs IH]; intros cur; [done|].
  cbn [existsb]. intros [Ho Hovs]%orb_false_elim.
  rewrite overrides_at_cons, IH by done. unfold apply_override. by rewrite Ho.
Qed.

Lemma overrides_at_is_Some k ovs cur :
  is_Some cur ∨ existsb (has_key k) ovs = true →
  is_Some (overrides_at k ovs cur).
Proof.
  revert cur. induction ovs as [|o ovs IH]; intros cur.
  - intros [?|?]; done.
  - rewrite overrides_at_cons. cbn [existsb]. intros Hcur. apply IH.
    unfold apply_override. destruct (has_key k o); [by left|].
    destruct Hcur as [?|?]; [by left | by right].
Qed.

Lemma overrides_at_idem k ovs cur :
  overrides_at k ovs (overrides_at k ovs cur) = overrides_at k ovs cur.
Proof.
  destruct (existsb (has_key k) ovs) eqn:Hex.
  - destruct (overrides_at_is_Some k ovs cur) as [d Hd]; [by right|].
    destruct (overrides_at_is_Some k ovs (Some d)) as [d' Hd']; [by right|].
    rewrite Hd, Hd'. f_equal. apply map_eq. intros f.
    pose proof (overrides_at_lookup k f ovs (Some d)) as H2.
    pose proof (overrides_at_lookup k f ovs cur) as H1.
    rewrite Hd' in H2. rewrite Hd in H1. simpl in H1, H2.
    rewrite H2. by destruct (last_named k f ovs).
  - by rewrite !overrides_at_untouched.
Qed.

Lemma new_keys_cover ks oks k : k ∈ oks → k ∈ (ks ++ new_keys ks oks)%list.
Proof.
  intros Hk. rewrite elem_of_app. unfold new_keys.
  rewrite first_occurrences_elem_of, list_elem_of_filter.
  destruct (decide (k ∈ ks)); tauto.
Qed.

(** Running the override loop again on its own result changes nothing. *)
Lemma override_loop_idem ovs od od' :
  for_each override_step ovs od = Ok od' →
  NoDup (OrderedDict.keys od) →
  for_each override_step ovs od' = Ok od'.
Proof.
  intros Hloop Hnd.
  destruct (override_loop_has_keys _ _ _ Hloop) as [oks Hoks].
  destruct (override_loop_ok ovs oks od' Hoks) as [od'' Hloop'].
  rewrite Hloop'. f_equal.
  pose proof (override_loop_keys _ _ _ _ Hoks Hloop) as Hkeys.
  pose proof (override_loop_keys _ _ _ _ Hoks Hloop') as Hkeys'.
  rewrite new_keys_subseteq, app_nil_r in Hkeys'.
  2:{ intros k Hk. rewrite Hkeys. by apply new_keys_cover. }
  apply od_ext; [|done|].
  - rewrite Hkeys'. by apply (override_loop_NoDup _ _ _ Hloop).
  - intros k. rewrite (override_loop_get _ _ _ k Hloop'),
      (override_loop_get _ _ _ k Hloop). apply overrides_at_idem.
Qed.

(** ** [merge_options] *)

Lemma merge_options_cons base o ovs :
  merge_options base (o :: ovs) =
  opts_dict_of base ≫= λ od,
    for_each override_step (o :: ovs) od ≫= λ od', Ok (OrderedDict.values od').
Proof. done. Qed.

Lemma merge_options_idem base ovs :
  merge_options base ovs ≫= (λ r, merge_options r ovs) = merge_options base ovs.
Proof.
  destruct ovs as [|o ovs]; [done|].
  rewrite !merge_options_cons.
  destruct (opts_dict_of base) as [od|e] eqn:Hod; [|done].
  cbn [mbind result_bind].
  destruct (for_each override_step (o :: ovs) od) as [od'|e] eqn:Hloop; [|done].
  cbn [mbind result_bind].
  apply opts_dict_of_invariant in Hod as [Hkeyed Hnd].
  rewrite merge_options_cons, opts_dict_of_values.
  - cbn [mbind result_bind].
    by rewrite (override_loop_idem _ _ _ Hloop Hnd).
  - by apply (override_loop_keyed _ _ _ Hloop).
  - by apply (override_loop_NoDup _ _ _ Hloop).
Qed.

Lemma fst_zip_keys (ks : list string) (l : list pydict) :
  length ks = length l → OrderedDict.keys (zip ks l) = ks.
Proof. intros Hlen. apply fst_zip. lia. Qed.

(** The shape of the merged list when the base has distinct keys. *)
Lemma merge_options_keys base ovs bks oks :
  has_keys base bks → NoDup bks → has_keys ovs oks →
  ∃ r, merge_options base ovs = Ok r ∧
       has_keys r (bks ++ new_keys bks oks)%list.
Proof.
  intros Hbase Hnd Hovs. destruct ovs as [|o ovs].
  - apply Forall2_nil_inv_l in Hovs as ->. exists base.
    by rewrite new_keys_nil, app_nil_r.
  - rewrite merge_options_cons.
    pose proof (opts_dict_of_NoDup _ _ Hbase Hnd) as Hod. rewrite Hod.
    cbn [mbind result_bind].
    destruct (override_loop_ok _ _ (zip bks base) Hovs) as [od' Hloop].
    rewrite Hloop. cbn [mbind result_bind]. eexists. split; [done|].
    apply opts_dict_of_invariant in Hod as [Hkeyed _].
    pose proof (override_loop_keyed _ _ _ Hloop Hkeyed) as Hkeyed'.
    pose proof (override_loop_keys _ _ _ _ Hovs Hloop) as Hkeys.
    rewrite fst_zip_keys in Hkeys by (symmetry; by apply has_keys_length).
    unfold keyed in Hkeyed'. by rewrite Hkeys in Hkeyed'.
Qed.

(** ** [with_runner_overrides] *)

Lemma with_runner_overrides_imported imp sys slug rn :
  imp slug = Ok rn →
  with_runner_overrides imp sys slug = merge_options sys (runner_overrides rn).
Proof. unfold with_runner_overrides. by intros ->. Qed.

(** C1: when the base descriptors carry distinct keys and every key of the
    runner's overrides is one of them, [with_runner_overrides] returns a list
    as long as the base whose keys are those of the base, in the same
    order.  (The keys need not be non-empty.) *)
Theorem with_runner_overrides_known_keys imp sys slug rn bks oks :
  imp slug = Ok rn →
  has_keys sys bks → NoDup bks →
  has_keys (runner_overrides rn) oks → oks ⊆ bks →
  ∃ r, with_runner_overrides imp sys slug = Ok r ∧
       length r = length sys ∧ has_keys r bks.
Proof.
  intros Himp Hsys Hnd Hovs Hsub.
  rewrite (with_runner_overrides_imported _ _ _ _ Himp).
  destruct (merge_options_keys _ _ _ _ Hsys Hnd Hovs) as (r & Hr & Hkeys).
  rewrite new_keys_subseteq, app_nil_r in Hkeys by done.
  exists r. split_and!; [done | | done].
  by rewrite (has_keys_length _ _ Hkeys), (has_keys_length _ _ Hsys).
Qed.

Lemma with_runner_overrides_known_keys_witness :
  ∃ r, with_runner_overrides
         (λ _, Ok (runner_with [descriptor "b" 99]))
         [descriptor "a" 1; descriptor "b" 2] "wine" = Ok r ∧
       length r = 2 ∧ has_keys r ["a"; "b"].
Proof.
  apply (with_runner_overrides_known_keys
           (λ _, Ok (runner_with [descriptor "b" 99]))
           [descriptor "a" 1; descriptor "b" 2] "wine"
           (runner_with [descriptor "b" 99]) ["a"; "b"] ["b"]).
  - reflexivity.
  - repeat constructor.
  - apply (bool_decide_unpack _). vm_compute. exact I.
  - repeat constructor.
  - intros k Hk. apply list_elem_of_singleton in Hk as ->.
    apply list_elem_of_further, list_elem_of_here.
Defined.

(** The keys of [system_options] are distinct and none is empty, so any
    descriptor list with these keys is a base as C1 and C2 require. *)
Lemma system_options_keys_NoDup :
  NoDup system_options_keys ∧ EmptyString ∉ system_options_keys.
Proof.
  split; apply (bool_decide_unpack _); vm_compute; exact I.
Qed.

(** C2: when the base descriptors carry distinct keys, the result of
    [with_runner_overrides] has the keys of the base in their order,
    followed by the keys the overrides introduce, each once and in the order
    of its first occurrence among the overrides; its length is the length of
    the base plus the number of distinct new keys. *)
Theorem with_runner_overrides_new_keys imp sys slug rn bks oks :
  imp slug = Ok rn →
  has_keys sys bks → NoDup bks →
  has_keys (runner_overrides rn) oks →
  ∃ r, with_runner_overrides imp sys slug = Ok r ∧
       has_keys r (bks ++ new_keys bks oks)%list ∧
       length r =
       length sys + size (list_to_set oks ∖ list_to_set bks : gset string).
Proof.
  intros Himp Hsys Hnd Hovs.
  rewrite (with_runner_overrides_imported _ _ _ _ Himp).
  destruct (merge_options_keys _ _ _ _ Hsys Hnd Hovs) as (r & Hr & Hkeys).
  exists r. split_and!; [done..|].
  rewrite (has_keys_length _ _ Hkeys), length_app, new_keys_length.
  by rewrite (has_keys_length _ _ Hsys).
Qed.

Lemma with_runner_overrides_new_keys_witness :
  ∃ r, with_runner_overrides
         (λ _, Ok (runner_with
                     [descriptor "d" 4; descriptor "b" 99; descriptor "e" 5;
                      descriptor "d" 6]))
         [descriptor "a" 1; descriptor "b" 2] "wine" = Ok r ∧
       has_keys r (["a"; "b"] ++ new_keys ["a"; "b"] ["d"; "b"; "e"; "d"])%list ∧
       length r =
       2 + size (list_to_set ["d"; "b"; "e"; "d"] ∖ list_to_set ["a"; "b"]
                 : gset string).
Proof.
  apply (with_runner_overrides_new_keys
           (λ _, Ok (runner_with
                       [descriptor "d" 4; descriptor "b" 99; descriptor "e" 5;
                        descriptor "d" 6]))
           [descriptor "a" 1; descriptor "b" 2] "wine"
           (runner_with [descriptor "d" 4; descriptor "b" 99; descriptor "e" 5;
                         descriptor "d" 6])
           ["a"; "b"] ["d"; "b"; "e"; "d"]).
  - reflexivity.
  - repeat constructor.
  - apply (bool_decide_unpack _). vm_compute. exact I.
  - repeat constructor.
Defined.

(** C4: with a runner whose override list is empty,
    [with_runner_overrides] returns the base list as it is. *)
Theorem with_runner_overrides_no_override imp sys slug rn :
  imp slug = Ok rn → runner_overrides rn = [] →
  with_runner_overrides imp sys slug = Ok sys.
Proof.
  intros Himp Hnil.
  by rewrite (with_runner_overrides_imported _ _ _ _ Himp), Hnil.
Qed.

Lemma with_runner_overrides_no_override_witness :
  with_runner_overrides (λ _, Ok (runner_with []))
    [descriptor "a" 1; descriptor "b" 2] "linux"
  = Ok [descriptor "a" 1; descriptor "b" 2].
Proof.
  apply (with_runner_overrides_no_override _ _ _ (runner_with []));
    reflexivity.
Defined.

(** C5: feeding the result of [with_runner_overrides] back as the base, with
    the same runner, gives the same result again; an exception of the first
    call is the outcome either way. *)
Theorem with_runner_overrides_idempotent imp sys slug :
  with_runner_overrides imp sys slug
    ≫= (λ r, with_runner_overrides imp r slug)
  = with_runner_overrides imp sys slug.
Proof.
  unfold with_runner_overrides.
  destruct (imp slug) as [rn|e] eqn:Himp.
  - apply merge_options_idem.
  - by destruct e.
Qed.

(** ** Field by field *)

Lemma overrides_at_filter k ovs cur :
  overrides_at k ovs cur =
  fold_left (λ c o, Some (dict_update (default ∅ c) o))
    (filter (λ d, has_key k d) ovs) cur.
Proof.
  revert cur. induction ovs as [|o ovs IH]; intros cur; [done|].
  rewrite overrides_at_cons, IH. unfold apply_override.
  destruct (has_key k o) eqn:Ho.
  - by rewrite filter_cons_True by (by rewrite Ho).
  - by rewrite filter_cons_False by (rewrite Ho; exact id).
Qed.

(** What [merge_options] leaves for a key: the base descriptor for the key,
    if any, updated by the overrides for that key in their order. *)
Lemma merge_options_descriptor_for base o ovs r k :
  merge_options base (o :: ovs) = Ok r →
  descriptor_for k r = overrides_at k (o :: ovs) (descriptor_for k base).
Proof.
  rewrite merge_options_cons.
  intros (od & Hod & (od' & Hloop & [= <-])%result_bind_ok)%result_bind_ok.
  pose proof (opts_dict_of_invariant _ _ Hod) as [Hkeyed Hnd].
  rewrite descriptor_for_values.
  - by rewrite (override_loop_get _ _ _ k Hloop), (opts_dict_of_get _ _ k Hod).
  - by apply (override_loop_keyed _ _ _ Hloop).
  - by apply (override_loop_NoDup _ _ _ Hloop).
Qed.

Example merge_example :
  with_runner_overrides
    (λ _, Ok (runner_with [descriptor "b" 99; descriptor "d" 4]))
    [descriptor "a" 1; descriptor "b" 2; descriptor "c" 3] "wine"
  = Ok [descriptor "a" 1; descriptor "b" 99; descriptor "c" 3;
        descriptor "d" 4].
Proof. vm_compute. reflexivity. Qed.

Lemma merge_options_ok base ovs bks oks :
  has_keys base bks → has_keys ovs oks → ∃ r, merge_options base ovs = Ok r.
Proof.
  intros Hbase Hovs. destruct ovs as [|o ovs]; [by exists base|].
  rewrite merge_options_cons. unfold opts_dict_of.
  destruct (index_loop_ok _ _ [] Hbase) as [od ->]. cbn [mbind result_bind].
  destruct (override_loop_ok _ _ od Hovs) as [od' ->]. by eexists.
Qed.

(** What [with_runner_overrides] leaves for a key that exactly one
    override names. *)
Lemma with_runner_overrides_single_override imp sys slug rn bks oks o k b :
  imp slug = Ok rn →
  has_keys sys bks → has_keys (runner_overrides rn) oks →
  filter (λ d, has_key k d) (runner_overrides rn) = [o] →
  descriptor_for k sys = Some b →
  ∃ r m, with_runner_overrides imp sys slug = Ok r ∧
         descriptor_for k r = Some m ∧ field_by_field b o m.
Proof.
  intros Himp Hsys Hovs Honly Hb.
  rewrite (with_runner_overrides_imported _ _ _ _ Himp).
  destruct (merge_options_ok _ _ _ _ Hsys Hovs) as [r Hr].
  destruct (runner_overrides rn) as [|o1 ovs] eqn:Hrn; [done|].
  exists r, (dict_update b o). split; [done|]. split.
  - rewrite (merge_options_descriptor_for _ _ _ _ k Hr), overrides_at_filter.
    by rewrite Honly, Hb.
  - intros f. apply dict_update_lookup.
Qed.

Lemma has_keys_elem_of l ks d k :
  has_keys l ks → d ∈ l → d !! "option" = Some (VStr k) → k ∈ ks.
Proof.
  induction 1 as [|d' k' l ks Hd' _ IH]; intros Hin Hk.
  - by apply elem_of_nil in Hin.
  - apply elem_of_cons in Hin as [->|Hin].
    + assert (k' = k) as -> by congruence. apply list_elem_of_here.
    + by apply list_elem_of_further, IH.
Qed.

Lemma filter_none {A} (P : A → Prop) `{!∀ x, Decision (P x)} (l : list A) :
  Forall (λ x, ¬ P x) l → filter P l = [].
Proof.
  induction 1 as [|x l Hx _ IH]; [done|]. by rewrite filter_cons_False.
Qed.

(** In a list with distinct keys, the descriptor with a key is the only
    one. *)
Lemma has_keys_filter_unique l ks d k :
  has_keys l ks → NoDup ks → d ∈ l → d !! "option" = Some (VStr k) →
  filter (λ d, has_key k d) l = [d].
Proof.
  induction 1 as [|d' k' l ks Hd' Hl IH]; intros Hnd Hin Hk.
  - by apply elem_of_nil in Hin.
  - apply NoDup_cons in Hnd as [Hk' Hnd].
    apply elem_of_cons in Hin as [->|Hin].
    + assert (k' = k) as -> by congruence.
      rewrite filter_cons_True
        by (rewrite (has_key_eq _ _ _ Hk); by apply bool_decide_pack).
      f_equal. apply filter_none, Forall_forall.
      intros d'' Hin'' Hhas. apply Hk'.
      unfold has_key in Hhas.
      destruct (d'' !! "option") as [[| | |k''| |]|] eqn:Hd''; try done.
      apply bool_decide_unpack in Hhas as ->.
      by eapply has_keys_elem_of.
    + rewrite filter_cons_False; [by apply IH|].
      rewrite (has_key_eq _ _ _ Hd'). intros ->%bool_decide_unpack.
      apply Hk'. by eapply has_keys_elem_of.
Qed.

(** C3: when the descriptors of the base carry distinct keys and so do the
    overrides, as the specification requires, then for every override [o]
    whose key [k] is the key of a base descriptor [b],
    [with_runner_overrides] returns a list whose descriptor for [k] has the
    value of [o] at each field [o] names and the value of [b] at every
    other field.  And the example of the specification, with ["option"] as
    the key field. *)
Theorem with_runner_overrides_fields :
  (∀ imp sys slug rn bks oks o k b,
     imp slug = Ok rn →
     has_keys sys bks → NoDup bks →
     has_keys (runner_overrides rn) oks → NoDup oks →
     o ∈ runner_overrides rn → o !! "option" = Some (VStr k) →
     b ∈ sys → b !! "option" = Some (VStr k) →
     ∃ r m, with_runner_overrides imp sys slug = Ok r ∧
            descriptor_for k r = Some m ∧ field_by_field b o m) ∧
  with_runner_overrides
    (λ _, Ok (runner_with [descriptor "b" 99; descriptor "d" 4]))
    [descriptor "a" 1; descriptor "b" 2; descriptor "c" 3] "wine"
  = Ok [descriptor "a" 1; descriptor "b" 99; descriptor "c" 3;
        descriptor "d" 4].
Proof.
  split; [|vm_compute; reflexivity].
  intros imp sys slug rn bks oks o k b Himp Hsys Hbnd Hovs Hond Ho Hok Hb Hbk.
  apply (with_runner_overrides_single_override
           imp sys slug rn bks oks o k b Himp Hsys Hovs).
  - by eapply has_keys_filter_unique.
  - unfold descriptor_for.
    by rewrite (has_keys_filter_unique _ _ _ _ Hsys Hbnd Hb Hbk).
Qed.

Lemma with_runner_overrides_fields_witness :
  ∃ r m, with_runner_overrides
           (λ _, Ok (runner_with [descriptor "b" 99; descriptor "d" 4]))
           [descriptor "a" 1; descriptor "b" 2; descriptor "c" 3] "wine"
         = Ok r ∧
         descriptor_for "b" r = Some m ∧
         field_by_field (descriptor "b" 2) (descriptor "b" 99) m.
Proof.
  apply (proj1 with_runner_overrides_fields
           (λ _, Ok (runner_with [descriptor "b" 99; descriptor "d" 4]))
           [descriptor "a" 1; descriptor "b" 2; descriptor "c" 3] "wine"
           (runner_with [descriptor "b" 99; descriptor "d" 4])
           ["a"; "b"; "c"] ["b"; "d"]).
  - reflexivity.
  - repeat constructor.
  - apply (bool_decide_unpack _). vm_compute. exact I.
  - repeat constructor.
  - apply (bool_decide_unpack _). vm_compute. exact I.
  - apply list_elem_of_here.
  - vm_compute. reflexivity.
  - apply list_elem_of_further, list_elem_of_here.
  - vm_compute. reflexivity.
Defined.

(** The precondition on the overrides matters: when two overrides carry
    the same key, the later one decides the fields both name. *)
Example with_runner_overrides_repeated_override :
  with_runner_overrides
    (λ _, Ok (runner_with [descriptor "b" 1; descriptor "b" 5]))
    [descriptor "b" 2] "wine"
  = Ok [descriptor "b" 5].
Proof. vm_compute. reflexivity. Qed.

(** ** The object store is only extended *)

Section frame.
Import Store.

Lemma preserves_ret {A} (a : A) : preserves (mret a : M A).
Proof. by intros σ. Qed.

Lemma preserves_raise {A} e : preserves (raise e : M A).
Proof. by intros σ. Qed.

Lemma preserves_lift {A} (r : result A) : preserves (lift r).
Proof. by intros σ. Qed.

Lemma preserves_read_dict a : preserves (read_dict a).
Proof. intros σ. unfold read_dict. by destruct (σ !! a) as [[]|]. Qed.

Lemma preserves_read_list a : preserves (read_list a).
Proof. intros σ. unfold read_list. by destruct (σ !! a) as [[]|]. Qed.

Lemma preserves_alloc o : preserves (alloc o).
Proof.
  intros σ. unfold alloc. cbn [fst]. apply insert_subseteq.
  apply not_elem_of_dom, is_fresh.
Qed.

Lemma preserves_bind {A B} (m : M A) (f : A → M B) :
  preserves m → (∀ a, preserves (f a)) → preserves (m ≫= f).
Proof.
  intros Hm Hf σ. unfold mbind, M_bind. specialize (Hm σ).
  destruct (m σ) as [σ1 [a|e]]; cbn [fst] in *; [|done].
  etrans; [done | apply Hf].
Qed.

Lemma preserves_for_each {S A} (body : S → A → M S) (l : list A) (s : S) :
  (∀ s x, preserves (body s x)) → preserves (for_each body l s).
Proof.
  intros Hbody. revert s. induction l as [|x l IH]; intros s; simpl.
  - apply preserves_ret.
  - apply preserves_bind; [apply Hbody | apply IH].
Qed.

(** The copy is a new object, and the update goes to the copy. *)
Lemma preserves_copy_update existing key option od :
  preserves
    (copy ← alloc (DictObj existing);
     let opts_dict' := OrderedDict.set key copy od in
     match OrderedDict.get key opts_dict' with
     | Some target => _ ← update_in_place target option; mret opts_dict'
     | None => raise (KeyError key)
     end).
Proof.
  intros σ. unfold mbind, M_bind, alloc. cbn zeta.
  rewrite od_get_set, decide_True by done.
  set (a := fresh (dom σ)).
  assert (σ !! a = None) as Ha by apply not_elem_of_dom, is_fresh.
  unfold update_in_place. rewrite lookup_insert_eq.
  destruct (<[a:=DictObj existing]> σ !! option) as [[o|]|]; cbn [fst];
    try by apply insert_subseteq.
  rewrite insert_insert_eq. by apply insert_subseteq.
Qed.

Lemma preserves_override_step od option : preserves (override_step od option).
Proof.
  unfold override_step.
  apply preserves_bind; [apply preserves_read_dict|]. intros o.
  apply preserves_bind; [apply preserves_lift|]. intros key.
  destruct (OrderedDict.get key od) as [a|]; [|apply preserves_ret].
  apply preserves_bind; [apply preserves_read_dict|]. intros existing.
  destruct (dict_truthy existing); [|apply preserves_ret].
  apply preserves_copy_update.
Qed.

Lemma preserves_opts_dict_of options : preserves (opts_dict_of options).
Proof.
  apply preserves_for_each. intros od opt. unfold index_step.
  apply preserves_bind; [apply preserves_read_dict|]. intros d.
  apply preserves_bind; [apply preserves_lift|]. intros key.
  apply preserves_ret.
Qed.

Lemma preserves_merge_options options overrides :
  preserves (merge_options options overrides).
Proof.
  unfold merge_options.
  apply preserves_bind; [apply preserves_read_list|]. intros [|o ovs].
  - apply preserves_ret.
  - apply preserves_bind; [apply preserves_read_list|]. intros opts.
    apply preserves_bind; [apply preserves_opts_dict_of|]. intros od.
    apply preserves_bind.
    + apply preserves_for_each, preserves_override_step.
    + intros od'. apply preserves_alloc.
Qed.

(** C10: whatever the runner and the store, every object in the store when
    [with_runner_overrides] is called — the list [system_options] and each
    descriptor in it among them — is at the same address with the same
    contents when the call returns or raises: overridden descriptors are
    copied and only the copies are updated. *)
Theorem with_runner_overrides_preserves imp system_options runner_slug :
  preserves (with_runner_overrides imp system_options runner_slug).
Proof.
  unfold with_runner_overrides.
  destruct (imp runner_slug) as [r|e].
  - apply preserves_bind; [apply preserves_read_list|]. intros cls.
    apply preserves_merge_options.
  - destruct e; first [apply preserves_ret | apply preserves_raise].
Qed.

End frame.

(** ** The choice lists *)

Lemma zip_same {A} (l : list A) : zip l l = (λ x, (x, x)) <$> l.
Proof. induction l as [|x l IH]; [done|]. simpl. by rewrite IH. Qed.

Lemma get_resolution_choices_eq h :
  get_resolution_choices h =
  (gettext "Keep current", "off") :: ((λ r, (r, r)) <$> get_resolutions h).
Proof.
  unfold get_resolution_choices, list_insert_at.
  by rewrite take_0, drop_0, zip_same.
Qed.

Lemma get_output_choices_eq h :
  get_output_choices h =
  (gettext "Off", "off") :: (gettext "Primary", "primary")
    :: ((λ d, (d, d)) <$> get_display_names h).
Proof.
  unfold get_output_choices, list_insert_at.
  by rewrite take_0, drop_0, zip_same.
Qed.

(** The launchers found follow the sentinel, in the order of the tests. *)
Lemma get_optirun_choices_eq h :
  get_optirun_choices h =
  (gettext "Off", "off")
    :: filter (λ c, executable_found h c.2)
         [ ("primusrun", "primusrun"); ("optirun/virtualgl", "optirun");
           ("primus vk", "pvkrun") ].
Proof.
  unfold get_optirun_choices. rewrite !filter_cons, filter_nil. cbn [snd].
  by destruct (executable_found h "primusrun"), (executable_found h "optirun"),
    (executable_found h "pvkrun").
Qed.

(** Absent executables and directories add no entry. *)
Lemma get_optirun_choices_absent h :
  (∀ name, find_executable h name = None) →
  get_optirun_choices h = [(gettext "Off", "off")].
Proof.
  intros Habs. unfold get_optirun_choices, executable_found.
  by rewrite !Habs.
Qed.

Lemma fold_left_mjoin {A B} (f : A → B → A) (ls : list (list B)) (a : A) :
  fold_left f (mjoin ls) a = fold_left (λ a l, fold_left f l a) ls a.
Proof.
  revert a. induction ls as [|l ls IH]; intros a; [done|].
  cbn [mjoin list_join fold_left]. by rewrite fold_left_app, IH.
Qed.

Lemma scan_loaders_all h :
  scan_loaders h =
  fold_left add_loader (all_loaders h)
    {| intel := []; amdradv := []; nvidia := []; amdvlk := []; amdvlkpro := [] |}.
Proof.
  unfold scan_loaders, all_loaders. rewrite fold_left_mjoin.
  generalize VULKAN_DATA_DIRS as dirs.
  generalize {| intel := []; amdradv := []; nvidia := []; amdvlk := [];
                amdvlkpro := [] |} as acc.
  intros acc dirs. revert acc.
  induction dirs as [|d dirs IH]; intros acc; [done|]. cbn. apply IH.
Qed.

Lemma add_loader_fold l acc :
  fold_left add_loader l acc =
  {| intel := intel acc ++ filter (λ p, contains "intel" p) l;
     amdradv := amdradv acc
       ++ filter (λ p, negb (contains "intel" p) && contains "radeon" p) l;
     nvidia := nvidia acc
       ++ filter (λ p, negb (contains "intel" p) && negb (contains "radeon" p)
                       && contains "nvidia" p) l;
     amdvlk := amdvlk acc
       ++ filter (λ p, negb (contains "intel" p) && negb (contains "radeon" p)
                       && negb (contains "nvidia" p) && contains "amd" p
                       && negb (contains "pro" p)) l;
     amdvlkpro := amdvlkpro acc
       ++ filter (λ p, negb (contains "intel" p) && negb (contains "radeon" p)
                       && negb (contains "nvidia" p) && contains "amd" p
                       && contains "pro" p) l |}%list.
Proof.
  revert acc. induction l as [|p l IH]; intros acc.
  - rewrite !filter_nil, !app_nil_r. by destruct acc.
  - cbn [fold_left]. rewrite IH. rewrite !filter_cons. unfold add_loader.
    destruct (contains "intel" p), (contains "radeon" p),
      (contains "nvidia" p), (contains "amd" p), (contains "pro" p);
      cbn; unfold append; by rewrite <-?app_assoc.
Qed.

(** The five strings of file names [get_vk_icd_choices] works with. *)
Lemma scan_loaders_files h :
  join_colon (intel (scan_loaders h)) = loader_files h is_intel ∧
  join_colon (amdradv (scan_loaders h)) = loader_files h is_radv ∧
  join_colon (nvidia (scan_loaders h)) = loader_files h is_nvidia ∧
  join_colon (amdvlk (scan_loaders h)) = loader_files h is_amdvlk ∧
  join_colon (amdvlkpro (scan_loaders h)) = loader_files h is_amdvlkpro.
Proof. rewrite scan_loaders_all, add_loader_fold. by split_and!. Qed.

Lemma all_loaders_absent h :
  (∀ pattern, glob_glob h pattern = []) → all_loaders h = [].
Proof.
  intros Habs. unfold all_loaders, VULKAN_DATA_DIRS.
  cbn [fmap list_fmap]. by rewrite !Habs.
Qed.

(** The appends after the first entry, whatever that entry is. *)
Lemma vk_icd_appends (first : choice) (f1 f2 f3 f4 f5 : string) :
  (let choices := [first] in
   let choices :=
     if str_truthy f1
     then append choices ("Intel Open Source (MESA: ANV)", f1)
     else choices in
   let choices :=
     if str_truthy f2
     then append choices ("AMD RADV Open Source (MESA: RADV)", f2)
     else choices in
   let choices :=
     if str_truthy f3
     then append choices ("Nvidia Proprietary", f3)
     else choices in
   let choices :=
     if str_truthy f4 then
       if negb (str_truthy f5)
       then append choices ("AMDVLK/AMDGPU-PRO Proprietary", f4)
       else append choices ("AMDVLK Open source", f4)
     else choices in
   let choices :=
     if str_truthy f5
     then append choices ("AMDGPU-PRO Proprietary", f5)
     else choices in
   choices)
  = (first
       :: loader_entry "Intel Open Source (MESA: ANV)" f1
       ++ loader_entry "AMD RADV Open Source (MESA: RADV)" f2
       ++ loader_entry "Nvidia Proprietary" f3
       ++ loader_entry
            (if str_truthy f5
             then "AMDVLK Open source" else "AMDVLK/AMDGPU-PRO Proprietary")
            f4
       ++ loader_entry "AMDGPU-PRO Proprietary" f5)%list.
Proof.
  cbn zeta. unfold loader_entry.
  by destruct (str_truthy f1), (str_truthy f2), (str_truthy f3),
    (str_truthy f4), (str_truthy f5).
Qed.

(** The decoder accepts the two bytes of a letter in UTF-8 and refuses the
    single byte the letter has in Latin-1. *)
Example decode_utf8_examples :
  decode_utf8 ("n" +:+ String (Ascii.ascii_of_nat 195)
                         (String (Ascii.ascii_of_nat 163) "o"))
  = Ok ("n" +:+ String (Ascii.ascii_of_nat 195)
                  (String (Ascii.ascii_of_nat 163) "o")) ∧
  decode_utf8 ("n" +:+ String (Ascii.ascii_of_nat 227) "o")
  = Raise (OtherError "UnicodeDecodeError").
Proof. split; vm_compute; reflexivity. Qed.

(** What [get_vk_icd_choices] returns, and when it raises. *)
Lemma get_vk_icd_choices_eq h :
  get_vk_icd_choices h =
  if utf8_valid (glxvendor_output h)
  then Ok (vk_icd_auto h :: vk_icd_loader_entries h)
  else Raise (OtherError "UnicodeDecodeError").
Proof.
  unfold get_vk_icd_choices, decode_utf8. cbn zeta.
  fold (glxvendor_output h).
  destruct (scan_loaders_files h) as (-> & -> & -> & -> & ->).
  destruct (utf8_valid (glxvendor_output h)); [|done].
  cbn [mbind result_bind]. f_equal.
  unfold vk_icd_auto, vk_icd_loader_entries.
  destruct (contains "Intel" (glxvendor_output h));
    [exact (vk_icd_appends _ _ _ _ _ _)|].
  destruct (contains "AMD" (glxvendor_output h));
    [exact (vk_icd_appends _ _ _ _ _ _)|].
  destruct (contains "NVIDIA" (glxvendor_output h));
    exact (vk_icd_appends _ _ _ _ _ _).
Qed.

Lemma str_truthy_nonempty s : str_truthy s = true → s ≠ EmptyString.
Proof. by intros H ->. Qed.

Lemma vk_icd_auto_label h :
  (vk_icd_auto h).1 ∈
  [ "Auto: Intel Open Source (MESA: ANV)";
    "Auto: AMD RADV Open Source (MESA: RADV)"; "Auto: Nvidia Proprietary";
    "Auto: WARNING -- No Vulkan Loader detected!" ].
Proof.
  unfold vk_icd_auto, vk_icd_sentinel, gettext.
  destruct (contains "Intel" (glxvendor_output h)); [apply list_elem_of_here|].
  destruct (contains "AMD" (glxvendor_output h));
    [apply list_elem_of_further, list_elem_of_here|].
  destruct (contains "NVIDIA" (glxvendor_output h)).
  - do 2 apply list_elem_of_further. apply list_elem_of_here.
  - do 3 apply list_elem_of_further. apply list_elem_of_here.
Qed.

(** The entries of the loader files: their labels are among the six fixed
    labels, in that order, and none has an empty value. *)
Lemma vk_icd_loader_entries_spec h :
  sublist (vk_icd_loader_entries h).*1 vk_icd_loader_labels ∧
  (length (vk_icd_loader_entries h) ≤ 5)%nat ∧
  Forall (λ c, c.2 ≠ EmptyString) (vk_icd_loader_entries h).
Proof.
  unfold vk_icd_loader_entries, vk_icd_loader_labels, loader_entry.
  generalize (loader_files h is_intel) (loader_files h is_radv)
    (loader_files h is_nvidia) (loader_files h is_amdvlk)
    (loader_files h is_amdvlkpro).
  intros f1 f2 f3 f4 f5.
  destruct (str_truthy f1) eqn:H1, (str_truthy f2) eqn:H2,
    (str_truthy f3) eqn:H3, (str_truthy f4) eqn:H4, (str_truthy f5) eqn:H5;
    cbn [app fmap list_fmap fst length];
    (split_and!;
     [ repeat first [ apply sublist_nil | apply sublist_skip
                    | apply sublist_cons ]
     | lia
     | repeat (apply Forall_cons; split;
               [cbn [snd]; by apply str_truthy_nonempty|]);
       apply Forall_nil_2 ]).
Qed.

Lemma vk_icd_sentinel_not_entry h : vk_icd_sentinel ∉ vk_icd_loader_entries h.
Proof.
  intros Hin. destruct (vk_icd_loader_entries_spec h) as (_ & _ & Hval).
  by apply (proj1 (Forall_forall _ _) Hval _ Hin).
Qed.

(** C6, as the code has it: the lists of [get_optirun_choices],
    [get_resolution_choices] and [get_output_choices] contain their sentinel
    entry on every host.  [get_vk_icd_choices] raises [UnicodeDecodeError]
    when the bytes the vendor probe writes are not UTF-8, whatever is
    installed; when they are, it returns a list whose first entry is the
    sentinel if the text names no vendor and, in place of the sentinel, the
    [Auto] entry of the vendor if it names one: the sentinel is then not in
    the list. *)
Theorem choices_contain_sentinel h :
  (gettext "Off", "off") ∈ get_optirun_choices h ∧
  (gettext "Keep current", "off") ∈ get_resolution_choices h ∧
  (gettext "Off", "off") ∈ get_output_choices h ∧
  (if utf8_valid (glxvendor_output h) then
     ∃ choices,
       get_vk_icd_choices h = Ok choices ∧
       head choices = Some (vk_icd_auto h) ∧
       (if vendor_named h
        then (vk_icd_sentinel ∉ choices) ∧
             (vk_icd_auto h).1 ∈
               [ "Auto: Intel Open Source (MESA: ANV)";
                 "Auto: AMD RADV Open Source (MESA: RADV)";
                 "Auto: Nvidia Proprietary" ]
        else vk_icd_auto h = vk_icd_sentinel)
   else get_vk_icd_choices h = Raise (OtherError "UnicodeDecodeError")).
Proof.
  split_and!.
  - rewrite get_optirun_choices_eq. apply list_elem_of_here.
  - rewrite get_resolution_choices_eq. apply list_elem_of_here.
  - rewrite get_output_choices_eq. apply list_elem_of_here.
  - rewrite get_vk_icd_choices_eq.
    destruct (utf8_valid (glxvendor_output h)); [|done].
    eexists. split; [done|]. split; [done|].
    pose proof (vk_icd_sentinel_not_entry h) as Hrest.
    unfold vendor_named, vk_icd_auto, gettext.
    destruct (contains "Intel" (glxvendor_output h)); cbn [orb].
    { split; [|apply list_elem_of_here].
      intros [Heq|Hin]%elem_of_cons; [discriminate Heq|done]. }
    destruct (contains "AMD" (glxvendor_output h)); cbn [orb].
    { split; [|apply list_elem_of_further, list_elem_of_here].
      intros [Heq|Hin]%elem_of_cons; [discriminate Heq|done]. }
    destruct (contains "NVIDIA" (glxvendor_output h)); [|done].
    split; [|do 2 apply list_elem_of_further; apply list_elem_of_here].
    intros [Heq|Hin]%elem_of_cons; [discriminate Heq|done].
Qed.

(** C6 as it is stated fails twice on hosts with none of the probed
    executables and none of the Vulkan directories: where the shell writes
    its message in Latin-1 [get_vk_icd_choices] raises, and where the probe
    reports an Intel GPU its list is the vendor's [Auto] entry alone,
    without the sentinel. *)
Lemma choices_contain_sentinel_counterexample :
  (∀ name, find_executable latin1_host name = None) ∧
  (∀ pattern, glob_glob latin1_host pattern = []) ∧
  get_vk_icd_choices latin1_host = Raise (OtherError "UnicodeDecodeError") ∧
  let h := bare_host "OpenGL vendor string: Intel" in
  ¬ ((gettext "Off", "off") ∈ get_optirun_choices h ∧
     (gettext "Keep current", "off") ∈ get_resolution_choices h ∧
     (gettext "Off", "off") ∈ get_output_choices h ∧
     ∃ choices, get_vk_icd_choices h = Ok choices ∧
                vk_icd_sentinel ∈ choices).
Proof.
  split_and!; [done|done|vm_compute; reflexivity|].
  intros h (_ & _ & _ & choices & Hvk & Hin).
  assert (get_vk_icd_choices h =
          Ok [("Auto: Intel Open Source (MESA: ANV)", EmptyString)]) as Heq
    by (vm_compute; reflexivity).
  rewrite Heq in Hvk. injection Hvk as <-.
  apply list_elem_of_singleton in Hin. discriminate.
Qed.

(** C7, as the code has it: [get_resolution_choices] returns the sentinel
    and then the resolutions, [get_output_choices] the two fixed entries and
    then the displays, [get_optirun_choices] the sentinel and then the
    launchers found, in the order primusrun, optirun, pvkrun.  When
    [get_vk_icd_choices] returns, its list is one [Auto] entry — that of
    the vendor named in the probe output, or the sentinel when none is
    named — and then one entry for each driver that has a loader file, in
    the order Intel, RADV, Nvidia, AMDVLK, AMDGPU-PRO, with the files of the
    driver as its value. *)
Theorem choices_order h :
  get_resolution_choices h =
    (gettext "Keep current", "off") :: ((λ r, (r, r)) <$> get_resolutions h) ∧
  get_output_choices h =
    (gettext "Off", "off") :: (gettext "Primary", "primary")
      :: ((λ d, (d, d)) <$> get_display_names h) ∧
  get_optirun_choices h =
    (gettext "Off", "off")
      :: filter (λ c, executable_found h c.2)
           [ ("primusrun", "primusrun"); ("optirun/virtualgl", "optirun");
             ("primus vk", "pvkrun") ] ∧
  get_vk_icd_choices h =
    if utf8_valid (glxvendor_output h)
    then Ok (vk_icd_auto h :: vk_icd_loader_entries h)
    else Raise (OtherError "UnicodeDecodeError").
Proof.
  split_and!.
  - apply get_resolution_choices_eq.
  - apply get_output_choices_eq.
  - apply get_optirun_choices_eq.
  - apply get_vk_icd_choices_eq.
Qed.

(** C7 as it is stated fails on a host with an Intel GPU: the vendor's
    [Auto] entry is first and the sentinel is not in the list. *)
Lemma choices_order_counterexample :
  contains "Intel" (glxvendor_output intel_host) = true ∧
  get_vk_icd_choices intel_host =
    Ok [ ("Auto: Intel Open Source (MESA: ANV)",
          "/usr/share/vulkan/icd.d/intel_icd.x86_64.json");
         ("Intel Open Source (MESA: ANV)",
          "/usr/share/vulkan/icd.d/intel_icd.x86_64.json") ] ∧
  ¬ (∃ rest, get_vk_icd_choices intel_host =
             Ok (vk_icd_sentinel :: vk_icd_auto intel_host :: rest)).
Proof.
  split_and!; [vm_compute; reflexivity..|].
  intros [rest Hrest]. vm_compute in Hrest. discriminate.
Qed.

(** ** The installer window *)

Section installer_window.
Import InstallerWindow.

Lemma string_app_empty (s : string) : s +:+ EmptyString = s.
Proof.
  induction s as [|c s IH]; [reflexivity|].
  change (String c (s +:+ EmptyString) = String c s). by rewrite IH.
Qed.


Lemma fix_script_lookup script item :
  item ≠ "description" → item ≠ "notes" →
  fix_script script !! item = script !! item.
Proof.
  intros Hd Hn. unfold fix_script. cbn [fold_left].
  by rewrite !lookup_insert_ne.
Qed.

Lemma fix_script_mandatory script item :
  item ∈ ["name"; "runner"; "version"] →
  fix_script script !! item = script !! item.
Proof.
  intros Hitem. apply fix_script_lookup;
    intros ->; repeat (apply elem_of_cons in Hitem as [?|Hitem]; [done|]);
    by apply elem_of_nil in Hitem.
Qed.

Lemma check_script_spec script :
  match check_script script with
  | Ok _ => ∀ item, item ∈ ["name"; "runner"; "version"] → is_Some (script !! item)
  | Raise e =>
      ∃ item, item ∈ ["name"; "runner"; "version"] ∧ script !! item = None ∧
              e = ScriptingError (missing_field_message item)
  end.
Proof.
  unfold check_script. cbn [for_each].
  destruct (script !! "name") as [v1|] eqn:H1; cbn [mbind result_bind].
  2:{ exists "name". split_and!; [|done..]. apply list_elem_of_here. }
  destruct (script !! "runner") as [v2|] eqn:H2; cbn [mbind result_bind].
  2:{ exists "runner". split_and!; [|done..].
      apply list_elem_of_further, list_elem_of_here. }
  destruct (script !! "version") as [v3|] eqn:H3; cbn [mbind result_bind].
  2:{ exists "version". split_and!; [|done..].
      do 2 apply list_elem_of_further. apply list_elem_of_here. }
  intros item Hitem.
  repeat (apply elem_of_cons in Hitem as [->|Hitem]; [by eexists|]).
  by apply elem_of_nil in Hitem.
Qed.

Lemma validate_scripts_snd w :
  (validate_scripts w).2 =
  match installers w with
  | [] => Raise (ScriptingError "No installer available")
  | s :: scripts => (validate_loop (s :: scripts)).2
  end.
Proof.
  unfold validate_scripts. destruct (installers w) as [|s scripts]; [done|].
  by destruct (validate_loop (s :: scripts)).
Qed.










(** C9: when [file_box.start_all()] raises a [PermissionError],
    [on_files_confirmed] leaves the continue button sensitive, raises a
    [ScriptingError] whose message ends with the text of the cause, and
    leaves the handlers of the button, and [continue_handler], as they
    were. *)
Theorem on_files_confirmed_permission_error w ex :
  continue_sensitive (on_files_confirmed (Raise (PermissionError ex)) w).1
    = true ∧
  (on_files_confirmed (Raise (PermissionError ex)) w).2
    = Raise (ScriptingError ("Unable to get files: " +:+ ex)) ∧
  continue_connected (on_files_confirmed (Raise (PermissionError ex)) w).1
    = continue_connected w ∧
  continue_handler (on_files_confirmed (Raise (PermissionError ex)) w).1
    = continue_handler w.
Proof.
  split_and!; try reflexivity.
  unfold on_files_confirmed. cbn. by rewrite string_app_empty.
Qed.

(** When [start_all] returns, the handler is disconnected instead. *)
Lemma on_files_confirmed_ok w handler_id :
  continue_handler w = Some handler_id →
  (handler_id ∉ continue_connected (on_files_confirmed (Ok tt) w).1) ∧
  continue_sensitive (on_files_confirmed (Ok tt) w).1 = false.
Proof.
  intros Hh. unfold on_files_confirmed. cbn. rewrite Hh. cbn.
  split; [|done]. rewrite list_elem_of_filter. tauto.
Qed.

End installer_window.

(** ** The store model computes the values of [with_runner_overrides] *)

Lemma dict_at_mono σ σ' a d :
  σ ⊆ σ' → Store.dict_at σ a = Some d → Store.dict_at σ' a = Some d.
Proof.
  unfold Store.dict_at. intros Hsub.
  destruct (σ !! a) as [[d0|]|] eqn:Ha; try done. intros [= <-].
  by rewrite (lookup_weaken _ _ _ _ Ha Hsub).
Qed.

Lemma dicts_at_mono σ σ' l ds :
  σ ⊆ σ' → Store.dicts_at σ l = Some ds → Store.dicts_at σ' l = Some ds.
Proof.
  unfold Store.dicts_at. rewrite !mapM_Some. intros Hsub Hl.
  eapply Forall2_impl; [done|]. eauto using dict_at_mono.
Qed.

Lemma dicts_at_cons σ a l ds :
  Store.dicts_at σ (a :: l) = Some ds →
  ∃ d ds', ds = d :: ds' ∧ Store.dict_at σ a = Some d ∧
           Store.dicts_at σ l = Some ds'.
Proof.
  unfold Store.dicts_at. rewrite mapM_Some.
  intros (d & ds' & Hd & Hds & ->)%Forall2_cons_inv_l.
  exists d, ds'. by rewrite mapM_Some.
Qed.

Lemma od_repr_mono σ σ' oda odp :
  σ ⊆ σ' → od_repr σ oda odp → od_repr σ' oda odp.
Proof.
  intros Hsub Hrepr. eapply Forall2_impl; [done|]. intros x y [? ?].
  eauto using dict_at_mono.
Qed.

Lemma od_repr_get σ oda odp k :
  od_repr σ oda odp →
  match OrderedDict.get k oda with
  | Some a => ∃ d, OrderedDict.get k odp = Some d ∧ Store.dict_at σ a = Some d
  | None => OrderedDict.get k odp = None
  end.
Proof.
  induction 1 as [|[k1 a] [k2 d] oda odp [Hk Hd] _ IH]; [done|].
  cbn in *. subst k2. destruct (decide (k1 = k)); eauto.
Qed.

Lemma od_repr_set σ oda odp k a d :
  od_repr σ oda odp → Store.dict_at σ a = Some d →
  od_repr σ (OrderedDict.set k a oda) (OrderedDict.set k d odp).
Proof.
  intros Hrepr Ha.
  induction Hrepr as [|[k1 a1] [k2 d2] oda odp [Hk Hd] Hrepr IH].
  - by repeat constructor.
  - cbn in *. subst k2.
    destruct (decide (k1 = k)); constructor; eauto.
Qed.

Lemma od_repr_values σ oda odp :
  od_repr σ oda odp →
  Store.dicts_at σ (OrderedDict.values oda) = Some (OrderedDict.values odp).
Proof.
  intros Hrepr. apply mapM_Some. unfold OrderedDict.values.
  induction Hrepr as [|x y oda odp [_ Hd] _ IH]; constructor; done.
Qed.

Lemma read_dict_at σ a d :
  Store.dict_at σ a = Some d → Store.read_dict a σ = (σ, Ok d).
Proof.
  unfold Store.dict_at, Store.read_dict.
  destruct (σ !! a) as [[d0|]|]; try done. by intros [= ->].
Qed.

Lemma store_bind_run {A B} (m : Store.M A) (f : A → Store.M B) σ :
  (m ≫= f) σ =
  match m σ with
  | (σ', Ok a) => f a σ'
  | (σ', Raise e) => (σ', Raise e)
  end.
Proof. done. Qed.

Lemma result_bind_Ok {A B} (f : A → result B) a : Ok a ≫= f = f a.
Proof. done. Qed.

Lemma index_step_refines σ oda odp a d :
  Store.dict_at σ a = Some d → od_repr σ oda odp →
  (Store.index_step oda a σ).1 = σ ∧
  agrees od_repr (Store.index_step oda a σ) (index_step odp d).
Proof.
  intros Ha Hrepr. unfold Store.index_step, index_step.
  rewrite store_bind_run, (read_dict_at _ _ _ Ha), store_bind_run.
  unfold Store.lift. destruct (subscript_key d "option") as [k|e]; [|done].
  rewrite result_bind_Ok. split; [done|].
  eexists. split; [done|]. by apply od_repr_set.
Qed.

Lemma index_loop_refines σ l ds oda odp :
  Store.dicts_at σ l = Some ds → od_repr σ oda odp →
  (Store.for_each Store.index_step l oda σ).1 = σ ∧
  agrees od_repr (Store.for_each Store.index_step l oda σ)
    (for_each index_step ds odp).
Proof.
  revert ds oda odp. induction l as [|a l IH]; intros ds oda odp Hds Hrepr.
  - injection Hds as <-. cbn. eauto.
  - apply dicts_at_cons in Hds as (d & ds' & -> & Hd & Hds').
    destruct (index_step_refines σ oda odp a d Hd Hrepr) as [Hσ Hstep].
    cbn [Store.for_each for_each]. rewrite store_bind_run.
    destruct (Store.index_step oda a σ) as [σ1 r1]. cbn [fst] in Hσ. subst σ1.
    unfold agrees in Hstep. destruct (index_step odp d) as [odp1|e].
    + destruct Hstep as (oda1 & Hr1 & Hrepr1). cbn [fst snd] in *. subst r1.
      rewrite result_bind_Ok. by apply IH.
    + cbn [snd] in Hstep. subst r1. done.
Qed.

Lemma override_step_refines σ oda odp a o :
  Store.dict_at σ a = Some o → od_repr σ oda odp →
  σ ⊆ (Store.override_step oda a σ).1 ∧
  agrees od_repr (Store.override_step oda a σ) (override_step odp o).
Proof.
  intros Ha Hrepr. split; [apply preserves_override_step|].
  unfold Store.override_step, override_step.
  rewrite store_bind_run, (read_dict_at _ _ _ Ha), store_bind_run.
  unfold Store.lift. destruct (subscript_key o "option") as [k|e]; [|done].
  rewrite result_bind_Ok. pose proof (od_repr_get σ oda odp k Hrepr) as Hget.
  destruct (OrderedDict.get k oda) as [a0|].
  - destruct Hget as (existing & -> & Ha0).
    rewrite store_bind_run, (read_dict_at _ _ _ Ha0).
    destruct (dict_truthy existing).
    + rewrite store_bind_run. unfold Store.alloc.
      set (c := fresh (dom σ)).
      assert (σ !! c = None) as Hc by apply not_elem_of_dom, is_fresh.
      assert (σ ⊆ <[c:=Store.DictObj existing]> σ) as Hsub
        by by apply insert_subseteq.
      cbn zeta. rewrite od_get_set, decide_True by done.
      rewrite store_bind_run. unfold Store.update_in_place.
      rewrite lookup_insert_eq.
      pose proof (dict_at_mono _ _ _ _ Hsub Ha) as Ha'.
      unfold Store.dict_at in Ha'.
      destruct (<[c:=Store.DictObj existing]> σ !! a) as [[o'|]|]; try done.
      injection Ha' as ->. rewrite insert_insert_eq.
      eexists. split; [done|].
      change (od_repr (<[c:=Store.DictObj (dict_update existing o)]> σ)
                (OrderedDict.set k c oda)
                (OrderedDict.set k (dict_update existing o) odp)).
      apply od_repr_set.
      * eapply od_repr_mono; [|done]. by apply insert_subseteq.
      * unfold Store.dict_at. by rewrite lookup_insert_eq.
    + eexists. split; [done|]. by apply od_repr_set.
  - rewrite Hget. eexists. split; [done|]. by apply od_repr_set.
Qed.

Lemma override_loop_refines σ l ovs oda odp :
  Store.dicts_at σ l = Some ovs → od_repr σ oda odp →
  agrees od_repr (Store.for_each Store.override_step l oda σ)
    (for_each override_step ovs odp).
Proof.
  revert σ ovs oda odp.
  induction l as [|a l IH]; intros σ ovs oda odp Hovs Hrepr.
  - injection Hovs as <-. cbn. eauto.
  - apply dicts_at_cons in Hovs as (o & ovs' & -> & Ho & Hovs').
    destruct (override_step_refines σ oda odp a o Ho Hrepr) as [Hsub Hstep].
    cbn [Store.for_each for_each]. rewrite store_bind_run.
    destruct (Store.override_step oda a σ) as [σ1 r1]. cbn [fst] in Hsub.
    unfold agrees in Hstep. destruct (override_step odp o) as [odp1|e].
    + destruct Hstep as (oda1 & Hr1 & Hrepr1). cbn [fst snd] in *. subst r1.
      rewrite result_bind_Ok. apply IH; [|done].
      by apply (dicts_at_mono σ).
    + cbn [snd] in Hstep. subst r1. done.
Qed.

Lemma read_list_view σ a ds :
  Store.view σ a = Some ds →
  ∃ l, Store.read_list a σ = (σ, Ok l) ∧ Store.dicts_at σ l = Some ds.
Proof.
  unfold Store.view, Store.read_list.
  destruct (σ !! a) as [[|l]|]; try done. eauto.
Qed.

(** The store model of the merge returns the address of a list that reads,
    in the final store, as the list [merge_options] computes on the values,
    and raises what [merge_options] raises. *)
Lemma store_merge_options_refines σ options overrides base ovs :
  Store.view σ options = Some base →
  Store.view σ overrides = Some ovs →
  agrees (λ σ' a r, Store.view σ' a = Some r)
    (Store.merge_options options overrides σ) (merge_options base ovs).
Proof.
  intros Hbase Hovs. unfold Store.merge_options.
  destruct (read_list_view _ _ _ Hovs) as (lo & Hlo & Hdo).
  rewrite store_bind_run, Hlo. destruct lo as [|a lo].
  - injection Hdo as <-. cbn. eauto.
  - apply dicts_at_cons in Hdo as Hdo'.
    destruct Hdo' as (o & ovs' & -> & _ & _).
    destruct (read_list_view _ _ _ Hbase) as (lb & Hlb & Hdb).
    rewrite store_bind_run, Hlb, store_bind_run, merge_options_cons.
    unfold Store.opts_dict_of, opts_dict_of.
    destruct (index_loop_refines σ lb base [] [] Hdb) as [Hσ Hindex];
      [constructor|].
    destruct (Store.for_each Store.index_step lb [] σ) as [σ1 r1].
    cbn [fst] in Hσ. subst σ1. unfold agrees in Hindex.
    destruct (for_each index_step base []) as [odp|e].
    2:{ cbn [snd] in Hindex. by subst r1. }
    destruct Hindex as (oda & Hr1 & Hrepr). cbn [fst snd] in *. subst r1.
    rewrite result_bind_Ok, store_bind_run.
    pose proof (override_loop_refines σ (a :: lo) (o :: ovs') oda odp Hdo Hrepr)
      as Hloop.
    destruct (Store.for_each Store.override_step (a :: lo) oda σ) as [σ2 r2].
    unfold agrees in Hloop.
    destruct (for_each override_step (o :: ovs') odp) as [odp'|e].
    2:{ cbn [snd] in Hloop. by subst r2. }
    destruct Hloop as (oda' & Hr2 & Hrepr'). cbn [fst snd] in *. subst r2.
    rewrite result_bind_Ok. unfold Store.alloc. cbn zeta.
    set (c := fresh (dom σ2)).
    assert (σ2 !! c = None) as Hc by apply not_elem_of_dom, is_fresh.
    eexists. split; [done|]. cbn [fst]. unfold Store.view.
    rewrite lookup_insert_eq.
    apply (dicts_at_mono σ2); [by apply insert_subseteq|].
    by apply od_repr_values.
Qed.

(** And so for [with_runner_overrides], for a runner whose two override
    lists are in the store. *)
Lemma store_with_runner_overrides_refines σ imp imp' slug sys base :
  Store.view σ sys = Some base →
  match imp slug, imp' slug with
  | Ok r, Ok r' =>
      Store.view σ (Store.class_system_options_override r)
        = Some (class_system_options_override r') ∧
      Store.view σ (Store.instance_system_options_override r)
        = Some (instance_system_options_override r')
  | Raise e, Raise e' => e = e'
  | _, _ => False
  end →
  agrees (λ σ' a r, Store.view σ' a = Some r)
    (Store.with_runner_overrides imp sys slug σ)
    (with_runner_overrides imp' base slug).
Proof.
  intros Hbase Himp. unfold Store.with_runner_overrides, with_runner_overrides.
  destruct (imp slug) as [r|e], (imp' slug) as [r'|e']; try done.
  - destruct Himp as [Hcls Hinst].
    destruct (read_list_view _ _ _ Hcls) as (lc & Hlc & Hdc).
    rewrite store_bind_run, Hlc. unfold runner_overrides.
    destruct lc as [|a lc].
    + injection Hdc as Hdc. rewrite <-Hdc.
      by apply store_merge_options_refines.
    + apply dicts_at_cons in Hdc as Hdc'.
      destruct Hdc' as (o & ovs' & Heq & _ & _).
      pose proof (store_merge_options_refines σ sys _ base _ Hbase Hcls) as H.
      by rewrite Heq in H |- *.
  - subst e'. destruct e; cbn; eauto.
Qed.

(** On the example store the new list, at address 9, shares the descriptor
    of [a] with the base, holds a copy of [b] at the new address 8 with the
    override applied, and holds the override object for [d] itself; the
    base descriptor of [b] is as it was. *)
Example store_example :
  let out :=
    Store.with_runner_overrides (λ _, Ok example_runner) 3%positive "wine"
      example_store in
  out.2 = Ok 9%positive ∧
  out.1 !! 9%positive
    = Some (Store.ListObj [1%positive; 8%positive; 5%positive]) ∧
  out.1 !! 8%positive = Some (Store.DictObj (descriptor "b" 99)) ∧
  out.1 !! 2%positive = Some (Store.DictObj (descriptor "b" 2)).
Proof. vm_compute. by repeat split. Qed.

(** * More properties of [lutris/sysoptions.py] *)

(** ** [get_output_list] *)

Lemma output_loop_eq (l : list string) (n : nat) (choices : list choice) :
  fold_left (λ choices '(index, output), append choices (output, pretty index))
    (imap (λ i, pair (n + i)) l) choices
  = (choices ++ imap (λ i o, (o, pretty (n + i))) l)%list.
Proof.
  revert n choices. induction l as [|o l IH]; intros n choices.
  - by rewrite app_nil_r.
  - cbn [imap fold_left]. unfold append at 2.
    rewrite (imap_ext _ (λ i, pair (S n + i)) l)
      by (intros i x _; cbn; f_equal; lia).
    rewrite IH, <-app_assoc. cbn [app]. do 2 f_equal.
    apply imap_ext. intros i x _. cbn. do 2 f_equal. lia.
Qed.

Lemma get_output_list_eq h :
  get_output_list h =
  (gettext "Off", "off") :: imap (λ i o, (o, pretty i)) (get_display_names h).
Proof.
  unfold get_output_list, enumerate. cbn zeta.
  by rewrite (output_loop_eq (get_display_names h) 0).
Qed.

Lemma pretty_N_char_digit y :
  pretty_N_char y ≠ "o"%char ∧ pretty_N_char y ≠ "f"%char.
Proof. unfold pretty_N_char. by repeat case_match. Qed.

Lemma pretty_N_go_ne_off x s :
  s ≠ "off" → s ≠ "ff" → s ≠ "f" → pretty_N_go x s ≠ "off".
Proof.
  revert s. induction (N.lt_wf_0 x) as [x _ IH]; intros s H1 H2 H3.
  destruct (decide (0 < x)%N) as [Hx|Hx].
  - rewrite pretty_N_go_step by done.
    destruct (pretty_N_char_digit (x `mod` 10)) as [Ho Hf].
    apply IH; [by apply N.div_lt|congruence..].
  - replace x with 0%N by lia. by rewrite pretty_N_go_0.
Qed.

Lemma pretty_nat_ne_off (n : nat) : pretty n ≠ "off".
Proof.
  unfold pretty, pretty_nat, pretty, pretty_N.
  case_decide; [done|]. by apply pretty_N_go_ne_off.
Qed.

(** X1.  The entry of the display at position [i] is the one after the
    sentinel and [i] more entries; it carries the name of the display and
    the numeral of [i]. *)
Theorem get_output_list_lookup h i :
  get_output_list h !! 0 = Some (gettext "Off", "off") ∧
  get_output_list h !! S i
    = (λ output, (output, pretty i)) <$> get_display_names h !! i ∧
  length (get_output_list h) = S (length (get_display_names h)).
Proof.
  rewrite get_output_list_eq. split_and!; [done| |].
  - cbn [lookup list_lookup]. apply list_lookup_imap.
  - cbn [length]. by rewrite length_imap.
Qed.

(** X2.  The values of [get_output_list] are pairwise distinct, whatever the
    names of the displays: two displays with the same name still get
    different values, and none gets the value of the sentinel. *)
Theorem get_output_list_values_NoDup h : NoDup (get_output_list h).*2.
Proof.
  rewrite get_output_list_eq, fmap_cons. cbn [snd]. apply NoDup_cons. split.
  - intros ((o & v) & Hv & Hin)%list_elem_of_fmap. cbn in Hv. subst v.
    apply list_elem_of_lookup in Hin as [i Hi].
    rewrite list_lookup_imap in Hi.
    destruct (get_display_names h !! i); [|done].
    injection Hi as _ Hi. by apply (pretty_nat_ne_off i).
  - apply NoDup_alt. intros i j v Hi Hj.
    rewrite list_lookup_fmap, list_lookup_imap in Hi, Hj.
    destruct (get_display_names h !! i); [|done].
    destruct (get_display_names h !! j); [|done].
    cbn in Hi, Hj. injection Hi as <-. injection Hj as Hj.
    by apply (inj pretty) in Hj.
Qed.

(** ** The loader files of [get_vk_icd_choices] *)

(** X3.  Each of the five lists of [get_vk_icd_choices] holds, in the order
    in which the files are found, the loader files whose path contains its
    marker and none of the markers tested before it: ["intel"], then
    ["radeon"], then ["nvidia"], then ["amd"] (with ["pro"] or without). *)
Theorem scan_loaders_filters h :
  intel (scan_loaders h) = filter (λ p, contains "intel" p) (all_loaders h) ∧
  amdradv (scan_loaders h) =
    filter (λ p, negb (contains "intel" p) && contains "radeon" p)
      (all_loaders h) ∧
  nvidia (scan_loaders h) =
    filter (λ p, negb (contains "intel" p) && negb (contains "radeon" p)
                 && contains "nvidia" p) (all_loaders h) ∧
  amdvlk (scan_loaders h) =
    filter (λ p, negb (contains "intel" p) && negb (contains "radeon" p)
                 && negb (contains "nvidia" p) && contains "amd" p
                 && negb (contains "pro" p)) (all_loaders h) ∧
  amdvlkpro (scan_loaders h) =
    filter (λ p, negb (contains "intel" p) && negb (contains "radeon" p)
                 && negb (contains "nvidia" p) && contains "amd" p
                 && contains "pro" p) (all_loaders h).
Proof. rewrite scan_loaders_all, add_loader_fold. by split_and!. Qed.

(** ** More on the list of [get_vk_icd_choices] *)

Lemma vk_icd_labels_NoDup h :
  NoDup (vk_icd_auto h :: vk_icd_loader_entries h).*1.
Proof.
  destruct (vk_icd_loader_entries_spec h) as (Hsub & _ & _).
  rewrite fmap_cons. apply NoDup_cons. split.
  - intros Hin. pose proof (sublist_submseteq _ _ Hsub) as Hsub'.
    apply (elem_of_submseteq _ _ _ Hin) in Hsub'.
    pose proof (vk_icd_auto_label h) as Hauto.
    revert Hsub' Hauto. generalize (vk_icd_auto h).1 as label.
    intros label Hl Ha. unfold vk_icd_loader_labels in Hl.
    repeat (apply elem_of_cons in Ha as [->|Ha];
            [by repeat (apply elem_of_cons in Hl as [Hl|Hl]; [done|]);
                apply elem_of_nil in Hl|]).
    by apply elem_of_nil in Ha.
  - eapply sublist_NoDup; [|exact Hsub].
    apply (bool_decide_unpack _). vm_compute. exact I.
Qed.

(** X4.  When [get_vk_icd_choices] returns, the labels of its list are
    pairwise distinct, there are at most six entries, and every entry after
    the first has a value that is not empty: only the [Auto] entry can stand
    for no loader file.  The one exception it raises is the
    [UnicodeDecodeError] of the probe output. *)
Theorem get_vk_icd_choices_entries h :
  match get_vk_icd_choices h with
  | Ok choices =>
      NoDup choices.*1 ∧
      (length choices ≤ 6)%nat ∧
      Forall (λ c, c.2 ≠ EmptyString) (tail choices)
  | Raise e =>
      e = OtherError "UnicodeDecodeError" ∧
      utf8_valid (glxvendor_output h) = false
  end.
Proof.
  rewrite get_vk_icd_choices_eq.
  destruct (utf8_valid (glxvendor_output h)); [|done].
  destruct (vk_icd_loader_entries_spec h) as (_ & Hlen & Hval).
  split_and!; [apply vk_icd_labels_NoDup|cbn; lia|done].
Qed.

(** X5.  When no loader file is found and [get_vk_icd_choices] returns, its
    list has one entry, and the value of that entry is the empty string; so
    is then the default of the [vk_icd] option.  The one exception it
    raises is the [UnicodeDecodeError] of the probe output. *)
Theorem get_vk_icd_choices_no_loader h :
  (∀ pattern, glob_glob h pattern = []) →
  match get_vk_icd_choices h with
  | Ok choices =>
      (∃ label, choices = [(label, EmptyString)]) ∧
      vk_icd_default h = Ok EmptyString
  | Raise e =>
      e = OtherError "UnicodeDecodeError" ∧
      utf8_valid (glxvendor_output h) = false
  end.
Proof.
  intros Habs. unfold vk_icd_default.
  rewrite get_vk_icd_choices_eq.
  destruct (utf8_valid (glxvendor_output h)); [|done].
  cbn [mbind result_bind].
  unfold vk_icd_auto, vk_icd_loader_entries, loader_files, vk_icd_sentinel.
  rewrite (all_loaders_absent h Habs). cbn.
  destruct (contains "Intel" (glxvendor_output h)),
    (contains "AMD" (glxvendor_output h)),
    (contains "NVIDIA" (glxvendor_output h)); eauto.
Qed.

Lemma get_vk_icd_choices_no_loader_witness :
  get_vk_icd_choices (bare_host "OpenGL vendor string: AMD")
  = Ok [("Auto: AMD RADV Open Source (MESA: RADV)", EmptyString)] ∧
  vk_icd_default (bare_host "OpenGL vendor string: AMD") = Ok EmptyString.
Proof.
  split; [vm_compute; reflexivity|].
  exact (proj2 (get_vk_icd_choices_no_loader
                  (bare_host "OpenGL vendor string: AMD") (λ _, eq_refl))).
Defined.

(** X6.  The default of the [vk_icd] option never raises [IndexError]: the list
    of [get_vk_icd_choices] is never empty.  The default is the empty string
    unless the probe output names a vendor; the one exception the default
    raises is the [UnicodeDecodeError] of the probe output. *)
Theorem vk_icd_default_ok h :
  match vk_icd_default h with
  | Ok v => v = EmptyString ∨ vendor_named h = true
  | Raise e =>
      e = OtherError "UnicodeDecodeError" ∧
      utf8_valid (glxvendor_output h) = false
  end.
Proof.
  unfold vk_icd_default. rewrite get_vk_icd_choices_eq.
  destruct (utf8_valid (glxvendor_output h)); [|done].
  cbn [mbind result_bind snd]. unfold vendor_named, vk_icd_auto.
  destruct (contains "Intel" (glxvendor_output h)); [by right|].
  destruct (contains "AMD" (glxvendor_output h)); [by right|].
  destruct (contains "NVIDIA" (glxvendor_output h)); [by right|].
  by left.
Qed.

(** ** More on [get_optirun_choices] *)

(** X7.  The list of [get_optirun_choices] starts with the sentinel, which
    the launchers found follow in the fixed order primusrun, optirun,
    pvkrun; a launcher has its entry exactly when its executable is
    found. *)
Theorem get_optirun_choices_found h :
  head (get_optirun_choices h) = Some (gettext "Off", "off") ∧
  sublist (get_optirun_choices h)
    [ (gettext "Off", "off"); ("primusrun", "primusrun");
      ("optirun/virtualgl", "optirun"); ("primus vk", "pvkrun") ] ∧
  (("primusrun", "primusrun") ∈ get_optirun_choices h
   ↔ executable_found h "primusrun" = true) ∧
  (("optirun/virtualgl", "optirun") ∈ get_optirun_choices h
   ↔ executable_found h "optirun" = true) ∧
  (("primus vk", "pvkrun") ∈ get_optirun_choices h
   ↔ executable_found h "pvkrun" = true).
Proof.
  unfold get_optirun_choices.
  destruct (executable_found h "primusrun"), (executable_found h "optirun"),
    (executable_found h "pvkrun");
    cbn [append app];
    (split_and!;
     [ reflexivity
     | repeat first [ apply sublist_nil_l | apply sublist_skip
                    | apply sublist_cons ]
     | split;
       [ intros Hin; apply (bool_decide_pack _) in Hin; by vm_compute in Hin
       | intros Hfound; try discriminate Hfound;
         repeat first [ apply list_elem_of_here
                      | apply list_elem_of_further ] ].. ]).
Qed.

(** * More properties of [with_runner_overrides] *)

(** ** Descriptors without a key *)

Lemma subscript_key_missing d : d !! "option" = None →
  subscript_key d "option" = Raise (KeyError "option").
Proof. unfold subscript_key. by intros ->. Qed.

Lemma override_loop_missing_key ovs od o :
  o ∈ ovs → o !! "option" = None →
  Forall (λ d, d !! "option" = None ∨ ∃ k, d !! "option" = Some (VStr k)) ovs →
  for_each override_step ovs od = Raise (KeyError "option").
Proof.
  intros Hin Ho Hall. revert od.
  induction Hall as [|d ovs Hd _ IH]; intros od.
  - by apply elem_of_nil in Hin.
  - cbn [for_each]. destruct Hd as [Hd|[k Hd]].
    + unfold override_step. by rewrite (subscript_key_missing _ Hd).
    + rewrite (override_step_ok _ _ _ Hd). cbn [mbind result_bind].
      apply IH. apply elem_of_cons in Hin as [->|Hin]; [congruence|done].
Qed.

Lemma index_loop_missing_key l od d :
  d ∈ l → d !! "option" = None →
  Forall (λ d, d !! "option" = None ∨ ∃ k, d !! "option" = Some (VStr k)) l →
  for_each index_step l od = Raise (KeyError "option").
Proof.
  intros Hin Ho Hall. revert od.
  induction Hall as [|d' l Hd _ IH]; intros od.
  - by apply elem_of_nil in Hin.
  - cbn [for_each]. destruct Hd as [Hd|[k Hd]].
    + unfold index_step. by rewrite (subscript_key_missing _ Hd).
    + rewrite (index_step_ok _ _ _ Hd). cbn [mbind result_bind].
      apply IH. apply elem_of_cons in Hin as [->|Hin]; [congruence|done].
Qed.

(** X8.  An override without the ["option"] field makes [with_runner_overrides]
    raise [KeyError], when the base descriptors all carry a key (and the
    overrides that have the field have a string there). *)
Theorem with_runner_overrides_override_without_key imp sys slug rn bks o :
  imp slug = Ok rn → has_keys sys bks →
  o ∈ runner_overrides rn → o !! "option" = None →
  Forall (λ d, d !! "option" = None ∨ ∃ k, d !! "option" = Some (VStr k))
    (runner_overrides rn) →
  with_runner_overrides imp sys slug = Raise (KeyError "option").
Proof.
  intros Himp Hsys Hin Ho Hall.
  rewrite (with_runner_overrides_imported _ _ _ _ Himp).
  destruct (runner_overrides rn) as [|o1 ovs] eqn:Hrn.
  - by apply elem_of_nil in Hin.
  - rewrite merge_options_cons. unfold opts_dict_of.
    destruct (index_loop_ok _ _ [] Hsys) as [od ->]. cbn [mbind result_bind].
    by rewrite (override_loop_missing_key _ od o Hin Ho Hall).
Qed.

Lemma with_runner_overrides_override_without_key_witness :
  with_runner_overrides
    (λ _, Ok (runner_with [descriptor "b" 99; {[ "v" := VInt 4 ]}]))
    [descriptor "a" 1; descriptor "b" 2] "wine"
  = Raise (KeyError "option").
Proof.
  apply (with_runner_overrides_override_without_key
           (λ _, Ok (runner_with [descriptor "b" 99; {[ "v" := VInt 4 ]}]))
           [descriptor "a" 1; descriptor "b" 2] "wine"
           (runner_with [descriptor "b" 99; {[ "v" := VInt 4 ]}])
           ["a"; "b"] {[ "v" := VInt 4 ]}).
  - reflexivity.
  - repeat constructor.
  - apply list_elem_of_further, list_elem_of_here.
  - vm_compute. reflexivity.
  - apply Forall_cons. split; [right; by exists "b"|].
    apply Forall_cons. split; [by left | apply Forall_nil_2].
Defined.

(** X9.  A base descriptor without the ["option"] field goes unnoticed as long
    as the runner has no override, and raises [KeyError] as soon as it has
    one: the base is indexed by key only when there is something to
    merge. *)
Theorem with_runner_overrides_base_without_key imp sys slug rn d :
  imp slug = Ok rn → d ∈ sys → d !! "option" = None →
  Forall (λ d, d !! "option" = None ∨ ∃ k, d !! "option" = Some (VStr k)) sys →
  with_runner_overrides imp sys slug =
  match runner_overrides rn with
  | [] => Ok sys
  | _ :: _ => Raise (KeyError "option")
  end.
Proof.
  intros Himp Hin Hd Hall.
  rewrite (with_runner_overrides_imported _ _ _ _ Himp).
  destruct (runner_overrides rn) as [|o1 ovs]; [done|].
  rewrite merge_options_cons. unfold opts_dict_of.
  by rewrite (index_loop_missing_key _ [] d Hin Hd Hall).
Qed.

Lemma with_runner_overrides_base_without_key_witness :
  with_runner_overrides (λ _, Ok (runner_with [descriptor "b" 99]))
    [descriptor "a" 1; {[ "v" := VInt 2 ]}] "wine"
  = Raise (KeyError "option").
Proof.
  apply (with_runner_overrides_base_without_key
           (λ _, Ok (runner_with [descriptor "b" 99]))
           [descriptor "a" 1; {[ "v" := VInt 2 ]}] "wine"
           (runner_with [descriptor "b" 99]) {[ "v" := VInt 2 ]}).
  - reflexivity.
  - apply list_elem_of_further, list_elem_of_here.
  - vm_compute. reflexivity.
  - apply Forall_cons. split; [right; by exists "a"|].
    apply Forall_cons. split; [by left | apply Forall_nil_2].
Defined.

(** ** A base that repeats a key *)

Lemma index_loop_keys l ks od od' :
  has_keys l ks →
  for_each index_step l od = Ok od' →
  OrderedDict.keys od' =
  (OrderedDict.keys od ++ new_keys (OrderedDict.keys od) ks)%list.
Proof.
  intros Hks. revert od. induction Hks as [|d k l ks Hk _ IH]; intros od Hloop.
  - simpl in Hloop. injection Hloop as <-. by rewrite new_keys_nil, app_nil_r.
  - simpl in Hloop. rewrite (index_step_ok _ _ _ Hk) in Hloop. simpl in Hloop.
    rewrite (IH _ Hloop), od_keys_set, new_keys_cons.
    destruct (decide (k ∈ OrderedDict.keys od)); [done|].
    by rewrite <-app_assoc.
Qed.

Lemma new_keys_first_occurrences ks oks :
  new_keys (first_occurrences ks) oks = new_keys ks oks.
Proof.
  unfold new_keys. f_equal. apply list_filter_iff. intros k.
  by rewrite first_occurrences_elem_of.
Qed.

Lemma new_keys_empty_base ks : new_keys [] ks = first_occurrences ks.
Proof.
  unfold new_keys. f_equal. induction ks as [|k ks IH]; [done|].
  rewrite filter_cons_True by apply not_elem_of_nil. by rewrite IH.
Qed.

(** X10.  With at least one override, the result of [with_runner_overrides] has
    each key once, also when the base repeats keys: a repeated base key keeps
    the position of its first descriptor, and the new keys follow.  The
    result has as many descriptors as there are distinct base keys and
    distinct new keys. *)
Theorem with_runner_overrides_collapses_keys imp sys slug rn bks oks :
  imp slug = Ok rn →
  has_keys sys bks → has_keys (runner_overrides rn) oks →
  runner_overrides rn ≠ [] →
  ∃ r, with_runner_overrides imp sys slug = Ok r ∧
       has_keys r (first_occurrences bks ++ new_keys bks oks)%list ∧
       NoDup (first_occurrences bks ++ new_keys bks oks)%list ∧
       length r = (length (first_occurrences bks)
                   + length (new_keys bks oks))%nat.
Proof.
  intros Himp Hsys Hovs Hne.
  rewrite (with_runner_overrides_imported _ _ _ _ Himp).
  destruct (runner_overrides rn) as [|o ovs]; [done|].
  rewrite merge_options_cons.
  destruct (index_loop_ok _ _ [] Hsys) as [od Hod].
  unfold opts_dict_of. rewrite Hod. cbn [mbind result_bind].
  destruct (override_loop_ok _ _ od Hovs) as [od' Hloop].
  rewrite Hloop. cbn [mbind result_bind]. eexists. split; [done|].
  pose proof (opts_dict_of_invariant _ _ Hod) as [Hkeyed Hnd].
  pose proof (override_loop_keyed _ _ _ Hloop Hkeyed) as Hkeyed'.
  pose proof (override_loop_NoDup _ _ _ Hloop Hnd) as Hnd'.
  pose proof (override_loop_keys _ _ _ _ Hovs Hloop) as Hkeys.
  assert (OrderedDict.keys od = first_occurrences bks) as Hod_keys.
  { rewrite (index_loop_keys _ _ _ _ Hsys Hod).
    change (OrderedDict.keys []) with (@nil string).
    by rewrite new_keys_empty_base. }
  rewrite Hod_keys, new_keys_first_occurrences in Hkeys.
  unfold keyed in Hkeyed'. rewrite Hkeys in Hkeyed', Hnd'.
  split_and!; [done..|].
  by rewrite (has_keys_length _ _ Hkeyed'), length_app.
Qed.

Lemma with_runner_overrides_collapses_keys_witness :
  ∃ r, with_runner_overrides (λ _, Ok (runner_with [descriptor "d" 4]))
         [descriptor "a" 1; descriptor "b" 2; descriptor "a" 3] "wine" = Ok r ∧
       has_keys r (first_occurrences ["a"; "b"; "a"]
                   ++ new_keys ["a"; "b"; "a"] ["d"])%list ∧
       NoDup (first_occurrences ["a"; "b"; "a"]
              ++ new_keys ["a"; "b"; "a"] ["d"])%list ∧
       length r = (length (first_occurrences ["a"; "b"; "a"])
                   + length (new_keys ["a"; "b"; "a"] ["d"]))%nat.
Proof.
  apply (with_runner_overrides_collapses_keys
           (λ _, Ok (runner_with [descriptor "d" 4]))
           [descriptor "a" 1; descriptor "b" 2; descriptor "a" 3] "wine"
           (runner_with [descriptor "d" 4]) ["a"; "b"; "a"] ["d"]).
  - reflexivity.
  - repeat constructor.
  - repeat constructor.
  - discriminate.
Defined.

(** ** The descriptor of each key *)

(** X11.  A key that no override names keeps its descriptor: the result holds
    for it what the base holds (the last base descriptor with that key, or
    none). *)
Theorem with_runner_overrides_other_keys imp sys slug rn bks oks k :
  imp slug = Ok rn →
  has_keys sys bks → has_keys (runner_overrides rn) oks → k ∉ oks →
  ∃ r, with_runner_overrides imp sys slug = Ok r ∧
       descriptor_for k r = descriptor_for k sys.
Proof.
  intros Himp Hsys Hovs Hk.
  rewrite (with_runner_overrides_imported _ _ _ _ Himp).
  destruct (merge_options_ok _ _ _ _ Hsys Hovs) as [r Hr].
  exists r. split; [done|].
  destruct (runner_overrides rn) as [|o ovs]; [by injection Hr as <-|].
  rewrite (merge_options_descriptor_for _ _ _ _ k Hr).
  apply overrides_at_untouched.
  clear Hr. induction Hovs as [|d k' l ks Hd _ IH]; [done|].
  apply not_elem_of_cons in Hk as [Hne Hk].
  cbn [existsb]. rewrite (has_key_eq _ _ _ Hd), bool_decide_false by done.
  by apply IH.
Qed.

Lemma with_runner_overrides_other_keys_witness :
  ∃ r, with_runner_overrides
         (λ _, Ok (runner_with [descriptor "b" 99; descriptor "d" 4]))
         [descriptor "a" 1; descriptor "b" 2] "wine" = Ok r ∧
       descriptor_for "a" r
       = descriptor_for "a" [descriptor "a" 1; descriptor "b" 2].
Proof.
  apply (with_runner_overrides_other_keys
           (λ _, Ok (runner_with [descriptor "b" 99; descriptor "d" 4]))
           [descriptor "a" 1; descriptor "b" 2] "wine"
           (runner_with [descriptor "b" 99; descriptor "d" 4])
           ["a"; "b"] ["b"; "d"]).
  - reflexivity.
  - repeat constructor.
  - repeat constructor.
  - intros Hin. apply (bool_decide_pack _) in Hin. by vm_compute in Hin.
Defined.

(** X12.  Field by field, with overrides that may repeat a key: in the
    descriptor the result holds for a key that some override names, a field
    has the value given by the last override for that key that names the
    field, and otherwise the value of the base descriptor for the key, if
    there is one. *)
Theorem with_runner_overrides_last_override_wins imp sys slug rn bks oks k :
  imp slug = Ok rn →
  has_keys sys bks → has_keys (runner_overrides rn) oks → k ∈ oks →
  ∃ r m, with_runner_overrides imp sys slug = Ok r ∧
         descriptor_for k r = Some m ∧
         ∀ f, m !! f =
              match last_named k f (runner_overrides rn) with
              | Some v => Some v
              | None => default ∅ (descriptor_for k sys) !! f
              end.
Proof.
  intros Himp Hsys Hovs Hk.
  rewrite (with_runner_overrides_imported _ _ _ _ Himp).
  destruct (merge_options_ok _ _ _ _ Hsys Hovs) as [r Hr].
  destruct (runner_overrides rn) as [|o ovs] eqn:Hrn.
  { apply Forall2_nil_inv_l in Hovs as ->. by apply elem_of_nil in Hk. }
  assert (existsb (has_key k) (o :: ovs) = true) as Hex.
  { clear Hr Hrn. induction Hovs as [|d k' l ks Hd _ IH].
    - by apply elem_of_nil in Hk.
    - cbn [existsb]. rewrite (has_key_eq _ _ _ Hd).
      apply elem_of_cons in Hk as [->|Hk].
      + by rewrite bool_decide_true.
      + rewrite IH by done. apply orb_true_r. }
  destruct (overrides_at_is_Some k (o :: ovs) (descriptor_for k sys))
    as [m Hm]; [by right|].
  exists r, m. split; [done|].
  rewrite (merge_options_descriptor_for _ _ _ _ k Hr). split; [done|].
  intros f. pose proof (overrides_at_lookup k f (o :: ovs) (descriptor_for k sys))
    as Hf.
  by rewrite Hm in Hf.
Qed.

Lemma with_runner_overrides_last_override_wins_witness :
  ∃ r m, with_runner_overrides
           (λ _, Ok (runner_with [descriptor "b" 1; descriptor "b" 5]))
           [descriptor "b" 2] "wine" = Ok r ∧
         descriptor_for "b" r = Some m ∧
         ∀ f, m !! f =
              match last_named "b" f
                      (runner_overrides
                         (runner_with [descriptor "b" 1; descriptor "b" 5]))
              with
              | Some v => Some v
              | None => default ∅ (descriptor_for "b" [descriptor "b" 2]) !! f
              end.
Proof.
  apply (with_runner_overrides_last_override_wins
           (λ _, Ok (runner_with [descriptor "b" 1; descriptor "b" 5]))
           [descriptor "b" 2] "wine"
           (runner_with [descriptor "b" 1; descriptor "b" 5])
           ["b"] ["b"; "b"]).
  - reflexivity.
  - repeat constructor.
  - repeat constructor.
  - apply list_elem_of_here.
Defined.

(** ** The list object that is returned *)

Lemma store_merge_options_fresh σ options overrides a lo lb o :
  Store.read_list overrides σ = (σ, Ok (o :: lo)) →
  Store.read_list options σ = (σ, Ok lb) →
  (Store.merge_options options overrides σ).2 = Ok a → σ !! a = None.
Proof.
  intros Hlo Hlb. unfold Store.merge_options.
  rewrite store_bind_run, Hlo, store_bind_run, Hlb, store_bind_run.
  pose proof (preserves_opts_dict_of lb σ) as H1.
  destruct (Store.opts_dict_of lb σ) as [σ1 [od|e]]; [|done].
  rewrite store_bind_run.
  pose proof (preserves_for_each Store.override_step (o :: lo) od
                preserves_override_step σ1) as H2.
  destruct (Store.for_each Store.override_step (o :: lo) od σ1)
    as [σ2 [od'|e]]; [|done].
  cbn [fst] in H1, H2. unfold Store.alloc. cbn [snd]. intros [= <-].
  eapply lookup_weaken_None; [|etrans; done].
  apply not_elem_of_dom, is_fresh.
Qed.

(** X13.  Which list object [with_runner_overrides] returns: the list
    [system_options] itself, with the store untouched, when the runner has
    no override; a list object that did not exist before the call when it
    has one.  In the first case a caller that changes the result changes
    [system_options]. *)
Theorem store_with_runner_overrides_result
    σ imp slug sys base r cls inst a :
  imp slug = Ok r →
  Store.view σ sys = Some base →
  Store.view σ (Store.class_system_options_override r) = Some cls →
  Store.view σ (Store.instance_system_options_override r) = Some inst →
  (Store.with_runner_overrides imp sys slug σ).2 = Ok a →
  match cls, inst with
  | [], [] => a = sys ∧ (Store.with_runner_overrides imp sys slug σ).1 = σ
  | _, _ => σ !! a = None ∧ a ≠ sys
  end.
Proof.
  intros Himp Hsys Hcls Hinst. unfold Store.with_runner_overrides.
  rewrite Himp.
  destruct (read_list_view _ _ _ Hcls) as (lc & Hlc & Hdc).
  destruct (read_list_view _ _ _ Hinst) as (li & Hli & Hdi).
  destruct (read_list_view _ _ _ Hsys) as (lb & Hlb & Hdb).
  assert (is_Some (σ !! sys)) as [x Hx].
  { unfold Store.view in Hsys. by destruct (σ !! sys). }
  rewrite store_bind_run, Hlc.
  destruct lc as [|c lc].
  - injection Hdc as <-. destruct li as [|i li].
    + injection Hdi as <-. unfold Store.merge_options.
      rewrite store_bind_run, Hli. cbn. by intros [= <-].
    + apply dicts_at_cons in Hdi as (d & ds & -> & _ & _).
      intros Ha.
      pose proof (store_merge_options_fresh _ _ _ _ _ _ _ Hli Hlb Ha) as Hnew.
      split; [done | congruence].
  - apply dicts_at_cons in Hdc as (d & ds & -> & _ & _).
    intros Ha.
    pose proof (store_merge_options_fresh _ _ _ _ _ _ _ Hlc Hlb Ha) as Hnew.
    split; [done | congruence].
Qed.

Lemma store_with_runner_overrides_result_witness :
  example_store !! 9%positive = None ∧ 9%positive ≠ 3%positive.
Proof.
  refine (store_with_runner_overrides_result example_store
            (λ _, Ok example_runner) "wine" 3%positive
            [descriptor "a" 1; descriptor "b" 2] example_runner
            [descriptor "b" 99; descriptor "d" 4] [] 9%positive
            eq_refl eq_refl eq_refl eq_refl _).
  vm_compute. reflexivity.
Defined.

(** * More properties of the installer window *)

(** ** [validate_scripts] *)

Section validation.
Import InstallerWindow.

Lemma get_or_empty_fixed script item :
  item ∈ ["description"; "notes"] →
  get_or_empty (fix_script script) item = get_or_empty script item.
Proof.
  intros Hitem. unfold fix_script. cbn [fold_left]. unfold get_or_empty at 1.
  repeat (apply elem_of_cons in Hitem as [->|Hitem]);
    [| |by apply elem_of_nil in Hitem].
  - rewrite lookup_insert_ne, lookup_insert_eq by done.
    unfold get_or_empty. destruct (script !! "description") as [v|]; [|done].
    by destruct (truthy v) eqn:Hv; [rewrite Hv|].
  - rewrite lookup_insert_eq. unfold get_or_empty.
    rewrite lookup_insert_ne by done.
    destruct (script !! "notes") as [v|]; [|done].
    by destruct (truthy v) eqn:Hv; [rewrite Hv|].
Qed.

Lemma fix_script_eq script :
  fix_script script =
  <["notes" := get_or_empty script "notes"]>
    (<["description" := get_or_empty script "description"]> script).
Proof.
  unfold fix_script. cbn [fold_left]. f_equal.
  unfold get_or_empty. by rewrite lookup_insert_ne.
Qed.

Lemma fix_script_idem script : fix_script (fix_script script) = fix_script script.
Proof.
  rewrite (fix_script_eq (fix_script script)).
  rewrite !get_or_empty_fixed
    by (repeat first [apply list_elem_of_here | apply list_elem_of_further]).
  rewrite fix_script_eq. apply map_eq. intros f.
  rewrite !lookup_insert. by repeat case_decide.
Qed.

Lemma check_script_fixed script :
  check_script (fix_script script) = check_script script.
Proof.
  unfold check_script. cbn [for_each].
  by rewrite !fix_script_mandatory
    by (repeat first [apply list_elem_of_here | apply list_elem_of_further]).
Qed.

Lemma validate_loop_idem scripts :
  validate_loop (validate_loop scripts).1 = validate_loop scripts.
Proof.
  induction scripts as [|s scripts IH]; [done|].
  cbn [validate_loop]. rewrite check_script_fixed.
  destruct (check_script s) as [[]|e] eqn:Hs.
  - destruct (validate_loop scripts) as [scripts' r] eqn:Hloop.
    cbn [fst validate_loop]. rewrite fix_script_idem, check_script_fixed, Hs.
    cbn [fst] in IH. by rewrite IH.
  - cbn [fst validate_loop]. by rewrite fix_script_idem, check_script_fixed, Hs.
Qed.

(** X15.  Validating again changes nothing: [validate_scripts] on the window it
    leaves gives the same window and the same outcome, whether it returned
    or raised. *)
Theorem validate_scripts_idempotent w :
  validate_scripts (validate_scripts w).1 = validate_scripts w.
Proof.
  unfold validate_scripts at 2 3.
  destruct (installers w) as [|s scripts] eqn:Hw.
  - cbn [fst]. unfold validate_scripts. by rewrite Hw.
  - pose proof (validate_loop_idem (s :: scripts)) as Hidem.
    destruct (validate_loop (s :: scripts)) as [scripts' r] eqn:Hloop.
    cbn [fst] in *. unfold validate_scripts. cbn [installers with_installers].
    destruct scripts' as [|s' scripts''].
    { cbn [validate_loop] in Hloop.
      destruct (check_script (fix_script s)); [|done].
      by destruct (validate_loop scripts). }
    rewrite Hidem. by destruct w.
Qed.

Lemma validate_loop_ok scripts :
  (validate_loop scripts).2 = Ok tt ↔
  Forall (λ s, ∀ item, item ∈ ["name"; "runner"; "version"]
                       → is_Some (s !! item)) scripts.
Proof.
  induction scripts as [|s scripts IH]; [by split; [constructor|]|].
  cbn [validate_loop]. pose proof (check_script_spec (fix_script s)) as Hs.
  rewrite Forall_cons. destruct (check_script (fix_script s)) as [[]|e].
  - destruct (validate_loop scripts) as [scripts' r]. cbn [snd] in *.
    rewrite IH. split; [|by intros [_ ?]]. intros Hall. split; [|done].
    intros item Hitem. rewrite <-fix_script_mandatory by done. by apply Hs.
  - destruct Hs as (item & Hitem & Hnone & ->). cbn [snd].
    split; [done|]. intros [Hall _]. destruct (Hall item Hitem) as [v Hv].
    rewrite fix_script_mandatory in Hnone by done. congruence.
Qed.

Lemma validate_loop_fst_ok scripts :
  (validate_loop scripts).2 = Ok tt →
  (validate_loop scripts).1 = fix_script <$> scripts.
Proof.
  induction scripts as [|s scripts IH]; [done|]. cbn [validate_loop].
  destruct (check_script (fix_script s)) as [[]|e]; [|done].
  destruct (validate_loop scripts) as [scripts' r]. cbn [fst snd] in *.
  intros Hr. by rewrite IH.
Qed.

Lemma validate_scripts_returns w :
  (validate_scripts w).2 = Ok tt ↔
  installers w ≠ [] ∧
  Forall (λ s, ∀ item, item ∈ ["name"; "runner"; "version"]
                       → is_Some (s !! item)) (installers w).
Proof.
  rewrite validate_scripts_snd.
  destruct (installers w) as [|s scripts].
  - split; [done|]. by intros [? _].
  - rewrite validate_loop_ok. by split; [|intros [_ ?]].
Qed.

Lemma validate_scripts_fixes w :
  (validate_scripts w).2 = Ok tt →
  (validate_scripts w).1 = with_installers w (fix_script <$> installers w).
Proof.
  rewrite validate_scripts_snd. unfold validate_scripts.
  destruct (installers w) as [|s scripts]; [done|].
  intros Hall. pose proof (validate_loop_fst_ok _ Hall) as Hfst.
  destruct (validate_loop (s :: scripts)) as [scripts' r].
  cbn [fst] in *. by rewrite Hfst.
Qed.

Lemma fix_script_filled_in script : filled_in script (fix_script script).
Proof.
  intros field. rewrite fix_script_eq. unfold get_or_empty.
  case_bool_decide as Hfield.
  - destruct Hfield as [->| ->].
    + rewrite lookup_insert_ne by done. rewrite lookup_insert_eq.
      by destruct (script !! "description").
    + rewrite lookup_insert_eq. by destruct (script !! "notes").
  - rewrite !lookup_insert_ne; [done|intros <-; apply Hfield; auto..].
Qed.

Lemma fix_scripts_filled_in scripts :
  Forall2 filled_in scripts (fix_script <$> scripts).
Proof.
  apply Forall2_fmap_r, Forall_Forall2_diag, Forall_forall.
  intros script _. apply fix_script_filled_in.
Qed.

(** X16.  [validate_scripts] returns normally exactly when there is a script and
    every script has the three mandatory fields; then every script has got
    its [description] and [notes] (the value it had if that was true, the
    empty string otherwise), its other fields are as they were, and nothing
    else of the window has changed. *)
Theorem validate_scripts_ok w :
  ((validate_scripts w).2 = Ok tt ↔
   installers w ≠ [] ∧
   Forall (λ s, ∀ item, item ∈ ["name"; "runner"; "version"]
                        → is_Some (s !! item)) (installers w)) ∧
  ((validate_scripts w).2 = Ok tt →
   Forall2 filled_in (installers w) (installers (validate_scripts w).1) ∧
   with_installers (validate_scripts w).1 (installers w) = w).
Proof.
  split; [apply validate_scripts_returns|].
  intros Hok. rewrite (validate_scripts_fixes w Hok).
  cbn [installers with_installers].
  split; [apply fix_scripts_filled_in|by destruct w].
Qed.

Lemma validate_scripts_ok_witness :
  let w := new_window
             [ {[ "name" := VStr "Quake"; "runner" := VStr "linux";
                  "version" := VStr "GOG"; "notes" := VNone ]} ] in
  Forall2 filled_in (installers w) (installers (validate_scripts w).1) ∧
  with_installers (validate_scripts w).1 (installers w) = w.
Proof.
  intros w. apply (proj2 (validate_scripts_ok w)). vm_compute. reflexivity.
Defined.



End validation.

(** ** [choose_installer] and the search of [on_installer_selected] *)

Section choosing.
Import InstallerWindow InstallerFlow.

(** X18.  With scripts that all have the mandatory fields, [choose_installer]
    returns normally: the title names the first script, and an installer
    picker over all the scripts, with their [description] and [notes] filled
    in (the value they had if that was true, the empty string otherwise),
    is packed after what the window already shows. *)
Theorem choose_installer_ok gtk_safe w s scripts name :
  installers w = s :: scripts →
  Forall (λ s, ∀ item, item ∈ ["name"; "runner"; "version"]
                       → is_Some (s !! item)) (s :: scripts) →
  s !! "name" = Some name →
  ∃ w' scripts',
    choose_installer gtk_safe w = (w', Ok tt) ∧
    title_markup w' = "<b>Install " +:+ gtk_safe name +:+ "</b>" ∧
    Forall2 filled_in (s :: scripts) scripts' ∧
    installers w' = scripts' ∧
    widget_box w' = (widget_box w ++ [InstallerPicker scripts'])%list.
Proof.
  intros Hw Hall Hname.
  pose proof (validate_scripts_returns w) as Hiff.
  pose proof (validate_scripts_fixes w) as Hfst.
  assert ((validate_scripts w).2 = Ok tt) as Hok.
  { apply Hiff. rewrite Hw. by split. }
  specialize (Hfst Hok). unfold choose_installer.
  destruct (validate_scripts w) as [w1 r]. cbn [fst snd] in *. subst r w1.
  cbn [installers with_installers]. rewrite Hw, fmap_cons.
  rewrite fix_script_mandatory by apply list_elem_of_here. rewrite Hname.
  eexists _, (fix_script <$> s :: scripts). split; [done|].
  split_and!; [done|apply fix_scripts_filled_in|done..].
Qed.

Lemma choose_installer_ok_witness :
  let script : pydict :=
    {[ "name" := VStr "Quake"; "runner" := VStr "linux";
       "version" := VStr "GOG" ]} in
  ∃ w' scripts',
    choose_installer (λ _, "Quake") (new_window [script]) = (w', Ok tt) ∧
    title_markup w' = "<b>Install " +:+ "Quake" +:+ "</b>" ∧
    Forall2 filled_in [script] scripts' ∧
    installers w' = scripts' ∧
    widget_box w'
    = (widget_box (new_window [script]) ++ [InstallerPicker scripts'])%list.
Proof.
  intros script.
  apply (choose_installer_ok (λ _, "Quake") (new_window [script])
           script [] (VStr "Quake")).
  - reflexivity.
  - apply Forall_cons. split; [|apply Forall_nil_2].
    intros item Hitem.
    repeat (apply elem_of_cons in Hitem as [->|Hitem];
            [vm_compute; by eexists|]).
    by apply elem_of_nil in Hitem.
  - reflexivity.
Defined.

Lemma select_loop scripts installer_version script :
  Forall (λ s, is_Some (s !! "version")) scripts →
  for_each
    (λ script _script,
       match _script !! "version" with
       | None => Raise (KeyError "version")
       | Some v =>
           Ok (if eq_str v installer_version then Some _script else script)
       end)
    scripts script
  = Ok (match last (filter (λ s, has_version installer_version s) scripts) with
        | Some s => Some s
        | None => script
        end).
Proof.
  intros Hall. revert script.
  induction Hall as [|s scripts [v Hv] _ IH]; intros script; [done|].
  cbn [for_each]. rewrite Hv. cbn [mbind result_bind]. rewrite IH.
  assert (has_version installer_version s = eq_str v installer_version) as Hs
    by (unfold has_version; by rewrite Hv).
  destruct (eq_str v installer_version).
  - rewrite filter_cons_True by (by rewrite Hs).
    rewrite last_cons. by destruct (last _).
  - by rewrite filter_cons_False by (rewrite Hs; exact id).
Qed.

(** X19.  When every script has a version, the search of [on_installer_selected]
    returns the last script of the list whose version is the one asked for,
    and [None] when there is none. *)
Theorem select_script_last scripts installer_version :
  Forall (λ s, is_Some (s !! "version")) scripts →
  select_script scripts installer_version
  = Ok (last (filter (λ s, has_version installer_version s) scripts)).
Proof.
  intros Hall. unfold select_script. rewrite select_loop by done.
  by destruct (last _).
Qed.

Lemma select_script_last_witness :
  select_script
    [ {[ "version" := VStr "GOG"; "runner" := VStr "linux" ]};
      {[ "version" := VStr "Steam" ]};
      {[ "version" := VStr "GOG"; "runner" := VStr "wine" ]} ] "GOG"
  = Ok (last (filter (λ s, has_version "GOG" s)
                [ {[ "version" := VStr "GOG"; "runner" := VStr "linux" ]};
                  {[ "version" := VStr "Steam" ]};
                  {[ "version" := VStr "GOG"; "runner" := VStr "wine" ]} ])).
Proof.
  apply (select_script_last
           [ {[ "version" := VStr "GOG"; "runner" := VStr "linux" ]};
             {[ "version" := VStr "Steam" ]};
             {[ "version" := VStr "GOG"; "runner" := VStr "wine" ]} ] "GOG").
  repeat (apply Forall_cons; split; [vm_compute; by eexists|]).
  apply Forall_nil_2.
Defined.

(** X20.  After [validate_scripts] has returned normally the search never
    raises: it returns a script of the window that has the version asked
    for, or [None] when no script of the window has it. *)
Theorem select_script_validated w installer_version :
  (validate_scripts w).2 = Ok tt →
  ∃ res,
    select_script (installers (validate_scripts w).1) installer_version
    = Ok res ∧
    match res with
    | Some s => s ∈ installers (validate_scripts w).1 ∧
                s !! "version" = Some (VStr installer_version)
    | None => Forall (λ s, s !! "version" ≠ Some (VStr installer_version))
                (installers (validate_scripts w).1)
    end.
Proof.
  intros Hok. pose proof (validate_scripts_returns w) as Hiff.
  pose proof (validate_scripts_fixes w) as Hfst.
  rewrite (Hfst Hok). cbn [installers with_installers].
  apply Hiff in Hok as [_ Hall].
  assert (Forall (λ s, is_Some (s !! "version")) (fix_script <$> installers w))
    as Hversion.
  { apply Forall_fmap. eapply Forall_impl; [exact Hall|]. intros s Hs.
    change (is_Some (fix_script s !! "version")).
    rewrite fix_script_mandatory
      by (do 2 apply list_elem_of_further; apply list_elem_of_here).
    apply Hs. do 2 apply list_elem_of_further. apply list_elem_of_here. }
  exists (last (filter (λ s, has_version installer_version s)
                  (fix_script <$> installers w))).
  split; [unfold select_script; rewrite select_loop by done;
          by destruct (last _)|].
  set (l := fix_script <$> installers w).
  assert (∀ s, has_version installer_version s
               ↔ s !! "version" = Some (VStr installer_version)) as Hhas.
  { intros s. unfold has_version, eq_str.
    destruct (s !! "version") as [v|]; [|by split].
    destruct v; try (by split).
    rewrite bool_decide_spec. split; [by intros ->|by intros [= ->]]. }
  destruct (last (filter (λ s, has_version installer_version s) l))
    as [s|] eqn:Hlast.
  - apply last_Some_elem_of, list_elem_of_filter in Hlast as [Hs Hin].
    split; [done|]. by apply Hhas.
  - apply last_None in Hlast. apply Forall_forall. intros s Hin Hs.
    apply Hhas in Hs.
    assert (s ∈ filter (λ s, has_version installer_version s) l) as Hf
      by by apply list_elem_of_filter.
    rewrite Hlast in Hf. by apply elem_of_nil in Hf.
Qed.

Lemma select_script_validated_witness :
  let w := new_window
             [ {[ "name" := VStr "Quake"; "runner" := VStr "linux";
                  "version" := VStr "GOG" ]} ] in
  ∃ res,
    select_script (installers (validate_scripts w).1) "GOG" = Ok res ∧
    match res with
    | Some s => s ∈ installers (validate_scripts w).1 ∧
                s !! "version" = Some (VStr "GOG")
    | None => Forall (λ s, s !! "version" ≠ Some (VStr "GOG"))
                (installers (validate_scripts w).1)
    end.
Proof.
  intros w. apply (select_script_validated w "GOG"). vm_compute. reflexivity.
Defined.

End choosing.

(** ** The extras picker *)

Section extras.
Import InstallerFlow.

Lemma refresh_snd h : (refresh h).2 = h.2.
Proof. done. Qed.

Lemma refresh_invariant h :
  selected (refresh h).1 = forallb selected (refresh h).2 ∧
  inconsistent (refresh h).1 = existsb selected (refresh h).2.
Proof. done. Qed.

Lemma toggled_extra_children model i j heading extras extra :
  model !! i = Some (heading, extras) → extras !! j = Some extra →
  ∃ model',
    on_extra_toggled (ExtraPath i j) model = Ok model' ∧
    model'.*2 = <[i := <[j := toggle extra]> extras]> (model.*2) ∧
    (λ h, (row_id h.1, row_label h.1)) <$> model'
    = (λ h, (row_id h.1, row_label h.1)) <$> model.
Proof.
  intros Hi Hj. unfold on_extra_toggled. unfold store in *. rewrite Hi, Hj.
  eexists. split; [done|]. split.
  - rewrite <-list_fmap_compose.
    rewrite (list_fmap_ext (snd ∘ refresh) snd _) by done.
    by rewrite list_fmap_insert.
  - rewrite <-list_fmap_compose.
    rewrite (list_fmap_ext _ (λ h, (row_id h.1, row_label h.1)) _) by done.
    rewrite list_fmap_insert. cbn [fst]. apply list_insert_id.
    by rewrite list_lookup_fmap, Hi.
Qed.

Lemma forallb_selected (l : list row) :
  forallb selected l = true ↔ ∀ e, e ∈ l → selected e = true.
Proof.
  induction l as [|x l IH]; cbn [forallb].
  - split; [|done]. by intros _ e ?%elem_of_nil.
  - rewrite andb_true_iff, IH. split.
    + intros [Hx Hl] e [->|He]%elem_of_cons; [done|by apply Hl].
    + intros Hall. split; [apply Hall, list_elem_of_here|].
      intros e He. by apply Hall, list_elem_of_further.
Qed.

Lemma existsb_selected (l : list row) :
  existsb selected l = true ↔ ∃ e, e ∈ l ∧ selected e = true.
Proof.
  induction l as [|x l IH]; cbn [existsb].
  - split; [done|]. by intros (e & ?%elem_of_nil & _).
  - rewrite orb_true_iff, IH. split.
    + intros [Hx|(e & He & Hsel)].
      * exists x. split; [apply list_elem_of_here|done].
      * exists e. split; [by apply list_elem_of_further|done].
    + intros (e & [->|He]%elem_of_cons & Hsel); [by left|].
      right. by exists e.
Qed.

(** X21.  Toggling an extra flips the selection of that row, clears its
    inconsistent mark, and changes no other extra; after it every source
    row is selected exactly when none of its extras is unselected, and
    marked inconsistent exactly when one of its extras is selected (also
    when all are); ids and labels stay. *)
Theorem on_extra_toggled_extra model i j heading extras extra :
  model !! i = Some (heading, extras) → extras !! j = Some extra →
  ∃ model' extra',
    on_extra_toggled (ExtraPath i j) model = Ok model' ∧
    selected extra' = negb (selected extra) ∧
    inconsistent extra' = false ∧
    row_id extra' = row_id extra ∧
    row_label extra' = row_label extra ∧
    model'.*2 = <[i := <[j := extra']> extras]> (model.*2) ∧
    Forall (λ h, (selected h.1 = true
                  ↔ ∀ e, e ∈ h.2 → selected e = true) ∧
                 (inconsistent h.1 = true
                  ↔ ∃ e, e ∈ h.2 ∧ selected e = true)) model' ∧
    (λ h, (row_id h.1, row_label h.1)) <$> model'
    = (λ h, (row_id h.1, row_label h.1)) <$> model.
Proof.
  intros Hi Hj. unfold on_extra_toggled. unfold store in *. rewrite Hi, Hj.
  eexists _, (toggle extra). split; [done|]. split_and!; [done..| | |].
  - rewrite <-list_fmap_compose.
    rewrite (list_fmap_ext (snd ∘ refresh) snd _) by done.
    by rewrite list_fmap_insert.
  - apply Forall_fmap, Forall_forall. intros h _.
    split; [apply (forallb_selected h.2)|apply (existsb_selected h.2)].
  - rewrite <-list_fmap_compose.
    rewrite (list_fmap_ext _ (λ h, (row_id h.1, row_label h.1)) _) by done.
    rewrite list_fmap_insert. cbn [fst]. apply list_insert_id.
    by rewrite list_lookup_fmap, Hi.
Qed.

Lemma on_extra_toggled_extra_witness :
  let unselected s := {| selected := false; inconsistent := false;
                         row_id := Some s; row_label := s |} in
  let heading := {| selected := false; inconsistent := false;
                    row_id := None; row_label := "GOG" |} in
  let model := [(heading, [unselected "manual"; unselected "soundtrack"])] in
  ∃ model' extra',
    on_extra_toggled (ExtraPath 0 1) model = Ok model' ∧
    selected extra' = negb (selected (unselected "soundtrack")) ∧
    inconsistent extra' = false ∧
    row_id extra' = row_id (unselected "soundtrack") ∧
    row_label extra' = row_label (unselected "soundtrack") ∧
    model'.*2
    = <[0 := <[1 := extra']>
               [unselected "manual"; unselected "soundtrack"]]> (model.*2) ∧
    Forall (λ h, (selected h.1 = true
                  ↔ ∀ e, e ∈ h.2 → selected e = true) ∧
                 (inconsistent h.1 = true
                  ↔ ∃ e, e ∈ h.2 ∧ selected e = true)) model' ∧
    (λ h, (row_id h.1, row_label h.1)) <$> model'
    = (λ h, (row_id h.1, row_label h.1)) <$> model.
Proof.
  intros unselected heading model.
  apply (on_extra_toggled_extra model 0 1 heading
           [unselected "manual"; unselected "soundtrack"]
           (unselected "soundtrack")); reflexivity.
Defined.

(** X22.  Toggling a source row that has extras flips the selection of the
    source row, clears its inconsistent mark, and gives each of its extras
    the new selection of the source; it changes nothing else of the source
    row or of its extras, and no other source. *)
Theorem on_extra_toggled_heading model i heading extras :
  model !! i = Some (heading, extras) → extras ≠ [] →
  ∃ model' heading' extras',
    on_extra_toggled (HeadingPath i) model = Ok model' ∧
    model' !! i = Some (heading', extras') ∧
    selected heading' = negb (selected heading) ∧
    inconsistent heading' = false ∧
    row_id heading' = row_id heading ∧
    row_label heading' = row_label heading ∧
    Forall (λ e, selected e = negb (selected heading)) extras' ∧
    (λ e, (inconsistent e, row_id e, row_label e)) <$> extras'
    = (λ e, (inconsistent e, row_id e, row_label e)) <$> extras ∧
    ∀ i', i' ≠ i → model' !! i' = model !! i'.
Proof.
  intros Hi Hne. unfold on_extra_toggled. unfold store in *. rewrite Hi.
  destruct extras as [|e extras]; [done|].
  eexists _, (toggle heading), _. split; [done|]. split_and!; [|done..| | |].
  - apply list_lookup_insert_eq. by eapply lookup_lt_Some.
  - apply Forall_fmap, Forall_forall. by intros e' _.
  - rewrite <-list_fmap_compose. by apply list_fmap_ext.
  - intros i' Hi'. by apply list_lookup_insert_ne.
Qed.

Lemma on_extra_toggled_heading_witness :
  let unselected s := {| selected := false; inconsistent := false;
                         row_id := Some s; row_label := s |} in
  let heading := {| selected := false; inconsistent := true;
                    row_id := None; row_label := "GOG" |} in
  let model := [(heading, [unselected "manual"; unselected "soundtrack"])] in
  ∃ model' heading' extras',
    on_extra_toggled (HeadingPath 0) model = Ok model' ∧
    model' !! 0 = Some (heading', extras') ∧
    selected heading' = negb (selected heading) ∧
    inconsistent heading' = false ∧
    row_id heading' = row_id heading ∧
    row_label heading' = row_label heading ∧
    Forall (λ e, selected e = negb (selected heading)) extras' ∧
    (λ e, (inconsistent e, row_id e, row_label e)) <$> extras'
    = (λ e, (inconsistent e, row_id e, row_label e))
        <$> [unselected "manual"; unselected "soundtrack"] ∧
    ∀ i', i' ≠ 0 → model' !! i' = model !! i'.
Proof.
  intros unselected heading model.
  apply (on_extra_toggled_heading model 0 heading
           [unselected "manual"; unselected "soundtrack"]);
    [reflexivity | discriminate].
Defined.

(** X23.  A source row without extras ends selected and not inconsistent
    whenever it is toggled, whatever it was before: it cannot be
    unselected again. *)
Theorem on_extra_toggled_empty_heading model i heading :
  model !! i = Some (heading, []) →
  ∃ model' heading',
    on_extra_toggled (HeadingPath i) model = Ok model' ∧
    model' !! i = Some (heading', []) ∧
    selected heading' = true ∧ inconsistent heading' = false.
Proof.
  intros Hi. unfold on_extra_toggled. unfold store in *. rewrite Hi.
  eexists _, _. split; [done|]. split_and!.
  - rewrite list_lookup_fmap, list_lookup_insert_eq
      by by eapply lookup_lt_Some.
    done.
  - done.
  - done.
Qed.

Lemma on_extra_toggled_empty_heading_witness :
  let heading := {| selected := true; inconsistent := false;
                    row_id := None; row_label := "GOG" |} in
  ∃ model' heading',
    on_extra_toggled (HeadingPath 0) [(heading, [])] = Ok model' ∧
    model' !! 0 = Some (heading', []) ∧
    selected heading' = true ∧ inconsistent heading' = false.
Proof.
  intros heading.
  apply (on_extra_toggled_empty_heading [(heading, [])] 0 heading).
  reflexivity.
Defined.

Lemma save_extra_elem_of r s :
  s ∈ save_extra r ↔
  s ≠ EmptyString ∧ selected r = true ∧ row_id r = Some s.
Proof.
  unfold save_extra. destruct (row_id r) as [id_|].
  - destruct (selected r); cbn.
    + destruct id_ as [|c id_]; cbn.
      * rewrite elem_of_nil. split; [done|]. intros (Hs & _ & [= <-]). done.
      * rewrite list_elem_of_singleton.
        split; [by intros ->|by intros (_ & _ & [= ->])].
    + rewrite elem_of_nil. split; [done|]. by intros (_ & ? & _).
  - rewrite elem_of_nil. split; [done|]. by intros (_ & _ & ?).
Qed.

Lemma selected_extras_children model :
  Forall (λ h, row_id h.1 = None) model →
  selected_extras model = model.*2 ≫= (λ extras, extras ≫= save_extra).
Proof.
  unfold selected_extras, store in *.
  induction 1 as [|h model Hh _ IH]; [done|].
  rewrite fmap_cons. cbn [mbind list_bind]. rewrite IH. f_equal.
  unfold save_extra at 1. by rewrite Hh.
Qed.

(** X24.  In a store whose source rows carry no id, as [show_extras] builds it,
    what [on_extras_confirmed] hands to the interpreter is made of the ids
    of the selected extras: an id is in it exactly when it is not empty and
    is the id of a selected extra.  Source rows never contribute. *)
Theorem selected_extras_elem_of model s :
  Forall (λ h, row_id h.1 = None) model →
  (s ∈ selected_extras model ↔
   s ≠ EmptyString ∧
   ∃ h e, h ∈ model ∧ e ∈ h.2 ∧ selected e = true ∧ row_id e = Some s).
Proof.
  unfold store in *.
  intros Hmodel. rewrite selected_extras_children by done.
  rewrite list_elem_of_bind. split.
  - intros (extras & (e & He & Hin)%list_elem_of_bind
                   & (h & -> & Hh)%list_elem_of_fmap).
    apply save_extra_elem_of in He as (Hs & Hsel & Hid). eauto 10.
  - intros (Hs & h & e & Hh & He & Hsel & Hid).
    exists h.2. split; [|by apply list_elem_of_fmap_2].
    apply list_elem_of_bind. exists e. split; [|done].
    by apply save_extra_elem_of.
Qed.

Lemma selected_extras_elem_of_witness :
  let row b s := {| selected := b; inconsistent := false;
                    row_id := s; row_label := "row" |} in
  let model := [(row true None, [row true (Some "manual");
                                 row false (Some "soundtrack")])] in
  "manual" ∈ selected_extras model ↔
  "manual" ≠ EmptyString ∧
  ∃ h e, h ∈ model ∧ e ∈ h.2 ∧ selected e = true ∧ row_id e = Some "manual".
Proof.
  intros row model. apply (selected_extras_elem_of model "manual").
  repeat constructor.
Defined.

Lemma list_bind_insert_same {A B} (f : A → list B) (l : list A) i x y :
  l !! i = Some x → f y = f x → <[i := y]> l ≫= f = l ≫= f.
Proof.
  revert i. induction l as [|a l IH]; intros [|i] Hi Hf; try done.
  - injection Hi as ->. cbn. by rewrite Hf.
  - cbn. f_equal. by apply IH.
Qed.

Lemma save_extra_toggle_toggle e : save_extra (toggle (toggle e)) = save_extra e.
Proof. unfold save_extra, toggle. cbn. by rewrite negb_involutive. Qed.

(** X25.  Toggling the same extra twice gives back the selection: in a store
    whose source rows carry no id, the ids handed to the interpreter are the
    same as before the two toggles. *)
Theorem on_extra_toggled_twice model i j heading extras extra :
  Forall (λ h, row_id h.1 = None) model →
  model !! i = Some (heading, extras) → extras !! j = Some extra →
  ∃ model1 model2,
    on_extra_toggled (ExtraPath i j) model = Ok model1 ∧
    on_extra_toggled (ExtraPath i j) model1 = Ok model2 ∧
    selected_extras model2 = selected_extras model.
Proof.
  unfold store in *.
  intros Hmodel Hi Hj.
  destruct (toggled_extra_children model i j heading extras extra Hi Hj)
    as (model1 & H1 & Hkids1 & Hids1).
  unfold store in *.
  assert (∃ heading1,
            model1 !! i = Some (heading1, <[j := toggle extra]> extras))
    as [heading1 Hi1].
  { assert (model1.*2 !! i = Some (<[j := toggle extra]> extras)) as Hl.
    { rewrite Hkids1. apply list_lookup_insert_eq.
      rewrite length_fmap. by eapply lookup_lt_Some. }
    rewrite list_lookup_fmap in Hl.
    destruct (model1 !! i) as [[h1 k1]|]; [|done].
    injection Hl as ->. by eexists. }
  assert (<[j := toggle extra]> extras !! j = Some (toggle extra)) as Hj1.
  { apply list_lookup_insert_eq. by eapply lookup_lt_Some. }
  destruct (toggled_extra_children model1 i j _ _ _ Hi1 Hj1)
    as (model2 & H2 & Hkids2 & Hids2).
  unfold store in *.
  exists model1, model2. split_and!; [done..|].
  assert (∀ m : list (row * list row),
            (λ h, (row_id h.1, row_label h.1)) <$> m
            = (λ h, (row_id h.1, row_label h.1)) <$> model →
            Forall (λ h, row_id h.1 = None) m) as Hno_id.
  { intros m Hm. apply Forall_lookup. intros k h Hk.
    assert (((λ h, (row_id h.1, row_label h.1)) <$> model) !! k
            = Some (row_id h.1, row_label h.1)) as Hk'
      by by rewrite <-Hm, list_lookup_fmap, Hk.
    rewrite list_lookup_fmap in Hk'.
    destruct (model !! k) as [h'|] eqn:Hh'; [|done].
    injection Hk' as Hid _. rewrite <-Hid.
    by apply (Forall_lookup_1 _ _ _ _ Hmodel Hh'). }
  rewrite !selected_extras_children by (try done; apply Hno_id; congruence).
  rewrite Hkids2, Hkids1, list_insert_insert_eq.
  apply list_bind_insert_same with (x := extras).
  - by rewrite list_lookup_fmap, Hi.
  - rewrite list_insert_insert_eq.
    apply list_bind_insert_same with (x := extra); [done|].
    apply save_extra_toggle_toggle.
Qed.

Lemma on_extra_toggled_twice_witness :
  let unselected s := {| selected := false; inconsistent := false;
                         row_id := Some s; row_label := s |} in
  let heading := {| selected := false; inconsistent := false;
                    row_id := None; row_label := "GOG" |} in
  let model := [(heading, [unselected "manual"; unselected "soundtrack"])] in
  ∃ model1 model2,
    on_extra_toggled (ExtraPath 0 1) model = Ok model1 ∧
    on_extra_toggled (ExtraPath 0 1) model1 = Ok model2 ∧
    selected_extras model2 = selected_extras model.
Proof.
  intros unselected heading model.
  apply (on_extra_toggled_twice model 0 1 heading
           [unselected "manual"; unselected "soundtrack"]
           (unselected "soundtrack")); [|reflexivity..].
  repeat constructor.
Defined.

End extras.

(** ** Cancelling and closing *)

Section cancelling.
Import InstallerFlow.

(** Closes a goal from a membership in an explicit list that holds none
    of the elements asked for. *)
Ltac absurd_elem_of H :=
  repeat (apply elem_of_cons in H as [H|H]; [discriminate H|]);
  by apply elem_of_nil in H.

(** X26.  Game files are removed only from a place [is_removeable] accepts:
    whenever [confirm_cancel] or [on_destroy] asks the interpreter to revert
    with the game directory removed, the interpreter has a target path that
    is not empty and that [is_removeable] accepts. *)
Theorem revert_removes_only_removeable is_removeable u s :
  Revert true ∈ (confirm_cancel is_removeable u s).1 ∨
  Revert true ∈ (on_destroy is_removeable u s).1 →
  ∃ it p, the_interpreter s = Some it ∧ target_path it = Some p ∧
          p ≠ EmptyString ∧ is_removeable p = true.
Proof.
  assert (Revert true ∈ (confirm_cancel is_removeable u s).1 →
          ∃ it p, the_interpreter s = Some it ∧ target_path it = Some p ∧
                  p ≠ EmptyString ∧ is_removeable p = true) as Hconfirm.
  { unfold confirm_cancel, checkbox_offered.
    destruct (answers_yes u); cbn [negb fst]; [|by intros ?%elem_of_nil].
    destruct (the_interpreter s) as [it|].
    - destruct (target_path it) as [p|] eqn:Hp.
      + destruct (str_truthy p) eqn:Hs, (is_removeable p) eqn:Hr; cbn [andb].
        * intros _. exists it, p. split_and!; [done..| |done].
          by apply str_truthy_nonempty.
        * destruct (cancel_files_func s); cbn;
            intros Hin; absurd_elem_of Hin.
        * destruct (cancel_files_func s); cbn;
            intros Hin; absurd_elem_of Hin.
        * destruct (cancel_files_func s); cbn;
            intros Hin; absurd_elem_of Hin.
      + destruct (cancel_files_func s); cbn;
          intros Hin; absurd_elem_of Hin.
    - destruct (cancel_files_func s); cbn;
        intros Hin; absurd_elem_of Hin. }
  intros [Hin|Hin]; [by apply Hconfirm|].
  unfold on_destroy in Hin. destruct (install_in_progress s).
  - apply Hconfirm. destruct (confirm_cancel is_removeable u s) as [eff []];
      exact Hin.
  - destruct (the_interpreter s); cbn in Hin;
      absurd_elem_of Hin.
Qed.

Lemma revert_removes_only_removeable_witness :
  let s := {| install_in_progress := true;
              the_interpreter := Some {| target_path := Some "/home/u/Games/q";
                                         game_dir_created := true |};
              cancel_files_func := true |} in
  ∃ it p, the_interpreter s = Some it ∧ target_path it = Some p ∧
          p ≠ EmptyString ∧ (λ _ : string, true) p = true.
Proof.
  intros s.
  apply (revert_removes_only_removeable (λ _, true)
           {| answers_yes := true; leaves_checkbox := λ b, b |} s).
  left. vm_compute.
  apply list_elem_of_further, list_elem_of_here.
Defined.

(** X27.  [on_destroy] destroys the window exactly when no installation is in
    progress or the user confirms the cancellation; it returns [True]
    exactly when an installation is in progress and the user does not
    confirm, and then it has done nothing. *)
Theorem on_destroy_destroys is_removeable u s :
  (Destroy ∈ (on_destroy is_removeable u s).1 ↔
   install_in_progress s = false ∨ answers_yes u = true) ∧
  ((on_destroy is_removeable u s).2 = true ↔
   install_in_progress s = true ∧ answers_yes u = false) ∧
  ((on_destroy is_removeable u s).2 = true →
   (on_destroy is_removeable u s).1 = []).
Proof.
  unfold on_destroy, confirm_cancel.
  destruct (install_in_progress s), (answers_yes u), (the_interpreter s),
    (cancel_files_func s); cbn;
    (split_and!;
     [ split;
       [ intros H; try (by left); try (by right); absurd_elem_of H
       | intros [H|H]; try discriminate H;
         repeat first [apply list_elem_of_here | apply list_elem_of_further] ]
     | split;
       [ intros H; try discriminate H; by split
       | intros [H1 H2]; try discriminate H1; try discriminate H2; done ]
     | intros H; try discriminate H; done ]).
Qed.

(** X28.  When the user confirms, [confirm_cancel] stops the downloads first (if
    a files screen has registered its [stop_all]), then has the interpreter
    revert and clean up (if there is one), and destroys the window last. *)
Theorem confirm_cancel_order is_removeable u s :
  answers_yes u = true →
  (cancel_files_func s = true →
   head (confirm_cancel is_removeable u s).1 = Some CancelFiles) ∧
  (the_interpreter s ≠ None →
   ∃ b, [Revert b; Cleanup; Destroy]
        `suffix_of` (confirm_cancel is_removeable u s).1) ∧
  last (confirm_cancel is_removeable u s).1 = Some Destroy ∧
  (confirm_cancel is_removeable u s).2 = false.
Proof.
  intros Hyes. unfold confirm_cancel. rewrite Hyes. cbn [negb fst snd].
  destruct (the_interpreter s) as [it|], (cancel_files_func s);
    cbn [app]; split_and!; try done.
  - intros _. eexists. by exists [CancelFiles].
  - intros _. eexists. by exists [].
Qed.

Lemma confirm_cancel_order_witness :
  let s := {| install_in_progress := true;
              the_interpreter := Some {| target_path := None;
                                         game_dir_created := false |};
              cancel_files_func := true |} in
  let u := {| answers_yes := true; leaves_checkbox := λ b, b |} in
  (cancel_files_func s = true →
   head (confirm_cancel (λ _, true) u s).1 = Some CancelFiles) ∧
  (the_interpreter s ≠ None →
   ∃ b, [Revert b; Cleanup; Destroy]
        `suffix_of` (confirm_cancel (λ _, true) u s).1) ∧
  last (confirm_cancel (λ _, true) u s).1 = Some Destroy ∧
  (confirm_cancel (λ _, true) u s).2 = false.
Proof.
  intros s u. apply (confirm_cancel_order (λ _, true) u s). reflexivity.
Defined.

(** X29.  What the code does when [on_install_finished] is called with a
    [game_id] that is not true: the name [game] is never bound, so its test
    raises [UnboundLocalError], after the eject, cancel, continue and
    install buttons have been hidden; the close and launch buttons are left
    as they were, the game is not saved, and the installation no longer
    counts as in progress. *)
Theorem on_install_finished_without_game_id game_has_id is_active game_id w :
  truthy game_id = false →
  (on_install_finished game_has_id is_active game_id w).2
    = Raise (OtherError "UnboundLocalError") ∧
  close_visible (on_install_finished game_has_id is_active game_id w).1.1
    = close_visible w ∧
  play_visible (on_install_finished game_has_id is_active game_id w).1.1
    = play_visible w ∧
  eject_visible (on_install_finished game_has_id is_active game_id w).1.1
    = false ∧
  cancel_visible (on_install_finished game_has_id is_active game_id w).1.1
    = false ∧
  continue_visible (on_install_finished game_has_id is_active game_id w).1.1
    = false ∧
  install_visible (on_install_finished game_has_id is_active game_id w).1.1
    = false ∧
  in_progress (on_install_finished game_has_id is_active game_id w).1.1
    = false ∧
  GameSave ∉ (on_install_finished game_has_id is_active game_id w).1.2.
Proof.
  intros Hid. unfold on_install_finished. rewrite Hid. cbn [fst snd].
  split_and!; try done. rewrite !app_nil_r.
  destruct (config_set w "create_desktop_shortcut"),
    (config_set w "create_menu_shortcut"); cbn;
    intros Hin; absurd_elem_of Hin.
Qed.

Lemma on_install_finished_without_game_id_witness :
  let w := {| config := {[ "create_desktop_shortcut" := VBool true ]};
              in_progress := true; widgets := ["log"];
              eject_visible := true; cancel_visible := true;
              continue_visible := true; install_visible := true;
              play_visible := false; close_visible := false;
              urgency_hint := false |} in
  (on_install_finished true true VNone w).2
    = Raise (OtherError "UnboundLocalError") ∧
  close_visible (on_install_finished true true VNone w).1.1
    = close_visible w ∧
  play_visible (on_install_finished true true VNone w).1.1 = play_visible w ∧
  eject_visible (on_install_finished true true VNone w).1.1 = false ∧
  cancel_visible (on_install_finished true true VNone w).1.1 = false ∧
  continue_visible (on_install_finished true true VNone w).1.1 = false ∧
  install_visible (on_install_finished true true VNone w).1.1 = false ∧
  in_progress (on_install_finished true true VNone w).1.1 = false ∧
  GameSave ∉ (on_install_finished true true VNone w).1.2.
Proof.
  intros w. apply (on_install_finished_without_game_id true true VNone w).
  reflexivity.
Defined.

End cancelling.

(** ** The files screen *)

Section files_screen.
Import InstallerWindow InstallerFlow.

Lemma disconnect_stored_none w :
  one_handler w → continue_connected (disconnect_stored w) = [].
Proof.
  intros Hone. apply elem_of_nil_inv. intros id Hid.
  unfold disconnect_stored in Hid.
  destruct (continue_handler w) as [h|] eqn:Hh.
  - case_bool_decide as Hz.
    + destruct (Hone id Hid) as [Hid' Hne]. congruence.
    + cbn in Hid. apply list_elem_of_filter in Hid as [Hne Hin].
      destruct (Hone id Hin) as [Hid' _]. congruence.
  - destruct (Hone id Hid) as [Hid' _]. congruence.
Qed.

Lemma on_files_confirmed_disconnects w handler_id :
  continue_connected w = [handler_id] →
  continue_handler w = Some handler_id →
  continue_connected (on_files_confirmed (Ok tt) w).1 = [] ∧
  (on_files_confirmed (Ok tt) w).2 = Ok tt.
Proof.
  intros Hconn Hh. unfold on_files_confirmed. cbn. rewrite Hh. cbn.
  rewrite Hconn. split; [|done].
  by rewrite filter_cons_False, filter_nil by (intros ?; done).
Qed.

(** X30.  On a window whose continue button has no handler but the one
    [continue_handler] names, [show_installer_files_screen] leaves exactly
    one handler on the button, the new one.  If [on_files_confirmed] then
    returns normally the button has no handler left; if it meets a
    [PermissionError] the new handler is still the only one and the button
    is sensitive, so that the user can try again. *)
Theorem files_screen_handler is_ready handler_id s :
  one_handler (window s) →
  continue_connected
    (window (show_installer_files_screen is_ready handler_id s))
  = [handler_id] ∧
  continue_handler
    (window (show_installer_files_screen is_ready handler_id s))
  = Some handler_id ∧
  continue_connected
    (on_files_confirmed (Ok tt)
       (window (show_installer_files_screen is_ready handler_id s))).1 = [] ∧
  (on_files_confirmed (Ok tt)
     (window (show_installer_files_screen is_ready handler_id s))).2 = Ok tt ∧
  ∀ ex,
    continue_connected
      (on_files_confirmed (Raise (PermissionError ex))
         (window (show_installer_files_screen is_ready handler_id s))).1
    = [handler_id] ∧
    continue_sensitive
      (on_files_confirmed (Raise (PermissionError ex))
         (window (show_installer_files_screen is_ready handler_id s))).1
    = true.
Proof.
  intros Hone.
  set (w := window (show_installer_files_screen is_ready handler_id s)).
  assert (continue_connected w = [handler_id]) as Hconn.
  { unfold w, show_installer_files_screen.
    cbn [window connect continue_connected].
    rewrite (disconnect_stored_none _); [done|].
    intros id Hin. by apply Hone. }
  assert (continue_handler w = Some handler_id) as Hh by done.
  destruct (on_files_confirmed_disconnects w handler_id Hconn Hh) as [H1 H2].
  by split_and!.
Qed.

Lemma files_screen_handler_witness :
  let s := {| window := connect (new_window []) 3; continue_shown := true;
              cancel_files_set := false |} in
  continue_connected (window (show_installer_files_screen true 7 s)) = [7] ∧
  continue_handler (window (show_installer_files_screen true 7 s)) = Some 7 ∧
  continue_connected
    (on_files_confirmed (Ok tt)
       (window (show_installer_files_screen true 7 s))).1 = [] ∧
  (on_files_confirmed (Ok tt)
     (window (show_installer_files_screen true 7 s))).2 = Ok tt ∧
  ∀ ex,
    continue_connected
      (on_files_confirmed (Raise (PermissionError ex))
         (window (show_installer_files_screen true 7 s))).1 = [7] ∧
    continue_sensitive
      (on_files_confirmed (Raise (PermissionError ex))
         (window (show_installer_files_screen true 7 s))).1 = true.
Proof.
  intros s. apply (files_screen_handler true 7 s).
  intros id Hin. change (id ∈ [3]) in Hin.
  apply list_elem_of_singleton in Hin as ->. by split.
Defined.

End files_screen.

(** ** Descriptors shared with the base *)

Lemma store_index_step_ok σ oda a d k :
  Store.dict_at σ a = Some d → d !! "option" = Some (VStr k) →
  Store.index_step oda a σ = (σ, Ok (OrderedDict.set k a oda)).
Proof.
  intros Ha Hk. unfold Store.index_step.
  rewrite store_bind_run, (read_dict_at _ _ _ Ha), store_bind_run.
  unfold Store.lift. by rewrite (proj2 (subscript_key_Ok d k) Hk).
Qed.

Lemma store_index_loop_zip σ l ds ks oda :
  Store.dicts_at σ l = Some ds → has_keys ds ks → NoDup ks →
  (∀ k, k ∈ ks → k ∉ OrderedDict.keys oda) →
  Store.for_each Store.index_step l oda σ = (σ, Ok (oda ++ zip ks l)%list).
Proof.
  revert ds ks oda. induction l as [|a l IH]; intros ds ks oda Hds Hks Hnd Hfresh.
  - injection Hds as <-. apply Forall2_nil_inv_l in Hks as ->.
    by rewrite app_nil_r.
  - apply dicts_at_cons in Hds as (d & ds' & -> & Hd & Hds').
    apply Forall2_cons_inv_l in Hks as (k & ks' & Hk & Hks' & ->).
    apply NoDup_cons in Hnd as [Hk' Hnd].
    cbn [Store.for_each]. rewrite store_bind_run.
    rewrite (store_index_step_ok _ _ _ _ _ Hd Hk).
    rewrite od_set_fresh by (apply Hfresh, list_elem_of_here).
    rewrite (IH ds' ks'); [by rewrite <-app_assoc|done..|].
    intros k0 Hk0. unfold OrderedDict.keys.
    rewrite fmap_app. intros [Hin|Hin]%elem_of_app.
    + by apply (Hfresh k0); [apply list_elem_of_further|].
    + apply list_elem_of_singleton in Hin as ->. done.
Qed.

Lemma store_override_step_other σ oda a o k' k oda' :
  Store.dict_at σ a = Some o → o !! "option" = Some (VStr k') → k' ≠ k →
  (Store.override_step oda a σ).2 = Ok oda' →
  OrderedDict.get k oda' = OrderedDict.get k oda ∧
  OrderedDict.keys oda' =
  if decide (k' ∈ OrderedDict.keys oda) then OrderedDict.keys oda
  else (OrderedDict.keys oda ++ [k'])%list.
Proof.
  intros Ha Hk Hne. unfold Store.override_step.
  rewrite store_bind_run, (read_dict_at _ _ _ Ha), store_bind_run.
  unfold Store.lift. rewrite (proj2 (subscript_key_Ok o k') Hk).
  assert (∀ v, OrderedDict.get k (OrderedDict.set k' v oda)
               = OrderedDict.get k oda) as Hget
    by (intros v; by rewrite od_get_set, decide_False).
  destruct (OrderedDict.get k' oda) as [a0|].
  - rewrite store_bind_run. unfold Store.read_dict.
    destruct (σ !! a0) as [[existing|]|]; try done.
    destruct (dict_truthy existing).
    + rewrite store_bind_run. unfold Store.alloc. cbn zeta.
      rewrite od_get_set, decide_True by done. rewrite store_bind_run.
      destruct (Store.update_in_place _ _ _) as [σ2 [[]|e]]; [|done].
      intros [= <-]. by rewrite Hget, od_keys_set.
    + intros [= <-]. by rewrite Hget, od_keys_set.
  - intros [= <-]. by rewrite Hget, od_keys_set.
Qed.

Lemma store_override_loop_other σ l ovs oks oda k σ' oda' :
  Store.dicts_at σ l = Some ovs → has_keys ovs oks → k ∉ oks →
  Store.for_each Store.override_step l oda σ = (σ', Ok oda') →
  OrderedDict.get k oda' = OrderedDict.get k oda ∧
  OrderedDict.keys oda' =
  (OrderedDict.keys oda ++ new_keys (OrderedDict.keys oda) oks)%list.
Proof.
  revert σ ovs oks oda.
  induction l as [|a l IH]; intros σ ovs oks oda Hovs Hks Hk Hloop.
  - injection Hovs as <-. apply Forall2_nil_inv_l in Hks as ->.
    cbn in Hloop. injection Hloop as _ <-.
    by rewrite new_keys_nil, app_nil_r.
  - apply dicts_at_cons in Hovs as (o & ovs' & -> & Ho & Hovs').
    apply Forall2_cons_inv_l in Hks as (k' & oks' & Hk' & Hks' & ->).
    apply not_elem_of_cons in Hk as [Hne Hk].
    cbn [Store.for_each] in Hloop. rewrite store_bind_run in Hloop.
    pose proof (preserves_override_step oda a σ) as Hsub.
    pose proof (store_override_step_other σ oda a o k' k) as Hstep.
    destruct (Store.override_step oda a σ) as [σ1 [oda1|e]]; [|done].
    cbn [fst snd] in *.
    destruct (Hstep oda1 Ho Hk') as [Hget Hkeys]; [congruence|done|].
    destruct (IH σ1 ovs' oks' oda1) as [Hget' Hkeys'];
      [by apply (dicts_at_mono σ)|done..|].
    split; [congruence|].
    rewrite Hkeys', Hkeys, new_keys_cons.
    destruct (decide (k' ∈ OrderedDict.keys oda)); [done|].
    by rewrite <-app_assoc.
Qed.

Lemma od_values_lookup {V} (od : OrderedDict.t V) i k v :
  NoDup (OrderedDict.keys od) → OrderedDict.keys od !! i = Some k →
  OrderedDict.get k od = Some v → OrderedDict.values od !! i = Some v.
Proof.
  unfold OrderedDict.keys, OrderedDict.values.
  revert i. induction od as [|[k0 v0] od IH]; intros i Hnd Hi Hget; [done|].
  rewrite fmap_cons in Hnd. apply NoDup_cons in Hnd as [Hk0 Hnd].
  cbn in Hget. destruct i as [|i]; cbn in *.
  - injection Hi as ->. by rewrite decide_True in Hget.
  - destruct (decide (k0 = k)) as [->|Hne].
    + exfalso. apply Hk0. by eapply list_elem_of_lookup_2.
    + by apply IH.
Qed.

Lemma od_get_zip {V} (ks : list string) (l : list V) i k x :
  NoDup ks → ks !! i = Some k → l !! i = Some x →
  OrderedDict.get k (zip ks l) = Some x.
Proof.
  revert l i. induction ks as [|k0 ks IH]; intros [|x0 l] i Hnd Hk Hx; try done.
  apply NoDup_cons in Hnd as [Hk0 Hnd]. destruct i as [|i]; cbn in *.
  - injection Hk as ->. injection Hx as ->. by rewrite decide_True.
  - rewrite decide_False; [by eapply IH|].
    intros ->. apply Hk0. by eapply list_elem_of_lookup_2.
Qed.

Lemma new_keys_NoDup_app ks oks :
  NoDup ks → NoDup (ks ++ new_keys ks oks)%list.
Proof.
  intros Hnd. apply NoDup_app. split_and!; [done| |apply first_occurrences_NoDup].
  intros k Hk. unfold new_keys.
  rewrite first_occurrences_elem_of, list_elem_of_filter. tauto.
Qed.

(** X14.  A descriptor of the base whose key no override names is shared: when
    the base has distinct keys and the runner's class has overrides, the new
    list holds, at the position the descriptor has in [system_options], the
    very same object.  A caller that changes it in the result changes
    [system_options]. *)
Theorem store_with_runner_overrides_shares
    σ imp slug sys r lb lo base ovs bks oks i x k :
  imp slug = Ok r →
  σ !! sys = Some (Store.ListObj lb) →
  σ !! Store.class_system_options_override r = Some (Store.ListObj lo) →
  lo ≠ [] →
  Store.dicts_at σ lb = Some base → Store.dicts_at σ lo = Some ovs →
  has_keys base bks → NoDup bks → has_keys ovs oks →
  lb !! i = Some x → bks !! i = Some k → k ∉ oks →
  ∃ a l',
    (Store.with_runner_overrides imp sys slug σ).2 = Ok a ∧
    (Store.with_runner_overrides imp sys slug σ).1 !! a
      = Some (Store.ListObj l') ∧
    l' !! i = Some x.
Proof.
  intros Himp Hsys Hcls Hne Hdb Hdo Hbase Hnd Hovs Hx Hk Hnot.
  destruct lo as [|a0 lo]; [done|].
  assert (Store.read_list sys σ = (σ, Ok lb)) as Hrb
    by (unfold Store.read_list; by rewrite Hsys).
  assert (Store.read_list (Store.class_system_options_override r) σ
          = (σ, Ok (a0 :: lo))) as Hro
    by (unfold Store.read_list; by rewrite Hcls).
  assert (Store.for_each Store.index_step lb [] σ = (σ, Ok (zip bks lb)))
    as Hindex_run.
  { rewrite (store_index_loop_zip σ lb base bks []); [done..|].
    intros k0 _. apply not_elem_of_nil. }
  destruct (index_loop_refines σ lb base [] [] Hdb) as [_ Hindex];
    [constructor|].
  rewrite Hindex_run in Hindex.
  rewrite (index_loop_zip base bks []) in Hindex; [|done..|].
  2:{ intros k0 _. apply not_elem_of_nil. }
  destruct Hindex as (oda & [= <-] & Hrepr). cbn [fst app] in Hrepr.
  pose proof (override_loop_refines σ (a0 :: lo) ovs _ _ Hdo Hrepr) as Hloop.
  destruct (override_loop_ok ovs oks (zip bks base) Hovs) as [odp' Hpure].
  rewrite Hpure in Hloop. destruct Hloop as (oda' & Hr & _).
  destruct (Store.for_each Store.override_step (a0 :: lo) (zip bks lb) σ)
    as [σ2 r2] eqn:Hrun.
  cbn [snd] in Hr. subst r2.
  destruct (store_override_loop_other _ _ _ _ _ k _ _ Hdo Hovs Hnot Hrun)
    as [Hget Hkeys].
  assert (Store.with_runner_overrides imp sys slug σ
          = (<[fresh (dom σ2) := Store.ListObj (OrderedDict.values oda')]> σ2,
             Ok (fresh (dom σ2)))) as ->.
  { unfold Store.with_runner_overrides. rewrite Himp.
    rewrite store_bind_run, Hro. unfold Store.merge_options.
    rewrite store_bind_run, Hro, store_bind_run, Hrb, store_bind_run.
    unfold Store.opts_dict_of. rewrite Hindex_run, store_bind_run, Hrun.
    done. }
  cbn [fst snd].
  eexists _, _. split; [done|]. split; [apply lookup_insert_eq|].
  assert (length bks = length lb) as Hlen.
  { rewrite <-(has_keys_length _ _ Hbase).
    unfold Store.dicts_at in Hdb. by apply length_mapM in Hdb. }
  assert (OrderedDict.keys (zip bks lb) = bks) as Hzip
    by (apply fst_zip; lia).
  rewrite Hzip in Hkeys.
  apply (od_values_lookup _ _ k).
  - rewrite Hkeys. by apply new_keys_NoDup_app.
  - rewrite Hkeys. by apply lookup_app_l_Some.
  - rewrite Hget. by apply (od_get_zip bks lb i).
Qed.

Lemma store_with_runner_overrides_shares_witness :
  ∃ a l',
    (Store.with_runner_overrides (λ _, Ok example_runner) 3%positive "wine"
       example_store).2 = Ok a ∧
    (Store.with_runner_overrides (λ _, Ok example_runner) 3%positive "wine"
       example_store).1 !! a = Some (Store.ListObj l') ∧
    l' !! 0 = Some 1%positive.
Proof.
  apply (store_with_runner_overrides_shares example_store
           (λ _, Ok example_runner) "wine" 3%positive example_runner
           [1%positive; 2%positive] [4%positive; 5%positive]
           [descriptor "a" 1; descriptor "b" 2]
           [descriptor "b" 99; descriptor "d" 4]
           ["a"; "b"] ["b"; "d"] 0 1%positive "a").
  - reflexivity.
  - vm_compute. reflexivity.
  - vm_compute. reflexivity.
  - discriminate.
  - vm_compute. reflexivity.
  - vm_compute. reflexivity.
  - repeat constructor.
  - apply (bool_decide_unpack _). vm_compute. exact I.
  - repeat constructor.
  - reflexivity.
  - reflexivity.
  - intros Hin. apply (bool_decide_pack _) in Hin. by vm_compute in Hin.
Defined.
